(** * pesapal-rdbms: schema/row model, B-tree index, index manager,
      storage engine and execution engine, embedded from the Go sources.

    Conventions of the embedding.
    - A Go [interface{}] cell is a [Value]: nil, int, string, bool or float64.
      Go's [int] is modelled by [Z]; no arithmetic is performed on cell values,
      only comparisons, so no wrap-around arises.
    - A run-time panic (index out of range) is the [None] of [option].
    - A Go [(T, error)] result is a pair with an [option error], or a [result].
    - A Go [map] is a [gmap]; the map of column updates, whose iteration
      order decides what an UPDATE does, is an association list in the order
      the run time picked, and statements quantify over that order.
    - Locks ([sync.RWMutex]) are not modelled: every operation runs alone. *)

From Stdlib Require Import ZArith Ascii String List Bool Lia PrimFloat.
From stdpp Require Import gmap strings list sorting.

Set Default Proof Using "Type".
Local Open Scope Z_scope.

(* ================================================================== *)
(** * Dynamically typed values *)
(* ================================================================== *)

Inductive Value : Type :=
| VNil
| VInt (n : Z)
| VString (s : string)
| VBool (b : bool)
| VFloat (f : float).

(** The dynamic type of an interface value, as a type switch sees it. *)
Inductive Kind : Type := KNil | KInt | KString | KBool | KFloat.

Definition kindOf (v : Value) : Kind :=
  match v with
  | VNil => KNil
  | VInt _ => KInt
  | VString _ => KString
  | VBool _ => KBool
  | VFloat _ => KFloat
  end.

Definition isNil (v : Value) : bool :=
  match v with VNil => true | _ => false end.

(** Go's [==] on two interface values: equal dynamic types and equal
    payloads; floats compare as IEEE 754 does. *)
Definition iface_eq (a b : Value) : bool :=
  match a, b with
  | VNil, VNil => true
  | VInt x, VInt y => (x =? y)%Z
  | VString x, VString y => String.eqb x y
  | VBool x, VBool y => Bool.eqb x y
  | VFloat x, VFloat y => PrimFloat.eqb x y
  | _, _ => false
  end.

(** Errors, named after the taxonomy of the specification; the payload
    tells the messages of the source apart. *)
Inductive error : Type :=
| AlreadyExists (what : string)
| NotFound (what : string)
| ArityMismatch (got want : nat)
| NullNotAllowed (col : string)
| TypeMismatch (col : string)
| DuplicateKey (col : option string) (v : Value)
| IncomparableTypes (l r : Kind)
| UnsupportedOperator (op : string)
| UnsupportedExpression
| IOError (path : string)
| Wrapped (context : string) (e : error).

Inductive result (A : Type) : Type :=
| Ok (a : A)
| Err (e : error).
Arguments Ok {A} a.
Arguments Err {A} e.

(** [l[i] = x] on a Go slice: panics out of range. *)
Definition store {A} (l : list A) (i : nat) (x : A) : option (list A) :=
  if decide (i < length l)%nat then Some (<[i:=x]> l) else None.

(** [f(l[i])], panicking out of range. *)
Fixpoint atIndex {X A} (f : X -> option A) (l : list X) (i : nat) : option A :=
  match l, i with
  | x :: _, O => f x
  | _ :: l', S i' => atIndex f l' i'
  | [], _ => None
  end.

(* ================================================================== *)
(** * Package index: B-tree *)
(* ================================================================== *)

Module BTree.

(** [compare] of btree.go: -1, 0 or 1; every pair it has no case for
    falls through to the final [return 0]. *)
Definition compare (a b : Value) : Z :=
  match a with
  | VInt av =>
      match b with
      | VInt bv => if (av <? bv)%Z then -1 else if (av >? bv)%Z then 1 else 0
      | _ => 0
      end
  | VString av =>
      match b with
      | VString bv =>
          if String.ltb av bv then -1 else if String.ltb bv av then 1 else 0
      | _ => 0
      end
  | VFloat av =>
      match b with
      | VFloat bv =>
          if PrimFloat.ltb av bv then -1 else if PrimFloat.ltb bv av then 1 else 0
      | _ => 0
      end
  | _ => 0
  end.

Definition btreeOrder : nat := 4.

(** A node owns its children: the pointer structure of the source is a
    tree, so nodes are values, and no node pointer in it is nil. Leaves
    have no children slice. *)
#[warnings="-register-all"]
Inductive BTreeNode : Type :=
  mkNode { keys : list Value;
           values : list Z;
           children : list BTreeNode;
           isLeaf : bool }.

Record BTree : Type := mkBTree { root : BTreeNode }.

Record IndexEntry : Type := mkEntry { Key : Value; RowIndex : Z }.

Definition NewBTree : BTree := mkBTree (mkNode [] [] [] true).

(** The loop [i := 0; for i < len(keys) && compare(key, keys[i]) > 0 { i++ }]. *)
Fixpoint scanUp (key : Value) (ks : list Value) : nat :=
  match ks with
  | [] => O
  | k :: ks' => if (compare key k >? 0)%Z then S (scanUp key ks') else O
  end.

(** The loop [i := len(keys)-1; for i >= 0 && compare(key, keys[i]) < 0 { i-- }];
    the argument [n] and the result are [i+1]. *)
Fixpoint scanDown (key : Value) (ks : list Value) (n : nat) : nat :=
  match n with
  | O => O
  | S n' =>
      match ks !! n' with
      | Some k => if (compare key k <? 0)%Z then scanDown key ks n' else n
      | None => n
      end
  end.

Fixpoint searchNode (node : BTreeNode) (key : Value) : option (Z * bool) :=
  let 'mkNode ks vs cs leaf := node in
  let i := scanUp key ks in
  let descend :=
    if leaf then Some (-1, false)
    else atIndex (fun c => searchNode c key) cs i in
  match ks !! i with
  | Some k =>
      if (compare key k =? 0)%Z then v ← vs !! i; Some (v, true)
      else descend
  | None => descend
  end.

(** The two halves [splitChild] makes of a full child: [newChild] takes
    what lies after the middle key, the child itself is truncated to what
    lies before it. *)
Definition newChild (fullChild : BTreeNode) : BTreeNode :=
  let mid := (btreeOrder - 1)%nat in
  mkNode (drop (S mid) (keys fullChild))
         (drop (S mid) (values fullChild))
         (if isLeaf fullChild then [] else drop (S mid) (children fullChild))
         (isLeaf fullChild).

Definition truncated (fullChild : BTreeNode) : BTreeNode :=
  let mid := (btreeOrder - 1)%nat in
  mkNode (take mid (keys fullChild))
         (take mid (values fullChild))
         (if isLeaf fullChild then children fullChild
          else take (S mid) (children fullChild))
         (isLeaf fullChild).

(** [splitChild]: the child at [index] keeps its first [btreeOrder-1]
    keys, the key after them moves up into the parent at [index], the rest
    goes to a new right sibling at [index+1]. Out-of-range accesses of the
    source are [None]; so is a node whose slices are out of step
    ([len(values) = len(keys)], and [len(children) = len(keys)+1] in an
    internal node), which no operation of the package produces. *)
Definition splitChild (parent : BTreeNode) (index : nat) : option BTreeNode :=
  fullChild ← children parent !! index;
  let mid := (btreeOrder - 1)%nat in
  if negb ((length (values parent) =? length (keys parent))%nat
           && (length (children parent) =? S (length (keys parent)))%nat
           && (length (values fullChild) =? length (keys fullChild))%nat
           && (isLeaf fullChild
               || (length (children fullChild) =? S (length (keys fullChild)))%nat))
  then None else
  midKey ← keys fullChild !! mid;
  midValue ← values fullChild !! mid;
  Some (mkNode (take index (keys parent) ++ midKey :: drop index (keys parent))
               (take index (values parent) ++ midValue :: drop index (values parent))
               (take index (children parent) ++ truncated fullChild
                  :: newChild fullChild :: drop (S index) (children parent))
               (isLeaf parent)).

(** [insertNonFull] recurses into a child that [splitChild] may just have
    rebuilt, so the recursion is on [fuel]; [Insert] passes the height of
    the tree, which suffices on every tree the package builds (lemmas
    [insertNonFull_shape] and [Insert_shape]). As in [splitChild], a leaf
    whose [values] and [keys] are out of step is [None]. *)
Fixpoint insertNonFull (fuel : nat) (node : BTreeNode) (key : Value) (rowIndex : Z)
  : option BTreeNode :=
  match fuel with
  | O => None
  | S fuel' =>
      let i := scanDown key (keys node) (length (keys node)) in
      if isLeaf node then
        if negb (length (values node) =? length (keys node))%nat then None else
        Some (mkNode (take i (keys node) ++ key :: drop i (keys node))
                     (take i (values node) ++ rowIndex :: drop i (values node))
                     (children node) true)
      else
        child ← children node !! i;
        '(node1, i1) ←
          (if (2 * btreeOrder - 1 <=? length (keys child))%nat then
             node1 ← splitChild node i;
             k ← keys node1 !! i;
             Some (node1, if (compare key k >? 0)%Z then S i else i)
           else Some (node, i));
        c ← children node1 !! i1;
        c' ← insertNonFull fuel' c key rowIndex;
        Some (mkNode (keys node1) (values node1) (<[i1:=c']> (children node1))
                     (isLeaf node1))
  end.

Fixpoint height (node : BTreeNode) : nat :=
  let 'mkNode _ _ cs _ := node in S (max_list (map height cs)).

Definition Insert (bt : BTree) (key : Value) (rowIndex : Z)
  : option (BTree * option error) :=
  '(_, found) ← searchNode (root bt) key;
  if found : bool then Some (bt, Some (DuplicateKey None key)) else
  root1 ← (if (2 * btreeOrder - 1 <=? length (keys (root bt)))%nat
           then splitChild (mkNode [] [] [root bt] false) 0
           else Some (root bt));
  root2 ← insertNonFull (height root1) root1 key rowIndex;
  Some (mkBTree root2, None).

Definition Search (bt : BTree) (key : Value) : option (Z * bool) :=
  searchNode (root bt) key.

Fixpoint deleteNode (node : BTreeNode) (key : Value) : option (BTreeNode * bool) :=
  let 'mkNode ks vs cs leaf := node in
  let i := scanUp key ks in
  let descend :=
    if leaf then Some (node, false)
    else
      '(c', r) ← atIndex (fun c => deleteNode c key) cs i;
      Some (mkNode ks vs (<[i:=c']> cs) leaf, r) in
  match ks !! i with
  | Some k =>
      if (compare key k =? 0)%Z then
        if leaf then
          if decide (i < length vs)%nat
          then Some (mkNode (delete i ks) (delete i vs) cs leaf, true)
          else None
        else Some (node, true)
      else descend
  | None => descend
  end.

Definition Delete (bt : BTree) (key : Value) : option (BTree * bool) :=
  '(r, b) ← deleteNode (root bt) key; Some (mkBTree r, b).

(** The entries of a leaf: [keys[i]] with [values[i]]. *)
Fixpoint leafEntries (ks : list Value) (vs : list Z) : option (list IndexEntry) :=
  match ks with
  | [] => Some []
  | k :: ks' =>
      match vs with
      | v :: vs' => rest ← leafEntries ks' vs'; Some (mkEntry k v :: rest)
      | [] => None
      end
  end.

(** In-order traversal: child [i] before key [i], the last child
    ([children[len(keys)]]) at the end. *)
Fixpoint traverse (node : BTreeNode) : option (list IndexEntry) :=
  let 'mkNode ks vs cs leaf := node in
  if leaf then leafEntries ks vs
  else
    (fix walk (cs : list BTreeNode) (ks : list Value) (vs : list Z) {struct cs}
       : option (list IndexEntry) :=
       match cs with
       | [] => None
       | c :: cs' =>
           match ks with
           | [] => traverse c
           | k :: ks' =>
               match vs with
               | v :: vs' =>
                   sub ← traverse c;
                   rest ← walk cs' ks' vs';
                   Some (sub ++ mkEntry k v :: rest)
               | [] => None
               end
           end
       end) cs ks vs.

Definition GetAll (bt : BTree) : option (list IndexEntry) := traverse (root bt).

(** Inserting a batch of entries one by one, stopping at the first error. *)
Fixpoint InsertAll (bt : BTree) (entries : list (Value * Z))
  : option (BTree * option error) :=
  match entries with
  | [] => Some (bt, None)
  | (k, v) :: rest =>
      '(bt', err) ← Insert bt k v;
      match err with
      | Some e => Some (bt', Some e)
      | None => InsertAll bt' rest
      end
  end.

(** A sequence of operations applied to a tree. *)
Inductive Op : Type :=
| OpInsert (key : Value) (rowIndex : Z)
| OpDelete (key : Value).

Definition isInsert (op : Op) : bool :=
  match op with OpInsert _ _ => true | OpDelete _ => false end.

Fixpoint run (ops : list Op) (bt : BTree) : option BTree :=
  match ops with
  | [] => Some bt
  | OpInsert key rowIndex :: rest => '(bt', _) ← Insert bt key rowIndex; run rest bt'
  | OpDelete key :: rest => '(bt', _) ← Delete bt key; run rest bt'
  end.

(** The depths of the leaves below a node that is itself at depth [d]. *)
Fixpoint leafDepths (d : nat) (node : BTreeNode) : list nat :=
  let 'mkNode _ _ cs leaf := node in
  if leaf then [d] else flat_map (leafDepths (S d)) cs.

(** A node and all the nodes below it. *)
Fixpoint subnodes (node : BTreeNode) : list BTreeNode :=
  let 'mkNode _ _ cs leaf := node in
  node :: (if leaf then [] else flat_map subnodes cs).

Definition nonRootNodes (bt : BTree) : list BTreeNode :=
  if isLeaf (root bt) then [] else flat_map subnodes (children (root bt)).

End BTree.

(* ================================================================== *)
(** * Package index: the index manager *)
(* ================================================================== *)

Module Manager.

(** [indexes]: table name -> column name -> B-tree. *)
Record Manager : Type := mkManager { indexes : gmap string (gmap string BTree.BTree) }.

Definition NewManager : Manager := mkManager ∅.

Definition CreateIndex (m : Manager) (tableName columnName : string)
  : Manager * option error :=
  let idx1 :=
    match indexes m !! tableName with
    | Some _ => indexes m
    | None => <[tableName := ∅]> (indexes m)
    end in
  let cols := default ∅ (idx1 !! tableName) in
  match cols !! columnName with
  | Some _ => (mkManager idx1, Some (AlreadyExists (tableName +:+ "." +:+ columnName)))
  | None =>
      (mkManager (<[tableName := <[columnName := BTree.NewBTree]> cols]> idx1), None)
  end.

Definition DropTableIndexes (m : Manager) (tableName : string) : Manager :=
  mkManager (delete tableName (indexes m)).

Definition Insert (m : Manager) (tableName columnName : string)
    (key : Value) (rowIndex : Z) : option (Manager * option error) :=
  match indexes m !! tableName with
  | None => Some (m, None)
  | Some cols =>
      match cols !! columnName with
      | Some btree =>
          '(btree', err) ← BTree.Insert btree key rowIndex;
          Some (mkManager (<[tableName := <[columnName := btree']> cols]> (indexes m)), err)
      | None => Some (m, None)
      end
  end.

Definition Search (m : Manager) (tableName columnName : string) (key : Value)
  : option (Z * bool) :=
  match indexes m !! tableName with
  | None => Some (-1, false)
  | Some cols =>
      match cols !! columnName with
      | Some btree => BTree.Search btree key
      | None => Some (-1, false)
      end
  end.

Definition HasIndex (m : Manager) (tableName columnName : string) : bool :=
  match indexes m !! tableName with
  | None => false
  | Some cols => bool_decide (is_Some (cols !! columnName))
  end.

(** [DropIndex]: two different errors, for a table without indexes and
    for a column without index; the inner map of the table stays, even
    when its last index goes. *)
Definition DropIndex (m : Manager) (tableName columnName : string)
  : Manager * option error :=
  match indexes m !! tableName with
  | None => (m, Some (NotFound tableName))
  | Some cols =>
      match cols !! columnName with
      | None => (m, Some (NotFound (tableName +:+ "." +:+ columnName)))
      | Some _ => (mkManager (<[tableName := delete columnName cols]> (indexes m)), None)
      end
  end.

Definition Delete (m : Manager) (tableName columnName : string) (key : Value)
  : option (Manager * bool) :=
  match indexes m !! tableName with
  | None => Some (m, false)
  | Some cols =>
      match cols !! columnName with
      | Some btree =>
          '(btree', deleted) ← BTree.Delete btree key;
          Some (mkManager (<[tableName := <[columnName := btree']> cols]> (indexes m)),
                deleted)
      | None => Some (m, false)
      end
  end.

(** [GetIndexedColumns]: the columns in the order the map iteration gives. *)
Definition GetIndexedColumns (m : Manager) (tableName : string) : list string :=
  match indexes m !! tableName with
  | None => []
  | Some cols => (map_to_list cols).*1
  end.

End Manager.

(* ================================================================== *)
(** * Package storage: schema and rows *)
(* ================================================================== *)

Inductive DataType : Type := TypeInteger | TypeVarchar | TypeBoolean | TypeFloat.

Record Column : Type := mkColumn {
  Name : string;
  ColType : DataType;
  Size : Z;
  PrimaryKey : bool;
  Unique : bool;
  NotNull : bool }.

Record Schema : Type := mkSchema {
  TableName : string;
  Columns : list Column;
  PrimaryKeys : list string;
  UniqueKeys : list string }.

Definition NewSchema (tableName : string) : Schema := mkSchema tableName [] [] [].

Definition AddColumn (s : Schema) (col : Column) : Schema :=
  mkSchema (TableName s)
           (Columns s ++ [col])
           (if PrimaryKey col then PrimaryKeys s ++ [Name col] else PrimaryKeys s)
           (if Unique col then UniqueKeys s ++ [Name col] else UniqueKeys s).

(** [GetColumnIndex]: the first position holding the name, or -1. *)
Fixpoint indexFrom (cols : list Column) (name : string) (i : Z) : Z :=
  match cols with
  | [] => -1
  | col :: cols' => if String.eqb (Name col) name then i else indexFrom cols' name (i + 1)
  end.

Definition GetColumnIndex (s : Schema) (name : string) : Z := indexFrom (Columns s) name 0.


(** [GetColumn]: the first column holding the name. The source returns a
    pointer into [Columns]; no caller writes through it. *)
Fixpoint columnNamed (cols : list Column) (name : string) : result Column :=
  match cols with
  | [] => Err (NotFound name)
  | col :: cols' => if String.eqb (Name col) name then Ok col else columnNamed cols' name
  end.

Definition GetColumn (s : Schema) (name : string) : result Column :=
  columnNamed (Columns s) name.

Record Row : Type := mkRow { Values : list Value }.

Definition NewRow (values : list Value) : Row := mkRow values.

(** [Row.Get] and [Row.Set]; the slice accesses they guard are written
    with their own bounds check, [None] being the panic. *)
Definition Row_Get (r : Row) (index : Z) : option Value :=
  if (index <? 0) || (index >=? Z.of_nat (length (Values r))) then Some VNil
  else Values r !! Z.to_nat index.

Definition Row_Set (r : Row) (index : Z) (value : Value) : option Row :=
  if (index >=? 0) && (index <? Z.of_nat (length (Values r))) then
    vs ← store (Values r) (Z.to_nat index) value; Some (mkRow vs)
  else Some r.

(** [ValidateValue]: [None] is the nil error. The parser and the gob
    decoder produce float64 only, so the float32 case of the source has
    no value here. *)
Definition ValidateValue (value : Value) (col : Column) : option error :=
  match value with
  | VNil => if NotNull col then Some (NullNotAllowed (Name col)) else None
  | _ =>
      match ColType col with
      | TypeInteger =>
          match value with VInt _ => None | _ => Some (TypeMismatch (Name col)) end
      | TypeVarchar =>
          match value with
          | VString str =>
              if (Size col >? 0) && (Z.of_nat (String.length str) >? Size col)
              then Some (TypeMismatch (Name col)) else None
          | _ => Some (TypeMismatch (Name col))
          end
      | TypeBoolean =>
          match value with VBool _ => None | _ => Some (TypeMismatch (Name col)) end
      | TypeFloat =>
          match value with VFloat _ => None | _ => Some (TypeMismatch (Name col)) end
      end
  end.

(* ================================================================== *)
(** * Package storage: tables *)
(* ================================================================== *)

Record Table : Type := mkTable { TSchema : Schema; Rows : list Row }.

(** The loop [for i, col := range Columns { ValidateValue(row.Values[i], col) }]. *)
Fixpoint validateRow (cols : list Column) (vals : list Value) (i : nat)
  : option (option error) :=
  match cols with
  | [] => Some None
  | col :: cols' =>
      v ← vals !! i;
      match ValidateValue v col with
      | Some e => Some (Some e)
      | None => validateRow cols' vals (S i)
      end
  end.

(** The loop [for _, existingRow := range t.Rows] looking for a cell equal
    to [v] at position [idx]. *)
Fixpoint scanRows (rows : list Row) (idx : nat) (v : Value) : option bool :=
  match rows with
  | [] => Some false
  | r :: rows' =>
      x ← Values r !! idx;
      if iface_eq x v then Some true else scanRows rows' idx v
  end.

Fixpoint checkPrimaryKeys (s : Schema) (rows : list Row) (row : Row) (pks : list string)
  : option (option error) :=
  match pks with
  | [] => Some None
  | pkCol :: pks' =>
      let pkIndex := GetColumnIndex s pkCol in
      if (pkIndex =? -1)%Z then checkPrimaryKeys s rows row pks' else
      pkValue ← Values row !! Z.to_nat pkIndex;
      dup ← scanRows rows (Z.to_nat pkIndex) pkValue;
      if dup : bool then Some (Some (DuplicateKey None pkValue))
      else checkPrimaryKeys s rows row pks'
  end.

Fixpoint checkUniqueKeys (s : Schema) (rows : list Row) (row : Row) (uks : list string)
  : option (option error) :=
  match uks with
  | [] => Some None
  | uniqueCol :: uks' =>
      let uniqueIndex := GetColumnIndex s uniqueCol in
      if (uniqueIndex =? -1)%Z then checkUniqueKeys s rows row uks' else
      uniqueValue ← Values row !! Z.to_nat uniqueIndex;
      if isNil uniqueValue then checkUniqueKeys s rows row uks' else
      dup ← scanRows rows (Z.to_nat uniqueIndex) uniqueValue;
      if dup : bool then Some (Some (DuplicateKey (Some uniqueCol) uniqueValue))
      else checkUniqueKeys s rows row uks'
  end.

Definition InsertRow (t : Table) (row : Row) : option (Table * option error) :=
  if negb (length (Values row) =? length (Columns (TSchema t)))%nat then
    Some (t, Some (ArityMismatch (length (Values row)) (length (Columns (TSchema t)))))
  else
    verr ← validateRow (Columns (TSchema t)) (Values row) 0;
    match verr with
    | Some e => Some (t, Some e)
    | None =>
        pkerr ← checkPrimaryKeys (TSchema t) (Rows t) row (PrimaryKeys (TSchema t));
        match pkerr with
        | Some e => Some (t, Some e)
        | None =>
            uerr ← checkUniqueKeys (TSchema t) (Rows t) row (UniqueKeys (TSchema t));
            match uerr with
            | Some e => Some (t, Some e)
            | None => Some (mkTable (TSchema t) (Rows t ++ [row]), None)
            end
        end
    end.

Definition SelectRows (t : Table) : list Row := Rows t.

(** The inner loop of [UpdateRows] over the [updates] map, on one row. *)
Fixpoint applyUpdates (s : Schema) (updates : list (string * Value)) (row : Row)
  : option (Row * option error) :=
  match updates with
  | [] => Some (row, None)
  | (colName, value) :: rest =>
      let colIndex := GetColumnIndex s colName in
      if (colIndex =? -1)%Z then Some (row, Some (NotFound colName)) else
      col ← Columns s !! Z.to_nat colIndex;
      match ValidateValue value col with
      | Some e => Some (row, Some e)
      | None =>
          vs ← store (Values row) (Z.to_nat colIndex) value;
          applyUpdates s rest (mkRow vs)
      end
  end.

(** A condition is a Go closure, or nil, which matches every row; a
    closure may panic like any other code. *)
Definition Condition : Type := option (Row -> option bool).

Definition matches (condition : Condition) (row : Row) : option bool :=
  match condition with
  | None => Some true
  | Some f => f row
  end.

(** The outer loop of [UpdateRows]: the rows as they are when the call
    returns, the count, and the error. *)
Fixpoint updateLoop (s : Schema) (condition : Condition)
    (updates : list (string * Value)) (rows : list Row) (count : Z)
  : option (list Row * Z * option error) :=
  match rows with
  | [] => Some ([], count, None)
  | row :: rest =>
      m ← matches condition row;
      if m : bool then
        '(row', err) ← applyUpdates s updates row;
        match err with
        | Some e => Some (row' :: rest, count, Some e)
        | None =>
            '(rest', n, err') ← updateLoop s condition updates rest (count + 1);
            Some (row' :: rest', n, err')
        end
      else
        '(rest', n, err') ← updateLoop s condition updates rest count;
        Some (row :: rest', n, err')
  end.

Definition UpdateRows (t : Table) (condition : Condition)
    (updates : list (string * Value)) : option (Table * Z * option error) :=
  '(rows', n, err) ← updateLoop (TSchema t) condition updates (Rows t) 0;
  Some (mkTable (TSchema t) rows', n, err).

(** The loop of [DeleteRows] for a non-nil condition: the rows kept and
    the number removed. *)
Fixpoint deleteLoop (f : Row -> option bool) (rows : list Row) (count : Z)
  : option (list Row * Z) :=
  match rows with
  | [] => Some ([], count)
  | row :: rest =>
      m ← f row;
      if m : bool then deleteLoop f rest (count + 1)
      else '(kept, n) ← deleteLoop f rest count; Some (row :: kept, n)
  end.

Definition DeleteRows (t : Table) (condition : Condition) : option (Table * Z) :=
  match condition with
  | None => Some (mkTable (TSchema t) [], Z.of_nat (length (Rows t)))
  | Some f =>
      '(newRows, count) ← deleteLoop f (Rows t) 0;
      Some (mkTable (TSchema t) newRows, count)
  end.

(* ================================================================== *)
(** * Package storage: the storage engine and its files *)
(* ================================================================== *)

(** [encoding/gob] is a library outside the repository: a gob stream is a
    sequence of typed values; [Encode] appends one, [Decode] reads the next
    one and fails when its type is not the one asked for. *)
Inductive gobValue : Type :=
| GobSchema (s : Schema)
| GobRows (rows : list Row).

Abbreviation File := (list gobValue).

(** [path/filepath] on Unix. The elements of a path between its
    separators, empty ones included. *)
Fixpoint splitSlash (s : string) : list string :=
  match s with
  | EmptyString => [EmptyString]
  | String c s' =>
      if Ascii.eqb c "/"%char then EmptyString :: splitSlash s'
      else match splitSlash s' with
           | [] => [String c EmptyString]
           | elem :: elems => String c elem :: elems
           end
  end.

(** A cleaned path is kept as what [filepath.Clean] makes of it: whether
    it is rooted, and its elements. [(false, [])] is the path [.] and
    [(true, [])] the path [/]. *)
Abbreviation Path := (bool * list string)%type.

Definition isRooted (path : string) : bool :=
  match path with
  | String c _ => Ascii.eqb c "/"%char
  | EmptyString => false
  end.

(** One element in the loop of [filepath.Clean], the elements kept so far
    held last first. An empty element and [.] are dropped. [..] takes the
    element before it away; when there is none, or it is [..] itself, [..]
    is kept in a relative path and dropped in a rooted one. *)
Definition cleanStep (rooted : bool) (kept : list string) (elem : string) : list string :=
  if String.eqb elem EmptyString || String.eqb elem "." then kept
  else if String.eqb elem ".." then
    match kept with
    | before :: rest => if String.eqb before ".." then elem :: kept else rest
    | [] => if rooted then [] else [elem]
    end
  else elem :: kept.

Definition Clean (path : string) : Path :=
  (isRooted path, rev (fold_left (cleanStep (isRooted path)) (splitSlash path) [])).

(** [filepath.Join(dir, name)] for a [name] that is not empty, as the
    names handed over here are: an empty [dir] is left out, the rest is
    joined by the separator and cleaned. *)
Definition Join (dir name : string) : Path :=
  Clean (if String.eqb dir EmptyString then name else dir +:+ "/" +:+ name).

(** The cleaned path as the string of the source, for the messages. *)
Fixpoint joinSlash (elems : list string) : string :=
  match elems with
  | [] => EmptyString
  | [elem] => elem
  | elem :: rest => elem +:+ "/" +:+ joinSlash rest
  end.

Definition pathString (p : Path) : string :=
  match p with
  | (true, elems) => "/" +:+ joinSlash elems
  | (false, []) => "."
  | (false, elems) => joinSlash elems
  end.

Arguments Clean : simpl never.
Arguments Join : simpl never.
Arguments pathString : simpl never.

(** The file system. [files]: the regular files by their cleaned paths.
    [denied]: the paths [os.Create] and [os.Remove] are refused on by the
    permissions. [quota]: for a path on which writing fails, the number of
    values that are written to the file before it does. Links are not
    modelled: two paths name one file exactly when they clean to the same
    path. *)
Record FS : Type := mkFS {
  files : gmap Path File;
  denied : gset Path;
  quota : gmap Path nat }.

(** What is behind the directory [dir] in the path [p], when [p] is the
    path of [dir] or of something in it. *)
Fixpoint stripPrefix (l k : list string) : option (list string) :=
  match l, k with
  | [], _ => Some k
  | x :: l', y :: k' => if String.eqb x y then stripPrefix l' k' else None
  | _ :: _, [] => None
  end.

Definition relativeTo (dir p : Path) : option (list string) :=
  if Bool.eqb dir.1 p.1 then stripPrefix dir.2 p.2 else None.

(** [p] lies in the directory [dir], at whatever depth. *)
Definition liesIn (dir p : Path) : bool :=
  match relativeTo dir p with
  | Some (_ :: _) => true
  | _ => false
  end.

Definition holdsFile (fs : FS) (dir : Path) : bool :=
  existsb (liesIn dir) (map_to_list (files fs)).*1.

Definition parentDir (p : Path) : Path := (p.1, removelast p.2).

Record Storage : Type := mkStorage {
  dataDir : string;
  tables : gmap string Table;
  indexMgr : Manager.Manager }.

Definition getTableFilePath (s : Storage) (tableName : string) : Path :=
  Join (dataDir s) (tableName +:+ ".tbl").
Arguments getTableFilePath : simpl never.

(** Directories are not stored. A directory is there when the data
    directory is it or lies in it ([os.MkdirAll] saw to that); when it is
    the root, or leads upwards from the working directory ([.], [..],
    [../..]); or when a file lies in it, at whatever depth. *)
Definition isDir (s : Storage) (fs : FS) (p : Path) : bool :=
  match relativeTo p (Clean (dataDir s)) with Some _ => true | None => false end
  || forallb (String.eqb "..") p.2
  || holdsFile fs p.

(** [os.Create(p)] fails: the permissions refuse it, the directory the
    file is to lie in is not there, or a directory is in the file's place. *)
Definition createFails (s : Storage) (fs : FS) (p : Path) : bool :=
  bool_decide (p ∈ denied fs) || negb (isDir s fs (parentDir p)) || isDir s fs p.

(** [encoder.Encode(v)] on the file at [filePath], holding [f]: the value
    is appended unless the write fails. What a failed write leaves of the
    value is not a value and cannot be decoded; it is left out. *)
Definition Encode (fs : FS) (filePath : Path) (f : File) (v : gobValue) : option File :=
  match quota fs !! filePath with
  | Some n => if (length f <? n)%nat then Some (f ++ [v]) else None
  | None => Some (f ++ [v])
  end.

(** [saveTable]: [os.Create] truncates the file; each of the two [Encode]
    calls may then fail and leave the file with what was written before. *)
Definition saveTable (s : Storage) (fs : FS) (table : Table) : FS * option error :=
  let filePath := getTableFilePath s (TableName (TSchema table)) in
  if createFails s fs filePath
  then (fs, Some (IOError (pathString filePath))) else
  let created : File := [] in
  let holding (f : File) := mkFS (<[filePath := f]> (files fs)) (denied fs) (quota fs) in
  match Encode fs filePath created (GobSchema (TSchema table)) with
  | None => (holding created, Some (IOError (pathString filePath)))
  | Some f1 =>
      match Encode fs filePath f1 (GobRows (Rows table)) with
      | None => (holding f1, Some (IOError (pathString filePath)))
      | Some f2 => (holding f2, None)
      end
  end.

Definition loadTable (s : Storage) (fs : FS) (tableName : string) : result Table :=
  let filePath := getTableFilePath s tableName in
  match files fs !! filePath with
  | None => Err (IOError (pathString filePath))
  | Some f =>
      match f with
      | GobSchema schema :: f1 =>
          match f1 with
          | GobRows rows :: _ => Ok (mkTable schema rows)
          | _ => Err (IOError (pathString filePath))
          end
      | _ => Err (IOError (pathString filePath))
      end
  end.

(** [filepath.Ext(name) == ".tbl"]: the name ends in [.tbl]. *)
Definition hasTblExt (name : string) : bool :=
  let n := String.length name in
  (4 <=? n)%nat && String.eqb (String.substring (n - 4) 4 name) ".tbl".

(** The loop of [loadTables] over the directory listing. *)
Fixpoint loadFiles (s : Storage) (fs : FS) (names : list string)
    (tbls : gmap string Table) : gmap string Table * option error :=
  match names with
  | [] => (tbls, None)
  | name :: rest =>
      if negb (hasTblExt name) then loadFiles s fs rest tbls else
      let tableName := String.substring 0 (String.length name - 4) name in
      match loadTable s fs tableName with
      | Err e => (tbls, Some (Wrapped ("failed to load table " +:+ tableName) e))
      | Ok table => loadFiles s fs rest (<[tableName := table]> tbls)
      end
  end.

(** The names a directory entry can carry: no separator in them, and
    neither empty nor [.] nor [..]. *)
Fixpoint slashFree (s : string) : bool :=
  match s with
  | EmptyString => true
  | String c s' => negb (Ascii.eqb c "/"%char) && slashFree s'
  end.

Definition entryNameOk (name : string) : bool :=
  slashFree name && negb (String.eqb name EmptyString) && negb (String.eqb name ".")
  && negb (String.eqb name "..").

(** The entry of the directory [dir] through which the file at [p] is
    reached: the file itself, or the subdirectory it lies in. *)
Definition entryName (dir p : Path) : option string :=
  match relativeTo dir p with
  | Some (name :: _) => if entryNameOk name then Some name else None
  | _ => None
  end.

(** The order of file names: byte by byte, a prefix before what it is a
    prefix of. *)
Definition nameLe (a b : string) : Prop := String.leb a b = true.

#[global] Instance nameLe_dec : RelDecision nameLe :=
  fun a b => decide (String.leb a b = true).

(** [os.ReadDir(dir)]: the names of the files and of the subdirectories
    of the directory, each once, sorted by name. *)
Definition ReadDir (fs : FS) (dir : string) : list string :=
  merge_sort nameLe
    (remove_dups (omap (entryName (Clean dir)) (map_to_list (files fs)).*1)).

Definition loadTables (s : Storage) (fs : FS) : Storage * option error :=
  let '(tbls, err) := loadFiles s fs (ReadDir fs (dataDir s)) (tables s) in
  (mkStorage (dataDir s) tbls (indexMgr s), err).

(** [NewStorage]: [os.MkdirAll] fails on the empty path; on any other
    path it is taken to succeed, and the directory to be readable. Then an
    empty table map, a fresh index manager, and [loadTables]. *)
Definition NewStorage (dir : string) (fs : FS) : result Storage :=
  if String.eqb dir EmptyString
  then Err (Wrapped "failed to create data directory" (IOError dir)) else
  let s := mkStorage dir ∅ Manager.NewManager in
  match loadTables s fs with
  | (_, Some e) => Err (Wrapped "failed to load tables" e)
  | (s', None) => Ok s'
  end.

(** The loop of [CreateTable] that creates one index per PRIMARY KEY or
    UNIQUE column. *)
Fixpoint createIndexes (m : Manager.Manager) (tableName : string) (cols : list Column)
  : Manager.Manager * option error :=
  match cols with
  | [] => (m, None)
  | col :: cols' =>
      if PrimaryKey col || Unique col then
        match Manager.CreateIndex m tableName (Name col) with
        | (m', Some e) => (m', Some e)
        | (m', None) => createIndexes m' tableName cols'
        end
      else createIndexes m tableName cols'
  end.

Definition CreateTable (s : Storage) (fs : FS) (schema : Schema)
  : Storage * FS * option error :=
  match tables s !! TableName schema with
  | Some _ => (s, fs, Some (AlreadyExists (TableName schema)))
  | None =>
      let table := mkTable schema [] in
      let tables1 := <[TableName schema := table]> (tables s) in
      match createIndexes (indexMgr s) (TableName schema) (Columns schema) with
      | (m', Some e) =>
          (mkStorage (dataDir s) (delete (TableName schema) tables1) m', fs,
           Some (Wrapped "failed to create index" e))
      | (m', None) =>
          match saveTable s fs table with
          | (fs', Some e) =>
              (mkStorage (dataDir s) (delete (TableName schema) tables1) m', fs',
               Some (Wrapped "failed to save table" e))
          | (fs', None) => (mkStorage (dataDir s) tables1 m', fs', None)
          end
      end
  end.

(** [DropTable]. [os.Remove] fails on a file the permissions protect and
    on a directory that is not empty; that nothing is at the path is no
    error here. *)
Definition DropTable (s : Storage) (fs : FS) (tableName : string)
  : Storage * FS * option error :=
  match tables s !! tableName with
  | None => (s, fs, Some (NotFound tableName))
  | Some _ =>
      let s' := mkStorage (dataDir s) (delete tableName (tables s))
                          (Manager.DropTableIndexes (indexMgr s) tableName) in
      let filePath := getTableFilePath s tableName in
      let failed := Some (Wrapped "failed to remove table file"
                                  (IOError (pathString filePath))) in
      match files fs !! filePath with
      | None =>
          if liesIn filePath (Clean (dataDir s)) || holdsFile fs filePath
          then (s', fs, failed)
          else (s', fs, None)
      | Some _ =>
          if bool_decide (filePath ∈ denied fs)
          then (s', fs, failed)
          else (s', mkFS (delete filePath (files fs)) (denied fs) (quota fs), None)
      end
  end.

Definition GetTable (s : Storage) (tableName : string) : result Table :=
  match tables s !! tableName with
  | Some table => Ok table
  | None => Err (NotFound tableName)
  end.

Definition TableExists (s : Storage) (tableName : string) : bool :=
  bool_decide (is_Some (tables s !! tableName)).

(** [ListTables]: the names in the order the map iteration gives. *)
Definition ListTables (s : Storage) : list string := (map_to_list (tables s)).*1.

(** The loop of [SaveAllTables], over the tables in map order. *)
Fixpoint saveAll (s : Storage) (fs : FS) (ts : list (string * Table))
  : FS * option error :=
  match ts with
  | [] => (fs, None)
  | (_, table) :: rest =>
      match saveTable s fs table with
      | (fs', Some e) =>
          (fs', Some (Wrapped ("failed to save table " +:+ TableName (TSchema table)) e))
      | (fs', None) => saveAll s fs' rest
      end
  end.

Definition SaveAllTables (s : Storage) (fs : FS) : FS * option error :=
  saveAll s fs (map_to_list (tables s)).

(* ================================================================== *)
(** * Package parser: the statement tree handed to the executor *)
(* ================================================================== *)

Inductive Expression : Type :=
| Identifier (value : string)
| Literal (value : Value)
| NullLiteral
| BinaryExpr (left : Expression) (operator : string) (right : Expression).

(** [Set] is a Go map; [Where] may be nil. Join clauses are not modelled:
    a [SelectStmt] here has none. *)
Record UpdateStmt : Type := mkUpdateStmt {
  uTableName : string;
  uSet : list (string * Expression);
  uWhere : option Expression }.

Record DeleteStmt : Type := mkDeleteStmt {
  dTableName : string;
  dWhere : option Expression }.

Record SelectStmt : Type := mkSelectStmt {
  sColumns : list string;
  sTableName : string;
  sWhere : option Expression }.

(** The [Joins] of a [SelectStmt] are handed to the executor beside it;
    [On] may be nil. *)
Record JoinClause : Type := mkJoinClause {
  jJoinType : string;
  jTableName : string;
  jOn : option Expression }.



Record DropTableStmt : Type := mkDropTableStmt { dtTableName : string }.

Record InsertStmt : Type := mkInsertStmt {
  iTableName : string;
  iColumns : list string;
  iValues : list (list Expression) }.

(* ================================================================== *)
(** * Package executor *)
(* ================================================================== *)

Module Executor.

Inductive Message : Type :=
| NoMessage
| RowsUpdated (n : Z)
| RowsDeleted (n : Z).

Record Result : Type := mkResult {
  RColumns : list string;
  RRows : list (list Value);
  RMessage : Message;
  RowsAffected : Z }.

Definition lessThan (left right : Value) : result bool :=
  match left with
  | VInt l =>
      match right with
      | VInt r => Ok (l <? r)%Z
      | _ => Err (IncomparableTypes (kindOf left) (kindOf right))
      end
  | VFloat l =>
      match right with
      | VFloat r => Ok (PrimFloat.ltb l r)
      | _ => Err (IncomparableTypes (kindOf left) (kindOf right))
      end
  | VString l =>
      match right with
      | VString r => Ok (String.ltb l r)
      | _ => Err (IncomparableTypes (kindOf left) (kindOf right))
      end
  | _ => Err (IncomparableTypes (kindOf left) (kindOf right))
  end.

Definition greaterThan (left right : Value) : result bool :=
  match left with
  | VInt l =>
      match right with
      | VInt r => Ok (l >? r)%Z
      | _ => Err (IncomparableTypes (kindOf left) (kindOf right))
      end
  | VFloat l =>
      match right with
      | VFloat r => Ok (PrimFloat.ltb r l)
      | _ => Err (IncomparableTypes (kindOf left) (kindOf right))
      end
  | VString l =>
      match right with
      | VString r => Ok (String.ltb r l)
      | _ => Err (IncomparableTypes (kindOf left) (kindOf right))
      end
  | _ => Err (IncomparableTypes (kindOf left) (kindOf right))
  end.

Definition lessThanOrEqual (left right : Value) : result bool :=
  match lessThan left right with
  | Ok true => Ok true
  | _ => Ok (iface_eq left right)
  end.

Definition greaterThanOrEqual (left right : Value) : result bool :=
  match greaterThan left right with
  | Ok true => Ok true
  | _ => Ok (iface_eq left right)
  end.

Definition compareValues (left right : Value) (operator : string) : result bool :=
  if isNil left || isNil right then
    if String.eqb operator "=" then Ok (iface_eq left right) else Ok false
  else if String.eqb operator "=" then Ok (iface_eq left right)
  else if String.eqb operator "!=" then Ok (negb (iface_eq left right))
  else if String.eqb operator "<" then lessThan left right
  else if String.eqb operator ">" then greaterThan left right
  else if String.eqb operator "<=" then lessThanOrEqual left right
  else if String.eqb operator ">=" then greaterThanOrEqual left right
  else Err (UnsupportedOperator operator).

(** [evaluateExpression(expr, nil)], as INSERT and UPDATE call it. *)
Definition evaluateExpression (expr : Expression) : result Value :=
  match expr with
  | Literal v => Ok v
  | NullLiteral => Ok VNil
  | Identifier _ => Err UnsupportedExpression
  | BinaryExpr _ _ _ => Err UnsupportedExpression
  end.

Definition getColumnValue (expr : Expression) (row : Row) (schema : Schema)
  : option (result Value) :=
  match expr with
  | Identifier name =>
      let idx := GetColumnIndex schema name in
      if (idx =? -1)%Z then Some (Err (NotFound name))
      else v ← Values row !! Z.to_nat idx; Some (Ok v)
  | Literal v => Some (Ok v)
  | NullLiteral => Some (Ok VNil)
  | BinaryExpr _ _ _ => Some (Err UnsupportedExpression)
  end.

Definition evaluateCondition (expr : Expression) (row : Row) (schema : Schema)
  : option (result bool) :=
  match expr with
  | BinaryExpr l op r =>
      lv ← getColumnValue l row schema;
      match lv with
      | Err e => Some (Err e)
      | Ok lval =>
          rv ← getColumnValue r row schema;
          match rv with
          | Err e => Some (Err e)
          | Ok rval => Some (compareValues lval rval op)
          end
      end
  | _ => Some (Err UnsupportedExpression)
  end.

(** The closure built by [executeUpdate] and [executeDelete] from a
    non-nil WHERE: an error of [evaluateCondition] becomes [false]. *)
Definition whereClosure (w : Expression) (schema : Schema) : Row -> option bool :=
  fun row =>
    r ← evaluateCondition w row schema;
    match r with
    | Err _ => Some false
    | Ok m => Some m
    end.

Definition buildCondition (w : option Expression) (schema : Schema) : Condition :=
  match w with
  | None => None
  | Some e => Some (whereClosure e schema)
  end.

(** The loop [for colName, expr := range stmt.Set]. *)
Fixpoint evaluateUpdates (set : list (string * Expression))
  : result (list (string * Value)) :=
  match set with
  | [] => Ok []
  | (colName, expr) :: rest =>
      match evaluateExpression expr with
      | Err e => Err e
      | Ok value =>
          match evaluateUpdates rest with
          | Err e => Err e
          | Ok updates => Ok ((colName, value) :: updates)
          end
      end
  end.

(** The table is held by pointer: what [UpdateRows] did to it is in the
    storage whether or not the statement then fails. *)
Definition executeUpdate (s : Storage) (fs : FS) (stmt : UpdateStmt)
  : option (Storage * FS * result Result) :=
  match GetTable s (uTableName stmt) with
  | Err e => Some (s, fs, Err e)
  | Ok table =>
      let condition := buildCondition (uWhere stmt) (TSchema table) in
      match evaluateUpdates (uSet stmt) with
      | Err e => Some (s, fs, Err e)
      | Ok updates =>
          '(table', count, err) ← UpdateRows table condition updates;
          let s' :=
            mkStorage (dataDir s) (<[uTableName stmt := table']> (tables s)) (indexMgr s) in
          match err with
          | Some e => Some (s', fs, Err e)
          | None =>
              match SaveAllTables s' fs with
              | (fs', Some e) => Some (s', fs', Err (Wrapped "failed to persist data" e))
              | (fs', None) => Some (s', fs', Ok (mkResult [] [] (RowsUpdated count) count))
              end
          end
      end
  end.

Definition executeDelete (s : Storage) (fs : FS) (stmt : DeleteStmt)
  : option (Storage * FS * result Result) :=
  match GetTable s (dTableName stmt) with
  | Err e => Some (s, fs, Err e)
  | Ok table =>
      let condition := buildCondition (dWhere stmt) (TSchema table) in
      '(table', count) ← DeleteRows table condition;
      let s' :=
            mkStorage (dataDir s) (<[dTableName stmt := table']> (tables s)) (indexMgr s) in
      match SaveAllTables s' fs with
      | (fs', Some e) => Some (s', fs', Err (Wrapped "failed to persist data" e))
      | (fs', None) => Some (s', fs', Ok (mkResult [] [] (RowsDeleted count) count))
      end
  end.

(** The WHERE loop of [executeSelect]: the first error ends the statement. *)
Fixpoint filterRows (w : Expression) (schema : Schema) (rows : list Row)
  : option (result (list Row)) :=
  match rows with
  | [] => Some (Ok [])
  | row :: rest =>
      r ← evaluateCondition w row schema;
      match r with
      | Err e => Some (Err e)
      | Ok m =>
          rs ← filterRows w schema rest;
          match rs with
          | Err e => Some (Err e)
          | Ok kept => Some (Ok (if m : bool then row :: kept else kept))
          end
      end
  end.

Fixpoint resolveColumns (schema : Schema) (names : list string) : result (list nat) :=
  match names with
  | [] => Ok []
  | colName :: rest =>
      let idx := GetColumnIndex schema colName in
      if (idx =? -1)%Z then Err (NotFound colName) else
      match resolveColumns schema rest with
      | Err e => Err e
      | Ok idxs => Ok (Z.to_nat idx :: idxs)
      end
  end.

Definition projectRow (idxs : list nat) (row : Row) : option (list Value) :=
  mapM (fun idx => Values row !! idx) idxs.

(** [executeSelect] without joins. *)
Definition executeSelect (s : Storage) (stmt : SelectStmt) : option (result Result) :=
  match GetTable s (sTableName stmt) with
  | Err e => Some (Err e)
  | Ok table =>
      filtered ←
        match sWhere stmt with
        | None => Some (Ok (SelectRows table))
        | Some w => filterRows w (TSchema table) (SelectRows table)
        end;
      match filtered with
      | Err e => Some (Err e)
      | Ok rows =>
          let cols :=
            match sColumns stmt with
            | [star] =>
                if String.eqb star "*"
                then Ok (seq 0 (length (Columns (TSchema table))),
                         map Name (Columns (TSchema table)))
                else match resolveColumns (TSchema table) (sColumns stmt) with
                     | Err e => Err e
                     | Ok idxs => Ok (idxs, sColumns stmt)
                     end
            | _ =>
                match resolveColumns (TSchema table) (sColumns stmt) with
                | Err e => Err e
                | Ok idxs => Ok (idxs, sColumns stmt)
                end
            end in
          match cols with
          | Err e => Some (Err e)
          | Ok (idxs, names) =>
              resultRows ← mapM (projectRow idxs) rows;
              Some (Ok (mkResult names resultRows NoMessage
                                 (Z.of_nat (length resultRows))))
          end
      end
  end.

(** The results of CREATE TABLE, DROP TABLE and INSERT carry a message
    and a count, no columns and no rows; the count is 0 for the first two
    and the number of rows for the third. *)
Inductive Status : Type :=
| TableCreated (name : string)
| TableDropped (name : string)
| RowsInserted (n : Z).

(** [strings.ToUpper] on the UTF-8 bytes of a Go string. The letters a
    to z go to A to Z. Two runes outside ASCII have an upper case inside it:
    U+0131, the dotless i (bytes 196 177), goes to I, and U+017F, the long
    s (bytes 197 191), goes to S; a byte 196 or 197 always starts a rune,
    so the two bytes are that rune wherever they stand. Every other rune
    outside ASCII, and every byte that is not UTF-8, goes to a rune outside
    ASCII; its bytes are left in place here, which a comparison with an
    ASCII name, the only use made of the result, cannot tell. *)
Definition upperAscii (c : ascii) : ascii :=
  let n := nat_of_ascii c in
  if (97 <=? n)%nat && (n <=? 122)%nat then ascii_of_nat (n - 32) else c.

Fixpoint ToUpper (s : string) : string :=
  match s with
  | EmptyString => EmptyString
  | String c s' =>
      match s' with
      | String c' s'' =>
          if Ascii.eqb c "196"%char && Ascii.eqb c' "177"%char
          then String "I"%char (ToUpper s'')
          else if Ascii.eqb c "197"%char && Ascii.eqb c' "191"%char
          then String "S"%char (ToUpper s'')
          else String (upperAscii c) (ToUpper s')
      | EmptyString => String (upperAscii c) EmptyString
      end
  end.

(** The [switch strings.ToUpper(colDef.DataType)] of [executeCreateTable]. *)
Definition convertDataType (name : string) : result DataType :=
  let upper := ToUpper name in
  if String.eqb upper "INTEGER" then Ok TypeInteger
  else if String.eqb upper "VARCHAR" then Ok TypeVarchar
  else if String.eqb upper "BOOLEAN" then Ok TypeBoolean
  else if String.eqb upper "FLOAT" then Ok TypeFloat
  else Err (Wrapped "unsupported data type" (NotFound name)).



Definition executeDropTable (s : Storage) (fs : FS) (stmt : DropTableStmt)
  : Storage * FS * result Status :=
  match DropTable s fs (dtTableName stmt) with
  | (s', fs', Some e) => (s', fs', Err e)
  | (s', fs', None) => (s', fs', Ok (TableDropped (dtTableName stmt)))
  end.

(** The loop [for i, expr := range valueSet] of [executeInsert]: the value
    is evaluated first, then written at [columnIndices[i]]. *)
Fixpoint fillRow (columnIndices : list nat) (valueSet : list Expression)
    (vals : list Value) {struct valueSet} : option (result (list Value)) :=
  match valueSet with
  | [] => Some (Ok vals)
  | expr :: rest =>
      match evaluateExpression expr with
      | Err e => Some (Err e)
      | Ok value =>
          match columnIndices with
          | [] => None
          | idx :: indices' =>
              vs ← store vals idx value;
              fillRow indices' rest vs
          end
      end
  end.

(** The loop [for _, valueSet := range stmt.Values]: the table as it is
    when the loop ends, and [rowsInserted] or the error that ended it. *)
Fixpoint insertValueSets (table : Table) (ncolumns : nat) (columnIndices : list nat)
    (valueSets : list (list Expression)) (rowsInserted : Z)
  : option (Table * result Z) :=
  match valueSets with
  | [] => Some (table, Ok rowsInserted)
  | valueSet :: rest =>
      if negb (length valueSet =? ncolumns)%nat
      then Some (table, Err (ArityMismatch (length valueSet) ncolumns))
      else
        filled ← fillRow columnIndices valueSet
                   (replicate (length (Columns (TSchema table))) VNil);
        match filled with
        | Err e => Some (table, Err e)
        | Ok vals =>
            '(table', err) ← InsertRow table (NewRow vals);
            match err with
            | Some e => Some (table', Err e)
            | None =>
                insertValueSets table' ncolumns columnIndices rest (rowsInserted + 1)
            end
        end
  end.

(** [executeInsert]. The column loop is the one of [executeSelect]
    ([resolveColumns]), its message naming the table as well. The table is
    held by pointer: the rows inserted before an error stay in the storage,
    and nothing is saved. *)
Definition executeInsert (s : Storage) (fs : FS) (stmt : InsertStmt)
  : option (Storage * FS * result Status) :=
  match GetTable s (iTableName stmt) with
  | Err e => Some (s, fs, Err e)
  | Ok table =>
      let columns :=
        if (length (iColumns stmt) =? 0)%nat
        then map Name (Columns (TSchema table))
        else iColumns stmt in
      match resolveColumns (TSchema table) columns with
      | Err e => Some (s, fs, Err e)
      | Ok columnIndices =>
          '(table', r) ← insertValueSets table (length columns) columnIndices
                           (iValues stmt) 0;
          let s' :=
            mkStorage (dataDir s) (<[iTableName stmt := table']> (tables s)) (indexMgr s) in
          match r with
          | Err e => Some (s', fs, Err e)
          | Ok rowsInserted =>
              match SaveAllTables s' fs with
              | (fs', Some e) => Some (s', fs', Err (Wrapped "failed to persist data" e))
              | (fs', None) => Some (s', fs', Ok (RowsInserted rowsInserted))
              end
          end
      end
  end.

(** [strings.Split(s, ".")]. *)
Fixpoint splitDot (s : string) : list string :=
  match s with
  | EmptyString => [EmptyString]
  | String c s' =>
      if Ascii.eqb c "."%char then EmptyString :: splitDot s'
      else match splitDot s' with
           | [] => [String c EmptyString]
           | part :: parts => String c part :: parts
           end
  end.

Record CombinedRow : Type := mkCombinedRow {
  leftRow : Row;
  rightRow : Row;
  leftSchema : Schema;
  rightSchema : Schema;
  leftTableName : string;
  rightTableName : string }.

(** [getJoinColumnValue]: [table.column], or a bare name looked up in the
    left table first. *)
Definition getJoinColumnValue (expr : Expression) (row : CombinedRow)
  : option (result Value) :=
  match expr with
  | Identifier value =>
      match splitDot value with
      | [tableName; colName] =>
          if String.eqb tableName (leftTableName row) then
            let idx := GetColumnIndex (leftSchema row) colName in
            if (idx =? -1)%Z then Some (Err (NotFound value))
            else v ← Values (leftRow row) !! Z.to_nat idx; Some (Ok v)
          else if String.eqb tableName (rightTableName row) then
            let idx := GetColumnIndex (rightSchema row) colName in
            if (idx =? -1)%Z then Some (Err (NotFound value))
            else v ← Values (rightRow row) !! Z.to_nat idx; Some (Ok v)
          else Some (Err (Wrapped "unknown table" (NotFound tableName)))
      | _ =>
          let idx := GetColumnIndex (leftSchema row) value in
          if negb (idx =? -1)%Z then v ← Values (leftRow row) !! Z.to_nat idx; Some (Ok v)
          else
            let idx := GetColumnIndex (rightSchema row) value in
            if negb (idx =? -1)%Z
            then v ← Values (rightRow row) !! Z.to_nat idx; Some (Ok v)
            else Some (Err (NotFound value))
      end
  | Literal v => Some (Ok v)
  | NullLiteral => Some (Ok VNil)
  | BinaryExpr _ _ _ => Some (Err UnsupportedExpression)
  end.

Definition evaluateJoinCondition (expr : Expression) (row : CombinedRow)
  : option (result bool) :=
  match expr with
  | BinaryExpr l op r =>
      lv ← getJoinColumnValue l row;
      match lv with
      | Err e => Some (Err e)
      | Ok lval =>
          rv ← getJoinColumnValue r row;
          match rv with
          | Err e => Some (Err e)
          | Ok rval => Some (compareValues lval rval op)
          end
      end
  | _ => Some (Err UnsupportedExpression)
  end.

(** The body of the nested loop up to the append: does the pair pass
    the ON condition and then the WHERE clause. *)
Definition joinPair (onExpr whereExpr : option Expression) (row : CombinedRow)
  : option (result bool) :=
  onMatch ← match onExpr with
            | None => Some (Ok true)
            | Some e => evaluateJoinCondition e row
            end;
  match onMatch with
  | Err e => Some (Err e)
  | Ok false => Some (Ok false)
  | Ok true =>
      match whereExpr with
      | None => Some (Ok true)
      | Some w => evaluateJoinCondition w row
      end
  end.

(** The inner and the outer loop of the nested loop join. *)
Fixpoint joinRight (pair : Row -> option (result bool)) (leftRow : Row)
    (rightRows : list Row) : option (result (list (list Value))) :=
  match rightRows with
  | [] => Some (Ok [])
  | rightRow :: rest =>
      m ← pair rightRow;
      match m with
      | Err e => Some (Err e)
      | Ok keep =>
          rs ← joinRight pair leftRow rest;
          match rs with
          | Err e => Some (Err e)
          | Ok joined =>
              Some (Ok (if keep : bool
                        then (Values leftRow ++ Values rightRow) :: joined
                        else joined))
          end
      end
  end.

Fixpoint joinRows (pair : Row -> Row -> option (result bool))
    (leftRows rightRows : list Row) : option (result (list (list Value))) :=
  match leftRows with
  | [] => Some (Ok [])
  | leftRow :: rest =>
      rs ← joinRight (pair leftRow) leftRow rightRows;
      match rs with
      | Err e => Some (Err e)
      | Ok here =>
          rs' ← joinRows pair rest rightRows;
          match rs' with
          | Err e => Some (Err e)
          | Ok more => Some (Ok (here ++ more))
          end
      end
  end.

(** One column of the select list of a join: its position in a combined
    row. *)
Definition resolveJoinColumn (leftSchema rightSchema : Schema)
    (leftName rightName colSpec : string) : result nat :=
  match splitDot colSpec with
  | [tableName; colName] =>
      if String.eqb tableName leftName then
        let idx := GetColumnIndex leftSchema colName in
        if (idx =? -1)%Z then Err (NotFound colSpec) else Ok (Z.to_nat idx)
      else if String.eqb tableName rightName then
        let idx := GetColumnIndex rightSchema colName in
        if (idx =? -1)%Z then Err (NotFound colSpec)
        else Ok (length (Columns leftSchema) + Z.to_nat idx)%nat
      else Err (Wrapped "unknown table" (NotFound tableName))
  | _ =>
      let idx := GetColumnIndex leftSchema colSpec in
      if negb (idx =? -1)%Z then Ok (Z.to_nat idx)
      else
        let idx := GetColumnIndex rightSchema colSpec in
        if negb (idx =? -1)%Z then Ok (length (Columns leftSchema) + Z.to_nat idx)%nat
        else Err (NotFound colSpec)
  end.

Fixpoint resolveJoinColumns (leftSchema rightSchema : Schema)
    (leftName rightName : string) (colSpecs : list string) : result (list nat) :=
  match colSpecs with
  | [] => Ok []
  | colSpec :: rest =>
      match resolveJoinColumn leftSchema rightSchema leftName rightName colSpec with
      | Err e => Err e
      | Ok idx =>
          match resolveJoinColumns leftSchema rightSchema leftName rightName rest with
          | Err e => Err e
          | Ok idxs => Ok (idx :: idxs)
          end
      end
  end.

(** [executeSelectWithJoin]; [joins] are the [Joins] of the statement.
    The join type is not looked at. *)
Definition executeSelectWithJoin (s : Storage) (stmt : SelectStmt)
    (joins : list JoinClause) (leftTable : Table) (leftRows : list Row)
  : option (result Result) :=
  if (1 <? length joins)%nat
  then Some (Err (Wrapped "multiple joins not yet supported" UnsupportedExpression))
  else
    join ← joins !! 0%nat;
    match GetTable s (jTableName join) with
    | Err e => Some (Err e)
    | Ok rightTable =>
        let rightRows := SelectRows rightTable in
        let combined l r :=
          mkCombinedRow l r (TSchema leftTable) (TSchema rightTable)
                        (sTableName stmt) (jTableName join) in
        joined ← joinRows (fun l r => joinPair (jOn join) (sWhere stmt) (combined l r))
                          leftRows rightRows;
        match joined with
        | Err e => Some (Err e)
        | Ok joinedRows =>
            let nleft := length (Columns (TSchema leftTable)) in
            let all :=
              (seq 0 nleft ++ seq nleft (length (Columns (TSchema rightTable))),
               map (fun col => sTableName stmt +:+ "." +:+ Name col)
                   (Columns (TSchema leftTable))
               ++ map (fun col => jTableName join +:+ "." +:+ Name col)
                      (Columns (TSchema rightTable))) in
            let named :=
              match resolveJoinColumns (TSchema leftTable) (TSchema rightTable)
                      (sTableName stmt) (jTableName join) (sColumns stmt) with
              | Err e => Err e
              | Ok idxs => Ok (idxs, sColumns stmt)
              end in
            let cols :=
              match sColumns stmt with
              | [star] => if String.eqb star "*" then Ok all else named
              | _ => named
              end in
            match cols with
            | Err e => Some (Err e)
            | Ok (idxs, names) =>
                resultRows ← mapM (fun row => mapM (fun idx => row !! idx) idxs)
                                  joinedRows;
                Some (Ok (mkResult names resultRows NoMessage
                                   (Z.of_nat (length resultRows))))
            end
        end
    end.

(** [executeSelect] as a whole: with joins it hands over to
    [executeSelectWithJoin]. *)
Definition executeSelectJoins (s : Storage) (stmt : SelectStmt) (joins : list JoinClause)
  : option (result Result) :=
  match joins with
  | [] => executeSelect s stmt
  | _ =>
      match GetTable s (sTableName stmt) with
      | Err e => Some (Err e)
      | Ok table => executeSelectWithJoin s stmt joins table (SelectRows table)
      end
  end.

End Executor.

(* ================================================================== *)
(** * Invariants, specifications and example states *)
(* ================================================================== *)

Import BTree.
Import Executor.

(* ------------------------------------------------------------------ *)
(** ** Example schemas, tables, directories and statements *)

Definition intColumn (name : string) : Column :=
  mkColumn name TypeInteger 0 false false false.

Definition pkColumn (name : string) : Column :=
  mkColumn name TypeInteger 0 true false false.

Definition uniqueColumn (name : string) : Column :=
  mkColumn name TypeInteger 0 false true false.

(** Table [t(a INTEGER, b INTEGER)] holding the single row [(1, 2)]. *)
Definition twoIntTable : Table :=
  mkTable (AddColumn (AddColumn (NewSchema "t") (intColumn "a")) (intColumn "b"))
          [mkRow [VInt 1; VInt 2]].

(** Table [t(id INTEGER)] holding the single row [(1)], and a storage in
    which it is registered. *)
Definition idTable : Table :=
  mkTable (AddColumn (NewSchema "t") (intColumn "id")) [mkRow [VInt 1]].

Definition idStorage : Storage :=
  mkStorage "./data" {[ "t"%string := idTable ]} Manager.NewManager.

(** Table [t(id INTEGER PRIMARY KEY)], the key nullable as the parser
    leaves it, holding the single row [(NULL)]. *)
Definition nullKeyTable : Table :=
  mkTable (AddColumn (NewSchema "t") (pkColumn "id")) [mkRow [VNil]].

(** Table [t(id INTEGER PRIMARY KEY)] holding the single row [(1)]. *)
Definition pkTable : Table :=
  mkTable (AddColumn (NewSchema "t") (pkColumn "id")) [mkRow [VInt 1]].

(** The storages of the examples live in the data directory of the two
    programs of the repository, [./data]. *)
Definition emptyStorage : Storage := mkStorage "./data" ∅ Manager.NewManager.

Definition pkStorage : Storage :=
  mkStorage "./data" {[ "t"%string := pkTable ]} Manager.NewManager.

(** The path of the file of table [t] in that directory. *)
Definition tPath : Path := (false, ["data"; "t.tbl"]%string).

(** A file system without files, in which nothing is refused; one in
    which [data/t.tbl] cannot be created; one in which writing to it fails
    after the schema; the one holding the file of [pkTable]. *)
Definition emptyFS : FS := mkFS ∅ ∅ ∅.

Definition deniedFS : FS := mkFS ∅ {[ tPath ]} ∅.

Definition shortFS : FS := mkFS ∅ ∅ {[ tPath := 1%nat ]}.

Definition pkTableFS : FS :=
  mkFS {[ tPath := [GobSchema (TSchema pkTable); GobRows (Rows pkTable)] ]} ∅ ∅.

(** [WHERE nosuch = 1] and [WHERE id < 'a']. *)
Definition whereUnknownColumn : Expression :=
  BinaryExpr (Identifier "nosuch") "=" (Literal (VInt 1)).

Definition whereCrossType : Expression :=
  BinaryExpr (Identifier "id") "<" (Literal (VString "a")).

(** [UPDATE t SET id = 2 WHERE w] and [DELETE FROM t WHERE w]. *)
Definition updateWhere (w : Expression) : UpdateStmt :=
  mkUpdateStmt "t" [("id"%string, Literal (VInt 2))] (Some w).

Definition deleteWhere (w : Expression) : DeleteStmt := mkDeleteStmt "t" (Some w).

(** Insert the keys 1 to 8, then delete the key 1. *)
Definition underflowOps : list Op :=
  map (fun z => OpInsert (VInt z) z) [1; 2; 3; 4; 5; 6; 7; 8] ++ [OpDelete (VInt 1)].

(** The entries handed to [InsertAll] for a list of (key, position) pairs
    with integer keys, and the index entries they become. *)
Definition intEntries (kvs : list (Z * Z)) : list (Value * Z) :=
  map (fun kv => (VInt kv.1, kv.2)) kvs.

Definition entriesOf (kvs : list (Z * Z)) : list IndexEntry :=
  map (fun kv => mkEntry (VInt kv.1) kv.2) kvs.

(* ------------------------------------------------------------------ *)
(** ** Invariants of the data model *)

(** A schema as [NewSchema] and [AddColumn] build it from columns with
    pairwise distinct names. *)
Definition schema_wf (s : Schema) : Prop :=
  NoDup (map Name (Columns s)) /\
  PrimaryKeys s = map Name (List.filter PrimaryKey (Columns s)) /\
  UniqueKeys s = map Name (List.filter Unique (Columns s)).

(** Every stored row has the schema's arity. *)
Definition table_wf (t : Table) : Prop :=
  schema_wf (TSchema t) /\
  Forall (fun r => length (Values r) = length (Columns (TSchema t))) (Rows t).

(** A candidate row of the right arity whose every cell passes
    [ValidateValue] for its column. *)
Definition row_valid (s : Schema) (row : Row) : Prop :=
  length (Values row) = length (Columns s) /\
  forall i col v, Columns s !! i = Some col -> Values row !! i = Some v ->
                  ValidateValue v col = None.

(** Some stored row holds, at column [i], a cell [==] to the candidate's. *)
Definition cell_taken (rows : list Row) (i : nat) (v : Value) : Prop :=
  exists r x, r ∈ rows /\ Values r !! i = Some x /\ iface_eq x v = true.

(** The collisions [InsertRow] rejects: an equal cell in a PRIMARY KEY
    column, or an equal non-nil cell in a UNIQUE column. *)
Definition key_collision (t : Table) (row : Row) : Prop :=
  exists i col v,
    Columns (TSchema t) !! i = Some col /\ Values row !! i = Some v /\
    (PrimaryKey col = true \/ (Unique col = true /\ v <> VNil)) /\
    cell_taken (Rows t) i v.

(** The collisions the specification names: an equal non-nil cell in a
    PRIMARY KEY or UNIQUE column. *)
Definition nonnil_collision (t : Table) (row : Row) : Prop :=
  exists i col v,
    Columns (TSchema t) !! i = Some col /\ Values row !! i = Some v /\
    (PrimaryKey col = true \/ Unique col = true) /\ v <> VNil /\
    cell_taken (Rows t) i v.

(** A directory whose entries named [.tbl] are all files written by
    [saveTable]. *)
Definition written_by_saveTable (dir : string) (fs : FS) : Prop :=
  forall name,
    name ∈ ReadDir fs dir -> hasTblExt name = true ->
    exists table,
      files fs !! Join dir name = Some [GobSchema (TSchema table); GobRows (Rows table)].

(* ------------------------------------------------------------------ *)
(** ** Invariants of the B-tree *)

(** [shape lo slo h node]: [node] is the root of a subtree all of whose
    leaves are [h] levels below it; it holds between [slo] and
    [2*btreeOrder-1] keys, every node below it between [lo] and
    [2*btreeOrder-1]; the slices of every node are in step. *)
#[warnings="-register-all"]
Inductive shape (lo : nat) : nat -> nat -> BTreeNode -> Prop :=
| shape_leaf slo ks vs :
    length vs = length ks ->
    (slo <= length ks <= 2 * btreeOrder - 1)%nat ->
    shape lo slo 0 (mkNode ks vs [] true)
| shape_node slo h ks vs cs :
    length vs = length ks ->
    length cs = S (length ks) ->
    (slo <= length ks <= 2 * btreeOrder - 1)%nat ->
    Forall (shape lo lo h) cs ->
    shape lo slo (S h) (mkNode ks vs cs false).

(** [innerFilled h node]: below a node whose leaves are [h] levels down,
    every internal node holds at least [btreeOrder-1] keys; the node itself
    and the leaves are not constrained. *)
Fixpoint innerFilled (h : nat) (node : BTreeNode) : Prop :=
  match h with
  | 0%nat => True
  | S h' =>
      Forall (fun c => (h' <> 0%nat -> (btreeOrder - 1 <= length (keys c))%nat)
                       /\ innerFilled h' c)
             (children node)
  end.

(** Lists [f0 s0 f1 s1 ... fn]: the blocks [fs] with the separators
    [seps] in between. *)
Fixpoint glue {A} (fs : list (list A)) (seps : list A) : list A :=
  match fs with
  | [] => []
  | f :: fs' =>
      f ++ match seps with
           | [] => []
           | s :: seps' => s :: glue fs' seps'
           end
  end.

(** What [traverse] lists, as a total function. *)
Fixpoint flat (node : BTreeNode) : list IndexEntry :=
  let 'mkNode ks vs cs leaf := node in
  if leaf then zip_with mkEntry ks vs
  else glue (map flat cs) (zip_with mkEntry ks vs).

(** Entries with integer keys in strictly ascending order. *)
Definition entry_lt (a b : IndexEntry) : Prop :=
  match Key a, Key b with
  | VInt x, VInt y => x < y
  | _, _ => False
  end.

Definition intKey (e : IndexEntry) : Prop := exists z, Key e = VInt z.

Definition ascending (es : list IndexEntry) : Prop :=
  Forall intKey es /\ StronglySorted entry_lt es.

(** An entry whose integer key is below, resp. above, [z]. *)
Definition below (z : Z) (e : IndexEntry) : Prop := exists y, Key e = VInt y /\ y < z.

Definition above (z : Z) (e : IndexEntry) : Prop := exists y, Key e = VInt y /\ z < y.

(** The invariant of a tree of integer keys: all leaves at one depth, the
    slices of every node in step, at most [2*btreeOrder-1] keys per node,
    and the entries in strictly ascending key order. *)
Definition ordered (bt : BTree) : Prop :=
  exists h, shape 0 0 h (root bt) /\ ascending (flat (root bt)).

(** An operation on an integer key. *)
Definition intKeyOp (op : Op) : Prop :=
  match op with
  | OpInsert key _ => exists z, key = VInt z
  | OpDelete key => exists z, key = VInt z
  end.

(* ------------------------------------------------------------------ *)
(** ** Invariants of stored tables, and descriptions of results *)

(** The cells a column admits, read off [ValidateValue] value by value. *)
Definition admits (col : Column) (v : Value) : Prop :=
  match v with
  | VNil => NotNull col = false
  | VInt _ => ColType col = TypeInteger
  | VString str =>
      ColType col = TypeVarchar /\
      (Size col <= 0 \/ Z.of_nat (String.length str) <= Size col)
  | VBool _ => ColType col = TypeBoolean
  | VFloat _ => ColType col = TypeFloat
  end.

(** An earlier and a later row do not clash: in no PRIMARY KEY column do
    they hold [==] cells, and in no UNIQUE column [==] cells the later of
    which is not nil. *)
Definition no_clash (s : Schema) (earlier later : Row) : Prop :=
  forall i col x y,
    Columns s !! i = Some col ->
    Values earlier !! i = Some x -> Values later !! i = Some y ->
    PrimaryKey col = true \/ (Unique col = true /\ y <> VNil) ->
    iface_eq x y = false.

Definition keys_distinct (t : Table) : Prop :=
  StronglySorted (no_clash (TSchema t)) (Rows t).

(** The invariant of a stored table: a well-formed schema, rows of the
    schema's arity whose cells their columns admit, and no clash of keys. *)
Definition table_inv (t : Table) : Prop :=
  table_wf t /\ Forall (row_valid (TSchema t)) (Rows t) /\ keys_distinct t.

(** The values of a row after the writes of a list of column updates, in
    the order of the list. *)
Definition setCells (s : Schema) (updates : list (string * Value)) (vals : list Value)
  : list Value :=
  fold_left (fun vs u => <[Z.to_nat (GetColumnIndex s u.1) := u.2]> vs) updates vals.

(** Updates that name columns of the schema and carry values these
    columns admit. *)
Definition updates_ok (s : Schema) (updates : list (string * Value)) : Prop :=
  Forall (fun u => exists i col, GetColumnIndex s u.1 = Z.of_nat i /\
                     Columns s !! i = Some col /\ ValidateValue u.2 col = None) updates.

(** The columns [CreateTable] creates an index for. *)
Definition isKey (col : Column) : bool := PrimaryKey col || Unique col.

Definition keyNames (cols : list Column) : list string := map Name (List.filter isKey cols).

(** A file [loadTable] can decode: a schema, then rows; what follows is
    not read. *)
Definition decodable (f : File) : Prop :=
  exists schema rows rest, f = GobSchema schema :: GobRows rows :: rest.

(** Every table is registered under the name its schema carries, as
    [CreateTable] registers it. *)
Definition names_match (s : Storage) : Prop :=
  forall n t, tables s !! n = Some t -> TableName (TSchema t) = n.

(** The cell of a row under a column name. *)
Definition cellOf (s : Schema) (r : Row) (c : string) : Value :=
  default VNil (Values r !! Z.to_nat (GetColumnIndex s c)).

(** Whether UPDATE and DELETE take a row for a match of the WHERE clause:
    a predicate that fails counts as false. *)
Definition accepted (w : option Expression) (s : Schema) (r : Row) : bool :=
  match w with
  | None => true
  | Some e =>
      match evaluateCondition e r s with
      | Some (Ok true) => true
      | _ => false
      end
  end.

(** The columns an INSERT fills: those of its column list, or all columns
    of the schema when it has none; and the row it builds from a tuple of
    values: nil everywhere, then each value written at its column. *)
Definition insertColumns (s : Schema) (cs : list string) : list string :=
  if (length cs =? 0)%nat then map Name (Columns s) else cs.

Definition insertedRow (s : Schema) (cs : list string) (vs : list Value) : Row :=
  mkRow (setCells s (zip (insertColumns s cs) vs) (replicate (length (Columns s)) VNil)).

(** A name without a dot, and the rows of an inner join of two tables on
    the equality of one column of each: the pairs of a left and a right row
    whose cells are [==], the left row first, in the order of the nested
    loop. *)
Fixpoint dotFree (s : string) : bool :=
  match s with
  | EmptyString => true
  | String c s' => negb (Ascii.eqb c "."%char) && dotFree s'
  end.

Definition equiJoin (lt rt : Table) (lcol rcol : string) : list (list Value) :=
  flat_map (fun l =>
    flat_map (fun r =>
      if iface_eq (cellOf (TSchema lt) l lcol) (cellOf (TSchema rt) r rcol)
      then [Values l ++ Values r] else [])
      (Rows rt))
    (Rows lt).

(** The select list that stands for all columns. *)
Definition isStar (cols : list string) : bool :=
  match cols with
  | [c] => String.eqb c "*"
  | _ => false
  end.


(** No table name holds a path separator: the file of every table lies
    in the data directory, under the table's name. *)
Definition plain_names (s : Storage) : Prop :=
  forall n, is_Some (tables s !! n) -> slashFree n = true.


(** A path at which the storage can create a file and write the two
    values of a table to it. *)
Definition writable (s : Storage) (fs : FS) (p : Path) : Prop :=
  createFails s fs p = false /\ forall n, quota fs !! p = Some n -> (2 <= n)%nat.

(** Starting on the storage's directory gives back the tables of the
    storage. *)
Definition reloads (s : Storage) (fs : FS) : Prop :=
  exists s', NewStorage (dataDir s) fs = Ok s' /\
    forall n t, tables s !! n = Some t -> tables s' !! n = Some t.

(** Every entry of the directory whose name ends in [.tbl] is a file
    that can be decoded. *)
Definition all_decodable (dir : string) (fs : FS) : Prop :=
  forall name,
    name ∈ ReadDir fs dir -> hasTblExt name = true ->
    exists f, files fs !! Join dir name = Some f /\ decodable f.

(* ------------------------------------------------------------------ *)
(** ** Statements of the specification that the code does not meet *)

(** C2 as the specification states it: only non-nil cells collide. *)
Definition InsertRow_nil_never_collides : Prop :=
  forall t row, table_wf t -> row_valid (TSchema t) row ->
    ((exists c v, InsertRow t row = Some (t, Some (DuplicateKey c v)))
     <-> nonnil_collision t row).

(** C3 as the specification states it: every comparison of two non-nil
    values of different dynamic types reports [IncomparableTypes], and the
    B-tree ordering does not call them equal. *)
Definition cross_type_comparison_fails : Prop :=
  forall a b : Value,
    kindOf a <> KNil -> kindOf b <> KNil -> kindOf a <> kindOf b ->
    BTree.compare a b <> 0 /\
    forall op, In op ["="; "!="; "<"; ">"; "<="; ">="]%string ->
      exists k1 k2, compareValues a b op = Err (IncomparableTypes k1 k2).

(** C5 as the specification states it: after any sequence of inserts and
    deletes, all leaves are at one depth and every non-root node holds
    between [btreeOrder-1] and [2*btreeOrder-1] keys. *)
Definition balanced_after_inserts_and_deletes : Prop :=
  forall ops bt, run ops NewBTree = Some bt ->
    (exists d, Forall (fun x => x = d) (leafDepths 0 (root bt))) /\
    Forall (fun n => (btreeOrder - 1 <= length (keys n) <= 2 * btreeOrder - 1)%nat)
           (nonRootNodes bt).

(** C6 as the specification states it: after startup, a search in the
    index of a PRIMARY KEY or UNIQUE column finds the key of every loaded
    row. *)
Definition startup_rebuilds_indexes : Prop :=
  forall dir fs s, NewStorage dir fs = Ok s ->
  forall tn t i col row key,
    tables s !! tn = Some t ->
    Columns (TSchema t) !! i = Some col ->
    PrimaryKey col = true \/ Unique col = true ->
    row ∈ Rows t -> Values row !! i = Some key ->
    exists pos, Manager.Search (indexMgr s) tn (Name col) key = Some (pos, true).

(* ================================================================== *)
(** * Row accessors *)
(* ================================================================== *)

Section RowAccessors.

Lemma store_is_Some {A} (l : list A) (i : nat) (x : A) :
  (i < length l)%nat -> store l i x = Some (<[i:=x]> l).
Proof. intros H. unfold store. destruct (decide _); [done | lia]. Qed.

(** C10. [Row.Get] and [Row.Set] never panic, whatever the index; out of
    range, [Get] returns nil and [Set] leaves the row as it was; in range,
    they read and write the cell. *)
Theorem Row_Get_Set_total (r : Row) (index : Z) (value : Value) :
  is_Some (Row_Get r index) /\ is_Some (Row_Set r index value) /\
  (~ (0 <= index < Z.of_nat (length (Values r))) ->
     Row_Get r index = Some VNil /\ Row_Set r index value = Some r) /\
  (0 <= index < Z.of_nat (length (Values r)) ->
     Row_Get r index = Values r !! Z.to_nat index /\
     Row_Set r index value = Some (mkRow (<[Z.to_nat index := value]> (Values r)))).
Proof.
  unfold Row_Get, Row_Set.
  destruct (Z.ltb_spec index 0) as [Hneg | Hnn]; simpl.
  - replace (index >=? 0) with false by lia. simpl.
    repeat split; eauto; intros; lia.
  - replace (index >=? 0) with true by lia. simpl.
    destruct (Z.ltb_spec index (Z.of_nat (length (Values r)))) as [Hlt | Hge].
    + replace (index >=? Z.of_nat (length (Values r))) with false by lia.
      assert (Hi : (Z.to_nat index < length (Values r))%nat) by lia.
      rewrite (store_is_Some _ _ _ Hi). simpl.
      repeat split; eauto; try (intros; lia).
      apply lookup_lt_is_Some_2. exact Hi.
    + replace (index >=? Z.of_nat (length (Values r))) with true by lia.
      repeat split; eauto; intros; lia.
Qed.

Lemma Row_Get_Set_total_witness :
  Row_Get (mkRow [VInt 1; VInt 2]) 7 = Some VNil /\
  Row_Set (mkRow [VInt 1; VInt 2]) (-1) (VInt 9) = Some (mkRow [VInt 1; VInt 2]) /\
  Row_Set (mkRow [VInt 1; VInt 2]) 1 (VInt 9) = Some (mkRow [VInt 1; VInt 9]).
Proof.
  split; [| split].
  - apply (Row_Get_Set_total (mkRow [VInt 1; VInt 2]) 7 VNil). simpl. lia.
  - apply (Row_Get_Set_total (mkRow [VInt 1; VInt 2]) (-1) (VInt 9)). simpl. lia.
  - apply (Row_Get_Set_total (mkRow [VInt 1; VInt 2]) 1 (VInt 9)). simpl. lia.
Defined.

End RowAccessors.

(* ================================================================== *)
(** * Comparisons *)
(* ================================================================== *)

Section Comparisons.

(** C8. With a nil operand, [compareValues] never fails: [=] is true
    exactly when both operands are nil, every other operator is false. *)
Theorem compareValues_nil (l r : Value) (op : string) :
  l = VNil \/ r = VNil ->
  compareValues l r op = Ok (String.eqb op "=" && isNil l && isNil r).
Proof.
  intros H. unfold compareValues.
  assert (Hn : isNil l || isNil r = true) by (destruct H; subst; simpl; auto using orb_true_r).
  rewrite Hn. destruct (String.eqb op "="); simpl; [| reflexivity].
  destruct H; subst; simpl; [destruct r | destruct l]; reflexivity.
Qed.

Lemma compareValues_nil_witness :
  compareValues VNil VNil "=" = Ok true /\
  compareValues VNil (VInt 3) "=" = Ok false /\
  compareValues (VString "a") VNil "<=" = Ok false /\
  compareValues VNil VNil "!=" = Ok false.
Proof.
  split; [| split; [| split]].
  - apply (compareValues_nil VNil VNil "="). left. reflexivity.
  - apply (compareValues_nil VNil (VInt 3) "="). left. reflexivity.
  - apply (compareValues_nil (VString "a") VNil "<="). right. reflexivity.
  - apply (compareValues_nil VNil VNil "!="). left. reflexivity.
Defined.

(** Values of different dynamic types are never [==]. *)
Lemma iface_eq_kind (a b : Value) : kindOf a <> kindOf b -> iface_eq a b = false.
Proof. destruct a, b; simpl; intros H; try reflexivity; congruence. Qed.

(** C3, counterexample: an integer against a text. The B-tree ordering
    returns 0, and [=] answers false without an error. *)
Lemma cross_type_comparison_counterexample : ~ cross_type_comparison_fails.
Proof.
  intros H.
  destruct (H (VInt 1) (VString "a")) as [Hc _]; simpl; try discriminate.
  apply Hc. reflexivity.
Qed.

(** C3, amended. For two non-nil values of different dynamic types the
    B-tree's [compare] has no error result and returns 0; in predicates,
    [<] and [>] fail with [IncomparableTypes], while [=] is false and [!=]
    is true, both without an error. *)
Theorem cross_type_comparison (a b : Value) :
  kindOf a <> KNil -> kindOf b <> KNil -> kindOf a <> kindOf b ->
  BTree.compare a b = 0 /\
  compareValues a b "<" = Err (IncomparableTypes (kindOf a) (kindOf b)) /\
  compareValues a b ">" = Err (IncomparableTypes (kindOf a) (kindOf b)) /\
  compareValues a b "=" = Ok false /\
  compareValues a b "!=" = Ok true.
Proof.
  intros Ha Hb Hab.
  assert (He := iface_eq_kind a b Hab).
  unfold compareValues. simpl.
  destruct a, b; simpl in *; try congruence; repeat split; reflexivity.
Qed.

Lemma cross_type_comparison_witness :
  BTree.compare (VInt 1) (VString "a") = 0 /\
  compareValues (VInt 1) (VString "a") "<" = Err (IncomparableTypes KInt KString) /\
  compareValues (VInt 1) (VString "a") ">" = Err (IncomparableTypes KInt KString) /\
  compareValues (VInt 1) (VString "a") "=" = Ok false /\
  compareValues (VInt 1) (VString "a") "!=" = Ok true.
Proof.
  apply (cross_type_comparison (VInt 1) (VString "a")); simpl; discriminate.
Defined.

(** [<=] and [>=] drop the error of [lessThan] and [greaterThan] and fall
    back on [==]: across types they answer false. *)
Lemma compareValues_le_ge_cross_type (a b : Value) :
  kindOf a <> KNil -> kindOf b <> KNil -> kindOf a <> kindOf b ->
  compareValues a b "<=" = Ok false /\ compareValues a b ">=" = Ok false.
Proof.
  intros Ha Hb Hab.
  unfold compareValues, lessThanOrEqual, greaterThanOrEqual. simpl.
  destruct a, b; simpl in *; try congruence; split; reflexivity.
Qed.

End Comparisons.

(* ================================================================== *)
(** * UpdateRows *)
(* ================================================================== *)

Section UpdateRowsFacts.

(** C1, the failing input. [UPDATE t SET a = 5, b = 'x'] when the map
    iteration visits [a] before [b]: the call fails on [b] with a type
    mismatch, after [a] of the first matching row has been overwritten. *)
Theorem UpdateRows_partial_update :
  UpdateRows twoIntTable None [("a", VInt 5); ("b", VString "x")]%string
  = Some (mkTable (TSchema twoIntTable) [mkRow [VInt 5; VInt 2]], 0,
          Some (TypeMismatch "b")).
Proof. reflexivity. Qed.

(** The other iteration order fails before anything is written. *)
Lemma UpdateRows_other_order :
  UpdateRows twoIntTable None [("b", VString "x"); ("a", VInt 5)]%string
  = Some (twoIntTable, 0, Some (TypeMismatch "b")).
Proof. reflexivity. Qed.

(** A call never changes the number of rows. *)
Lemma updateLoop_length s cond updates rows count rows' n err :
  updateLoop s cond updates rows count = Some (rows', n, err) ->
  length rows' = length rows.
Proof.
  revert count rows' n err. induction rows as [| row rest IH]; simpl; intros count rows' n err H.
  - by inversion H.
  - destruct (matches cond row) as [[|] |]; simpl in H; try discriminate.
    + destruct (applyUpdates s updates row) as [[row' [e |]] |]; simpl in H; try discriminate.
      * by inversion H.
      * destruct (updateLoop s cond updates rest (count + 1)) as [[[rest' n'] err'] |] eqn:E;
          simpl in H; try discriminate.
        inversion H; subst. simpl. f_equal. eauto.
    + destruct (updateLoop s cond updates rest count) as [[[rest' n'] err'] |] eqn:E;
        simpl in H; try discriminate.
      inversion H; subst. simpl. f_equal. eauto.
Qed.

(** With a single column in the SET list the call is all-or-nothing: the
    value is checked before the only write to a row, and the check does
    not depend on the row. *)
Lemma applyUpdates_single s colName value row row' e :
  applyUpdates s [(colName, value)] row = Some (row', Some e) -> row' = row.
Proof.
  simpl. destruct (GetColumnIndex s colName =? -1); [by inversion 1 |].
  destruct (Columns s !! _) as [col |]; simpl; [| discriminate].
  destruct (ValidateValue value col); [by inversion 1 |].
  destruct (store _ _ _); simpl; discriminate.
Qed.

Lemma applyUpdates_single_ok s colName value row row' row2 :
  applyUpdates s [(colName, value)] row = Some (row', None) ->
  forall r e, applyUpdates s [(colName, value)] row2 <> Some (r, Some e).
Proof.
  simpl. destruct (GetColumnIndex s colName =? -1); [discriminate |].
  destruct (Columns s !! _) as [col |]; simpl; [| discriminate].
  destruct (ValidateValue value col); [discriminate |].
  intros _ r e. destruct (store (Values row2) _ _); simpl; discriminate.
Qed.

Lemma updateLoop_no_error s cond updates rows count rows' n e :
  (forall row row' row2 r e', applyUpdates s updates row = Some (row', None) ->
     applyUpdates s updates row2 <> Some (r, Some e')) ->
  forall row0 row0', applyUpdates s updates row0 = Some (row0', None) ->
  updateLoop s cond updates rows count <> Some (rows', n, Some e).
Proof.
  intros Hind row0 row0' H0. revert count rows' n.
  induction rows as [| row rest IH]; simpl; intros count rows' n H; [discriminate |].
  destruct (matches cond row) as [[|] |]; simpl in H; try discriminate.
  - destruct (applyUpdates s updates row) as [[row' [e' |]] |] eqn:E; simpl in H.
    + eapply Hind; eauto.
    + destruct (updateLoop s cond updates rest (count + 1))
        as [[[rest' n'] err'] |] eqn:E'; simpl in H; try discriminate.
      inversion H; subst. eapply IH; eauto.
    + discriminate.
  - destruct (updateLoop s cond updates rest count)
      as [[[rest' n'] err'] |] eqn:E'; simpl in H; try discriminate.
    inversion H; subst. eapply IH; eauto.
Qed.

Lemma updateLoop_atomic s cond updates rows count rows' n e :
  (forall row row' e', applyUpdates s updates row = Some (row', Some e') -> row' = row) ->
  (forall row row' row2 r e', applyUpdates s updates row = Some (row', None) ->
     applyUpdates s updates row2 <> Some (r, Some e')) ->
  updateLoop s cond updates rows count = Some (rows', n, Some e) ->
  rows' = rows.
Proof.
  intros Hsame Hind. revert count rows' n.
  induction rows as [| row rest IH]; simpl; intros count rows' n H; [by inversion H |].
  destruct (matches cond row) as [[|] |]; simpl in H; try discriminate.
  - destruct (applyUpdates s updates row) as [[row' [e' |]] |] eqn:E; simpl in H.
    + apply Hsame in E. subst. by inversion H.
    + exfalso.
      destruct (updateLoop s cond updates rest (count + 1))
        as [[[rest' n'] err'] |] eqn:E'; simpl in H; try discriminate.
      inversion H; subst.
      eapply updateLoop_no_error; eauto.
    + discriminate.
  - destruct (updateLoop s cond updates rest count)
      as [[[rest' n'] err'] |] eqn:E'; simpl in H; try discriminate.
    inversion H; subst. f_equal. eauto.
Qed.

Lemma UpdateRows_single_atomic t cond colName value t' n e :
  UpdateRows t cond [(colName, value)] = Some (t', n, Some e) -> t' = t.
Proof.
  unfold UpdateRows. intros H.
  destruct (updateLoop _ _ _ _ _) as [[[rows' n'] err'] |] eqn:E; simpl in H; try discriminate.
  inversion H; subst.
  apply updateLoop_atomic in E.
  - subst. by destruct t.
  - intros. eapply applyUpdates_single; eauto.
  - intros. eapply applyUpdates_single_ok; eauto.
Qed.

End UpdateRowsFacts.

(* ================================================================== *)
(** * Errors of the WHERE predicate in UPDATE and DELETE *)
(* ================================================================== *)

Section WhereErrors.

(** C7, the failing input. The WHERE predicate fails on the only row of
    the table, with an unknown column and with [IncomparableTypes]; UPDATE
    and DELETE nevertheless complete, reporting 0 rows affected. *)
Theorem where_error_swallowed :
  evaluateCondition whereUnknownColumn (mkRow [VInt 1]) (TSchema idTable)
    = Some (Err (NotFound "nosuch")) /\
  evaluateCondition whereCrossType (mkRow [VInt 1]) (TSchema idTable)
    = Some (Err (IncomparableTypes KInt KString)) /\
  snd <$> executeUpdate idStorage emptyFS (updateWhere whereUnknownColumn)
    = Some (Ok (mkResult [] [] (RowsUpdated 0) 0)) /\
  snd <$> executeUpdate idStorage emptyFS (updateWhere whereCrossType)
    = Some (Ok (mkResult [] [] (RowsUpdated 0) 0)) /\
  snd <$> executeDelete idStorage emptyFS (deleteWhere whereUnknownColumn)
    = Some (Ok (mkResult [] [] (RowsDeleted 0) 0)) /\
  snd <$> executeDelete idStorage emptyFS (deleteWhere whereCrossType)
    = Some (Ok (mkResult [] [] (RowsDeleted 0) 0)).
Proof. repeat split; vm_compute; reflexivity. Qed.

(** The sibling path: SELECT forwards the same errors. *)
Lemma select_forwards_where_error :
  executeSelect idStorage (mkSelectStmt ["*"%string] "t" (Some whereUnknownColumn))
    = Some (Err (NotFound "nosuch")) /\
  executeSelect idStorage (mkSelectStmt ["*"%string] "t" (Some whereCrossType))
    = Some (Err (IncomparableTypes KInt KString)).
Proof. split; vm_compute; reflexivity. Qed.

(** In general: a row on which the predicate fails is treated by UPDATE
    and DELETE as a row that does not match. *)
Lemma whereClosure_error w schema row e :
  evaluateCondition w row schema = Some (Err e) ->
  whereClosure w schema row = Some false.
Proof. unfold whereClosure. intros ->. reflexivity. Qed.

End WhereErrors.

(* ================================================================== *)
(** * CreateTable *)
(* ================================================================== *)

Section CreateTableFacts.

(** C9, the failing input. [CREATE TABLE t (id INTEGER PRIMARY KEY)]
    while the table file cannot be written, and
    [CREATE TABLE t (a INTEGER PRIMARY KEY, a INTEGER UNIQUE)], whose
    second index creation fails: the table registration is rolled back,
    the index already created for the table stays in the index manager. *)
Theorem CreateTable_failure_keeps_index :
  (let '(s', _, err) :=
     CreateTable emptyStorage deniedFS (AddColumn (NewSchema "t") (pkColumn "id")) in
   err = Some (Wrapped "failed to save table" (IOError "data/t.tbl")) /\
   TableExists s' "t" = false /\
   Manager.HasIndex (indexMgr s') "t" "id" = true) /\
  (let '(s', _, err) :=
     CreateTable emptyStorage emptyFS
       (AddColumn (AddColumn (NewSchema "t") (pkColumn "a")) (uniqueColumn "a")) in
   err = Some (Wrapped "failed to create index" (AlreadyExists "t.a")) /\
   TableExists s' "t" = false /\
   Manager.HasIndex (indexMgr s') "t" "a" = true).
Proof. split; vm_compute; repeat split; reflexivity. Qed.

(** What the leak costs: once the directory is writable again, creating
    the same table fails for good, since its index is still registered. *)
Lemma CreateTable_retry_fails :
  let '(s', _, _) :=
    CreateTable emptyStorage deniedFS (AddColumn (NewSchema "t") (pkColumn "id")) in
  (CreateTable s' emptyFS (AddColumn (NewSchema "t") (pkColumn "id"))).2
  = Some (Wrapped "failed to create index" (AlreadyExists "t.id")).
Proof. vm_compute. reflexivity. Qed.

(** The part of the rollback the code does perform: after a failure during
    index creation or persistence the table is not registered. *)
Lemma CreateTable_failure_unregisters s fs schema s' fs' e :
  tables s !! TableName schema = None ->
  CreateTable s fs schema = (s', fs', Some e) ->
  TableExists s' (TableName schema) = false.
Proof.
  intros Hnew. unfold CreateTable. rewrite Hnew.
  destruct (createIndexes _ _ _) as [m' [e1 |]].
  - intros [= <- <- <-]. unfold TableExists. simpl.
    rewrite lookup_delete_eq. apply bool_decide_eq_false. by intros [? ?].
  - destruct (saveTable _ _ _) as [fs1 [e2 |]].
    + intros [= <- <- <-]. unfold TableExists. simpl.
      rewrite lookup_delete_eq. apply bool_decide_eq_false. by intros [? ?].
    + discriminate.
Qed.

End CreateTableFacts.

(* ================================================================== *)
(** * InsertRow *)
(* ================================================================== *)

Section InsertRowFacts.


Lemma indexFrom_lookup (cols : list Column) (i : nat) (col : Column) (k : Z) :
  NoDup (map Name cols) -> cols !! i = Some col ->
  indexFrom cols (Name col) k = k + Z.of_nat i.
Proof.
  revert i k. induction cols as [| c cols IH]; intros i k Hnd Hi; [done |].
  simpl in Hnd. apply NoDup_cons in Hnd as [Hnotin Hnd].
  destruct i as [| i]; simpl in *.
  - inversion Hi; subst. rewrite String.eqb_refl. lia.
  - destruct (String.eqb_spec (Name c) (Name col)) as [Heq | Hne].
    + exfalso. apply Hnotin. rewrite Heq.
      apply list_elem_of_fmap. exists col. split; [done |].
      eapply list_elem_of_lookup_2; eauto.
    + rewrite (IH i (k + 1) Hnd Hi). lia.
Qed.

Lemma GetColumnIndex_lookup (s : Schema) (i : nat) (col : Column) :
  NoDup (map Name (Columns s)) -> Columns s !! i = Some col ->
  GetColumnIndex s (Name col) = Z.of_nat i.
Proof. intros. unfold GetColumnIndex. erewrite indexFrom_lookup; eauto. Qed.

Lemma of_nat_neq_minus_one (i : nat) : (Z.of_nat i =? -1) = false.
Proof. apply Z.eqb_neq. lia. Qed.

Lemma validateRow_valid (cols : list Column) (vals : list Value) (i : nat) :
  length vals = (i + length cols)%nat ->
  (forall j col v, cols !! j = Some col -> vals !! (i + j)%nat = Some v ->
                   ValidateValue v col = None) ->
  validateRow cols vals i = Some None.
Proof.
  revert i. induction cols as [| c cols IH]; intros i Hlen Hval; [done |].
  simpl in *.
  destruct (lookup_lt_is_Some_2 vals i) as [v Hv]; [lia |].
  rewrite Hv. simpl.
  rewrite (Hval 0%nat c v); [| done | by rewrite Nat.add_0_r].
  apply IH; [lia |].
  intros j col v' Hj Hv'. apply (Hval (S j) col v'); [done |].
  by replace (i + S j)%nat with (S i + j)%nat by lia.
Qed.

Lemma scanRows_spec (rows : list Row) (idx : nat) (v : Value) :
  Forall (fun r => (idx < length (Values r))%nat) rows ->
  exists b, scanRows rows idx v = Some b /\ (b = true <-> cell_taken rows idx v).
Proof.
  induction 1 as [| r rows Hr _ IH]; simpl.
  - exists false. split; [done |]. split; [done |].
    intros (r & x & Hin & _). by apply elem_of_nil in Hin.
  - destruct (lookup_lt_is_Some_2 (Values r) idx Hr) as [x Hx].
    rewrite Hx. simpl. destruct (iface_eq x v) eqn:E.
    + exists true. split; [done |]. split; [| done].
      intros _. exists r, x. split; [apply list_elem_of_here | done].
    + destruct IH as (b & Hb & Hiff). exists b. split; [done |].
      rewrite Hiff. split.
      * intros (r' & x' & Hin & Hx' & He). exists r', x'.
        split; [by apply list_elem_of_further | done].
      * intros (r' & x' & Hin & Hx' & He).
        apply elem_of_cons in Hin as [-> | Hin].
        -- congruence.
        -- by exists r', x'.
Qed.

Section Checks.

Variables (t : Table) (row : Row).
Hypothesis Hwf : table_wf t.
Hypothesis Hrow : length (Values row) = length (Columns (TSchema t)).

Lemma rows_in_range (i : nat) (col : Column) :
  Columns (TSchema t) !! i = Some col ->
  Forall (fun r => (i < length (Values r))%nat) (Rows t).
Proof using Hwf.
  intros Hi. destruct Hwf as [_ Har].
  eapply Forall_impl; [exact Har |]. simpl. intros r ->.
  eapply lookup_lt_Some; eauto.
Qed.

(** The primary-key loop over the names of the columns [cs]. *)
Lemma checkPrimaryKeys_spec (cs : list Column) :
  (forall c, c ∈ cs -> c ∈ Columns (TSchema t)) ->
  (checkPrimaryKeys (TSchema t) (Rows t) row (map Name cs) = Some None /\
   forall i c v, c ∈ cs -> Columns (TSchema t) !! i = Some c ->
                 Values row !! i = Some v -> ~ cell_taken (Rows t) i v) \/
  (exists v i c, checkPrimaryKeys (TSchema t) (Rows t) row (map Name cs)
                 = Some (Some (DuplicateKey None v)) /\
     c ∈ cs /\ Columns (TSchema t) !! i = Some c /\ Values row !! i = Some v /\
     cell_taken (Rows t) i v).
Proof using Hwf Hrow.
  destruct Hwf as [[Hnd _] _].
  induction cs as [| c cs IH]; intros Hin; simpl.
  - left. split; [done |]. intros i c v Hc. by apply elem_of_nil in Hc.
  - assert (Hc : c ∈ Columns (TSchema t)) by (apply Hin; apply list_elem_of_here).
    apply list_elem_of_lookup in Hc as [i Hi].
    rewrite (GetColumnIndex_lookup _ _ _ Hnd Hi).
    rewrite of_nat_neq_minus_one.
    rewrite Nat2Z.id.
    destruct (lookup_lt_is_Some_2 (Values row) i) as [v Hv].
    { rewrite Hrow. eapply lookup_lt_Some; eauto. }
    rewrite Hv. simpl.
    destruct (scanRows_spec (Rows t) i v (rows_in_range i c Hi)) as (b & Hb & Hiff).
    rewrite Hb. simpl. destruct b.
    + right. exists v, i, c. repeat split; try done.
      * apply list_elem_of_here.
      * by apply Hiff.
    + destruct IH as [[Hok Hnone] | (v' & i' & c' & Hdup & Hc' & Hi' & Hv' & Htaken)].
      * intros c' Hc'. apply Hin. by apply list_elem_of_further.
      * left. split; [done |]. intros i' c' v' Hc' Hi' Hv'.
        apply elem_of_cons in Hc' as [-> | Hc'].
        -- assert (i' = i) as ->.
           { eapply NoDup_lookup; [exact Hnd | |];
               rewrite list_lookup_fmap; [by rewrite Hi' | by rewrite Hi]. }
           assert (v' = v) as -> by congruence.
           intros Ht. apply Hiff in Ht. discriminate.
        -- eapply Hnone; eauto.
      * right. exists v', i', c'. repeat split; try done.
        by apply list_elem_of_further.
Qed.

(** The unique-key loop over the names of the columns [cs]. *)
Lemma checkUniqueKeys_spec (cs : list Column) :
  (forall c, c ∈ cs -> c ∈ Columns (TSchema t)) ->
  (checkUniqueKeys (TSchema t) (Rows t) row (map Name cs) = Some None /\
   forall i c v, c ∈ cs -> Columns (TSchema t) !! i = Some c ->
                 Values row !! i = Some v -> v <> VNil -> ~ cell_taken (Rows t) i v) \/
  (exists v i c, checkUniqueKeys (TSchema t) (Rows t) row (map Name cs)
                 = Some (Some (DuplicateKey (Some (Name c)) v)) /\
     c ∈ cs /\ Columns (TSchema t) !! i = Some c /\ Values row !! i = Some v /\
     v <> VNil /\ cell_taken (Rows t) i v).
Proof using Hwf Hrow.
  destruct Hwf as [[Hnd _] _].
  induction cs as [| c cs IH]; intros Hin; simpl.
  - left. split; [done |]. intros i c v Hc. by apply elem_of_nil in Hc.
  - assert (Hc : c ∈ Columns (TSchema t)) by (apply Hin; apply list_elem_of_here).
    apply list_elem_of_lookup in Hc as [i Hi].
    rewrite (GetColumnIndex_lookup _ _ _ Hnd Hi).
    rewrite of_nat_neq_minus_one.
    rewrite Nat2Z.id.
    destruct (lookup_lt_is_Some_2 (Values row) i) as [v Hv].
    { rewrite Hrow. eapply lookup_lt_Some; eauto. }
    rewrite Hv. simpl.
    assert (Hrest :
      (forall i' c' v', c' ∈ cs -> Columns (TSchema t) !! i' = Some c' ->
          Values row !! i' = Some v' -> v' <> VNil -> ~ cell_taken (Rows t) i' v') ->
      (v <> VNil -> ~ cell_taken (Rows t) i v) ->
      forall i' c' v', c' ∈ c :: cs -> Columns (TSchema t) !! i' = Some c' ->
          Values row !! i' = Some v' -> v' <> VNil -> ~ cell_taken (Rows t) i' v').
    { intros Hnone Hhere i' c' v' Hc' Hi' Hv' Hnn.
      apply elem_of_cons in Hc' as [-> | Hc'].
      - assert (i' = i) as ->.
        { eapply NoDup_lookup; [exact Hnd | |];
            rewrite list_lookup_fmap; [by rewrite Hi' | by rewrite Hi]. }
        assert (v' = v) as -> by congruence. by apply Hhere.
      - eapply Hnone; eauto. }
    assert (Hin' : forall c', c' ∈ cs -> c' ∈ Columns (TSchema t)).
    { intros c' Hc'. apply Hin. by apply list_elem_of_further. }
    destruct (isNil v) eqn:Enil.
    + destruct (IH Hin') as [[Hok Hnone] | (v' & i' & c' & Hdup & Hc' & Hi' & Hv' & Hnn & Htaken)].
      * left. split; [done |]. apply Hrest; [done |].
        intros Hnn. destruct v; simpl in Enil; congruence.
      * right. exists v', i', c'. repeat split; try done.
        by apply list_elem_of_further.
    + destruct (scanRows_spec (Rows t) i v (rows_in_range i c Hi)) as (b & Hb & Hiff).
      rewrite Hb. simpl. destruct b.
      * right. exists v, i, c. repeat split; try done.
        -- apply list_elem_of_here.
        -- intros ->. discriminate.
        -- by apply Hiff.
      * destruct (IH Hin') as [[Hok Hnone] | (v' & i' & c' & Hdup & Hc' & Hi' & Hv' & Hnn & Htaken)].
        -- left. split; [done |]. apply Hrest; [done |].
           intros _ Ht. apply Hiff in Ht. discriminate.
        -- right. exists v', i', c'. repeat split; try done.
           by apply list_elem_of_further.
Qed.

End Checks.

Lemma elem_of_filter_bool {A} (f : A -> bool) (l : list A) (x : A) :
  x ∈ List.filter f l <-> x ∈ l /\ f x = true.
Proof. rewrite !list_elem_of_In. apply filter_In. Qed.

(** A failing insert returns the table it was given. *)
Lemma InsertRow_failure_unchanged (t : Table) (row : Row) (t' : Table) (e : error) :
  InsertRow t row = Some (t', Some e) -> t' = t.
Proof.
  unfold InsertRow.
  destruct (negb _); [by intros [= <- _] |].
  destruct (validateRow _ _ _) as [[e1 |] |]; simpl; [by intros [= <- _] | | done].
  destruct (checkPrimaryKeys _ _ _ _) as [[e2 |] |]; simpl; [by intros [= <- _] | | done].
  destruct (checkUniqueKeys _ _ _ _) as [[e3 |] |]; simpl; [by intros [= <- _] | | done].
  discriminate.
Qed.

(** C2, counterexample: a second row [(NULL)] is rejected as a duplicate
    primary key, although no non-nil cell collides. *)
Lemma InsertRow_nil_primary_key_counterexample : ~ InsertRow_nil_never_collides.
Proof.
  intros H.
  destruct (H nullKeyTable (mkRow [VNil])) as [Hdup _].
  - split.
    + repeat split; simpl; try reflexivity. apply NoDup_singleton.
    + repeat constructor.
  - split; [reflexivity |].
    intros [| i] col v Hc Hv; simpl in *; [| done].
    by inversion Hc; inversion Hv; subst.
  - destruct Hdup as (i & col & v & Hc & Hv & _ & Hnn & _).
    + by exists None, VNil.
    + destruct i; simpl in *; [| done]. inversion Hv; subst. by apply Hnn.
Qed.

(** C2, amended. For a well-formed table and a valid candidate row,
    [InsertRow] answers [DuplicateKey] exactly when a stored row holds an
    equal cell in a PRIMARY KEY column (nil included) or an equal non-nil
    cell in a UNIQUE column, and appends the row otherwise; and whatever
    the table and the row, a failing insert leaves the table as it was. *)
Theorem InsertRow_duplicate_key (t : Table) (row : Row) :
  (forall t' e, InsertRow t row = Some (t', Some e) ->
      t' = t /\ length (Rows t') = length (Rows t)) /\
  (table_wf t -> row_valid (TSchema t) row ->
     (key_collision t row ->
        exists c v, InsertRow t row = Some (t, Some (DuplicateKey c v))) /\
     (~ key_collision t row ->
        InsertRow t row = Some (mkTable (TSchema t) (Rows t ++ [row]), None))).
Proof.
  split.
  { intros t' e H. apply InsertRow_failure_unchanged in H. by subst. }
  intros Hwf [Hlen Hval].
  unfold InsertRow.
  replace (length (Values row) =? length (Columns (TSchema t)))%nat with true
    by (symmetry; by apply Nat.eqb_eq).
  simpl. rewrite validateRow_valid; [| by rewrite Hlen | exact Hval]. simpl.
  destruct Hwf as [[Hnd [Hpk Huk]] Har].
  assert (Hwf : table_wf t) by done.
  rewrite Hpk, Huk.
  destruct (checkPrimaryKeys_spec t row Hwf Hlen (List.filter PrimaryKey (Columns (TSchema t))))
    as [[Hok Hnone] | (v & i & c & Hdup & Hc & Hi & Hv & Htaken)].
  { intros c Hc. by apply elem_of_filter_bool in Hc as [? _]. }
  2: { rewrite Hdup. simpl. split.
       - intros _. by exists None, v.
       - intros Hno. exfalso. apply Hno. exists i, c, v.
         apply elem_of_filter_bool in Hc as [_ Hc]. repeat split; auto. }
  rewrite Hok. simpl.
  destruct (checkUniqueKeys_spec t row Hwf Hlen (List.filter Unique (Columns (TSchema t))))
    as [[Hok' Hnone'] | (v & i & c & Hdup & Hc & Hi & Hv & Hnn & Htaken)].
  { intros c Hc. by apply elem_of_filter_bool in Hc as [? _]. }
  2: { rewrite Hdup. simpl. split.
       - intros _. by exists (Some (Name c)), v.
       - intros Hno. exfalso. apply Hno. exists i, c, v.
         apply elem_of_filter_bool in Hc as [_ Hc]. repeat split; auto. }
  rewrite Hok'. simpl. split; [| done].
  intros (i & c & v & Hi & Hv & [Hp | [Hu Hnn]] & Htaken); exfalso.
  - eapply (Hnone i c v); eauto. apply elem_of_filter_bool. split; [| done].
    eapply list_elem_of_lookup_2; eauto.
  - eapply (Hnone' i c v); eauto. apply elem_of_filter_bool. split; [| done].
    eapply list_elem_of_lookup_2; eauto.
Qed.


Lemma pkTable_wf : table_wf pkTable.
Proof.
  split.
  - repeat split; simpl; try reflexivity. apply NoDup_singleton.
  - repeat constructor.
Qed.

Lemma pkTable_row_valid (n : Z) : row_valid (TSchema pkTable) (mkRow [VInt n]).
Proof.
  split; [reflexivity |].
  intros [| i] col v Hc Hv; simpl in *; [| done].
  by inversion Hc; inversion Hv; subst.
Qed.

Lemma InsertRow_duplicate_key_witness :
  (exists c v, InsertRow pkTable (mkRow [VInt 1])
               = Some (pkTable, Some (DuplicateKey c v))) /\
  InsertRow pkTable (mkRow [VInt 2])
  = Some (mkTable (TSchema pkTable) (Rows pkTable ++ [mkRow [VInt 2]]), None).
Proof.
  split.
  - apply (InsertRow_duplicate_key pkTable (mkRow [VInt 1]));
      [apply pkTable_wf | apply pkTable_row_valid |].
    exists 0%nat, (pkColumn "id"), (VInt 1).
    repeat split; auto.
    exists (mkRow [VInt 1]), (VInt 1). repeat split. apply list_elem_of_here.
  - apply (InsertRow_duplicate_key pkTable (mkRow [VInt 2]));
      [apply pkTable_wf | apply pkTable_row_valid |].
    intros (i & col & v & Hc & Hv & _ & r & x & Hin & Hx & He).
    destruct i; simpl in *; [| done].
    apply list_elem_of_singleton in Hin. subst r.
    inversion Hv; inversion Hx; subst. discriminate.
Defined.

End InsertRowFacts.

(* ================================================================== *)
(** * Persistence and startup *)
(* ================================================================== *)

Section Persistence.

Lemma substring_0_append (a b : string) :
  String.substring 0 (String.length a) (a +:+ b) = a.
Proof. induction a as [| c a IH]; simpl; [by destruct b | by rewrite IH]. Qed.

Lemma substring_skip_append (a b : string) (n : nat) :
  String.substring (String.length a) n (a +:+ b) = String.substring 0 n b.
Proof. induction a as [| c a IH]; simpl; done. Qed.

Lemma substring_0_length (b : string) : String.substring 0 (String.length b) b = b.
Proof. induction b as [| c b IH]; simpl; [done | by rewrite IH]. Qed.

Lemma string_length_append (a b : string) :
  String.length (a +:+ b) = (String.length a + String.length b)%nat.
Proof. induction a as [| c a IH]; simpl; [done | by rewrite IH]. Qed.

Lemma substring_split (s : string) (k : nat) :
  (k <= String.length s)%nat ->
  s = String.substring 0 k s +:+ String.substring k (String.length s - k) s.
Proof.
  revert k. induction s as [| c s IH]; intros k Hk; simpl in *.
  - by destruct k.
  - destruct k as [| k]; simpl.
    + by rewrite substring_0_length.
    + change (String c s = String c (String.substring 0 k s
                +:+ String.substring k (String.length s - k) s)).
      f_equal. apply IH. lia.
Qed.

Lemma hasTblExt_path (tableName : string) : hasTblExt (tableName +:+ ".tbl") = true.
Proof.
  unfold hasTblExt.
  rewrite string_length_append.
  change (String.length ".tbl") with 4%nat.
  rewrite Nat.add_sub, substring_skip_append.
  apply andb_true_intro. split; [apply Nat.leb_le; lia | reflexivity].
Qed.

Lemma tableName_of_path (tableName : string) :
  let name := tableName +:+ ".tbl" in
  String.substring 0 (String.length name - 4) name = tableName.
Proof.
  simpl. rewrite string_length_append.
  change (String.length ".tbl") with 4%nat.
  rewrite Nat.add_sub. apply substring_0_append.
Qed.

Lemma path_of_tableName (name : string) :
  hasTblExt name = true ->
  name = String.substring 0 (String.length name - 4) name +:+ ".tbl".
Proof.
  unfold hasTblExt. intros H.
  apply andb_prop in H as [Hlen Hext].
  apply Nat.leb_le in Hlen. apply String.eqb_eq in Hext.
  pose proof (substring_split name (String.length name - 4)) as Hsplit.
  replace (String.length name - (String.length name - 4))%nat with 4%nat in Hsplit by lia.
  rewrite Hext in Hsplit. apply Hsplit. lia.
Qed.

(** Paths: joining a directory and a name that a directory entry can
    carry appends the name to the cleaned path of the directory. *)
Lemma splitSlash_nonempty (s : string) : splitSlash s <> [].
Proof.
  destruct s as [| c s]; simpl; [done |].
  destruct (Ascii.eqb c "/"); [done |]. by destruct (splitSlash s).
Qed.

Lemma splitSlash_slashFree (b : string) : slashFree b = true -> splitSlash b = [b].
Proof.
  induction b as [| c b IH]; simpl; [done |].
  intros H. apply andb_prop in H as [Hc Hb]. apply negb_true_iff in Hc. rewrite Hc.
  by rewrite (IH Hb).
Qed.

Lemma splitSlash_append (dir b : string) :
  slashFree b = true -> splitSlash (dir +:+ "/" +:+ b) = splitSlash dir ++ [b].
Proof.
  intros Hb. induction dir as [| c dir IH].
  - change (splitSlash (String "/"%char b) = [EmptyString; b]). simpl.
    by rewrite (splitSlash_slashFree b Hb).
  - change (splitSlash (String c (dir +:+ "/" +:+ b)) = splitSlash (String c dir) ++ [b]).
    simpl. rewrite IH. destruct (Ascii.eqb c "/"); [done |].
    pose proof (splitSlash_nonempty dir). by destruct (splitSlash dir).
Qed.

Lemma isRooted_append (dir x : string) :
  dir <> EmptyString -> isRooted (dir +:+ x) = isRooted dir.
Proof. by destruct dir. Qed.

Lemma slashFree_not_rooted (b : string) : slashFree b = true -> isRooted b = false.
Proof.
  destruct b as [| c b]; simpl; [done |]. intros H.
  apply andb_prop in H as [Hc _]. by apply negb_true_iff in Hc.
Qed.

Lemma entryNameOk_inv (b : string) :
  entryNameOk b = true ->
  slashFree b = true /\ String.eqb b EmptyString = false /\ String.eqb b "." = false /\
  String.eqb b ".." = false.
Proof.
  unfold entryNameOk. intros H.
  apply andb_prop in H as [H H4]. apply andb_prop in H as [H H3].
  apply andb_prop in H as [H1 H2]. by rewrite !negb_true_iff in *.
Qed.

Lemma cleanStep_name (rooted : bool) (kept : list string) (b : string) :
  entryNameOk b = true -> cleanStep rooted kept b = b :: kept.
Proof.
  intros H. apply entryNameOk_inv in H as (_ & H1 & H2 & H3).
  unfold cleanStep. by rewrite H1, H2, H3.
Qed.

Lemma Join_entry (dir b : string) :
  entryNameOk b = true -> Join dir b = ((Clean dir).1, (Clean dir).2 ++ [b]).
Proof.
  intros Hok. pose proof (entryNameOk_inv b Hok) as (Hfree & _).
  unfold Join. destruct (String.eqb_spec dir EmptyString) as [-> | Hne].
  - unfold Clean. rewrite (slashFree_not_rooted b Hfree), (splitSlash_slashFree b Hfree).
    simpl. by rewrite cleanStep_name.
  - unfold Clean. rewrite (isRooted_append dir _ Hne), (splitSlash_append dir b Hfree).
    rewrite fold_left_app. simpl. by rewrite cleanStep_name.
Qed.

Lemma stripPrefix_app (l k : list string) : stripPrefix l (l ++ k) = Some k.
Proof. induction l as [| x l IH]; simpl; [done |]. by rewrite String.eqb_refl. Qed.

Lemma stripPrefix_Some (l k r : list string) : stripPrefix l k = Some r -> k = l ++ r.
Proof.
  revert k. induction l as [| x l IH]; intros k; simpl; [by intros [= ->] |].
  destruct k as [| y k]; [done |].
  destruct (String.eqb_spec x y) as [-> | _]; [| done]. intros H. by rewrite (IH k H).
Qed.

Lemma relativeTo_Some (dir p : Path) (r : list string) :
  relativeTo dir p = Some r <-> p = (dir.1, dir.2 ++ r).
Proof.
  unfold relativeTo. destruct dir as [d l], p as [d' k]. simpl. split.
  - destruct (Bool.eqb d d') eqn:Hd; [| done]. apply Bool.eqb_prop in Hd as ->.
    intros H. by rewrite (stripPrefix_Some l k r H).
  - intros [= -> ->]. by rewrite Bool.eqb_reflx, stripPrefix_app.
Qed.

Lemma entryName_Some (dir p : Path) (b : string) :
  entryName dir p = Some b <->
  entryNameOk b = true /\ exists rest, p = (dir.1, dir.2 ++ b :: rest).
Proof.
  unfold entryName. split.
  - destruct (relativeTo dir p) as [[| name rest] |] eqn:Hrel; [done | | done].
    destruct (entryNameOk name) eqn:Hok; [| done]. intros [= <-].
    split; [done |]. exists rest. by apply relativeTo_Some.
  - intros [Hok [rest Hp]]. apply relativeTo_Some in Hp. by rewrite Hp, Hok.
Qed.

(** The entries of a directory: the first element, below the directory,
    of the path of each file that lies in it. *)
Lemma elem_of_ReadDir (fs : FS) (dir name : string) :
  name ∈ ReadDir fs dir <->
  entryNameOk name = true /\
  exists rest, is_Some (files fs !! ((Clean dir).1, (Clean dir).2 ++ name :: rest)).
Proof.
  unfold ReadDir. rewrite merge_sort_Permutation, elem_of_remove_dups, list_elem_of_omap.
  split.
  - intros (p & Hp & Hname). apply entryName_Some in Hname as [Hok [rest ->]].
    split; [done |]. exists rest.
    apply list_elem_of_fmap in Hp as ([p f] & -> & Hin).
    apply elem_of_map_to_list in Hin. by exists f.
  - intros [Hok [rest [f Hf]]].
    exists ((Clean dir).1, (Clean dir).2 ++ name :: rest).
    split; [| apply entryName_Some; split; [done | by exists rest]].
    apply list_elem_of_fmap. exists (((Clean dir).1, (Clean dir).2 ++ name :: rest), f).
    split; [done |]. by apply elem_of_map_to_list.
Qed.

Lemma all_decodable_empty (dir : string) : all_decodable dir emptyFS.
Proof.
  intros name Hname _. apply elem_of_ReadDir in Hname as [_ [rest [f Hf]]].
  unfold emptyFS in Hf. simpl in Hf. by rewrite lookup_empty in Hf.
Qed.

Lemma ReadDir_file (fs : FS) (dir name : string) :
  entryNameOk name = true -> is_Some (files fs !! Join dir name) ->
  name ∈ ReadDir fs dir.
Proof.
  intros Hok Hf. apply elem_of_ReadDir. split; [done |]. exists [].
  by rewrite <- (Join_entry dir name Hok).
Qed.

Lemma holdsFile_true (fs : FS) (dir : Path) :
  holdsFile fs dir = true <->
  exists p f, files fs !! p = Some f /\ liesIn dir p = true.
Proof.
  unfold holdsFile. rewrite existsb_exists. split.
  - intros (p & Hin & Hlies). apply list_elem_of_In, list_elem_of_fmap in Hin.
    destruct Hin as ([p' f] & -> & Hin). apply elem_of_map_to_list in Hin. by exists p', f.
  - intros (p & f & Hf & Hlies). exists p. split; [| done].
    apply list_elem_of_In, list_elem_of_fmap. exists (p, f).
    split; [done |]. by apply elem_of_map_to_list.
Qed.

Lemma holdsFile_insert (fs : FS) (p dir : Path) (f : File) :
  holdsFile (mkFS (<[p := f]> (files fs)) (denied fs) (quota fs)) dir
  = holdsFile fs dir || liesIn dir p.
Proof.
  apply Bool.eq_true_iff_eq. rewrite orb_true_iff, !holdsFile_true. simpl. split.
  - intros (p' & f' & Hf & Hlies). apply lookup_insert_Some in Hf as [[<- _] | [_ Hf]].
    + by right.
    + left. by exists p', f'.
  - intros [(p' & f' & Hf & Hlies) | Hlies].
    + destruct (decide (p = p')) as [<- | Hne].
      * exists p, f. split; [by rewrite lookup_insert_eq | done].
      * exists p', f'. split; [by rewrite lookup_insert_ne | done].
    + exists p, f. split; [by rewrite lookup_insert_eq | done].
Qed.

Lemma liesIn_longer (dir p : Path) :
  liesIn dir p = true -> (length dir.2 < length p.2)%nat.
Proof.
  unfold liesIn. destruct (relativeTo dir p) as [[| x rest] |] eqn:Hrel; try done.
  apply relativeTo_Some in Hrel as ->. intros _. simpl. rewrite length_app. simpl. lia.
Qed.

Lemma slashFree_append (a b : string) :
  slashFree (a +:+ b) = slashFree a && slashFree b.
Proof.
  induction a as [| c a IH]; [done |].
  change (slashFree (String c (a +:+ b)) = slashFree (String c a) && slashFree b).
  simpl. rewrite IH. by rewrite andb_assoc.
Qed.

Lemma neq_by_length (a b : string) : String.length a <> String.length b -> String.eqb a b = false.
Proof. intros H. apply String.eqb_neq. by intros ->. Qed.

(** The file name of a table without separator in its name is a name a
    directory entry can carry. *)
Lemma entryNameOk_tbl (tn : string) : entryNameOk (tn +:+ ".tbl") = slashFree tn.
Proof.
  unfold entryNameOk. rewrite slashFree_append.
  rewrite !neq_by_length; [simpl; by rewrite !andb_true_r | | |];
    rewrite string_length_append; simpl; lia.
Qed.

Lemma tbl_entryNameOk (tn : string) :
  slashFree tn = true -> entryNameOk (tn +:+ ".tbl") = true.
Proof. intros H. by rewrite entryNameOk_tbl. Qed.

(** The file of a table whose name holds no separator lies in the data
    directory itself; creating it fails only when the permissions refuse
    it or a directory is in its place. *)
Lemma tablePath_plain (s : Storage) (tn : string) :
  slashFree tn = true ->
  getTableFilePath s tn
  = ((Clean (dataDir s)).1, (Clean (dataDir s)).2 ++ [tn +:+ ".tbl"]).
Proof. intros H. unfold getTableFilePath. by rewrite Join_entry by by apply tbl_entryNameOk. Qed.

Lemma createFails_plain (s : Storage) (fs : FS) (tn : string) :
  slashFree tn = true ->
  createFails s fs (getTableFilePath s tn)
  = bool_decide (getTableFilePath s tn ∈ denied fs) || holdsFile fs (getTableFilePath s tn).
Proof.
  intros Hfree. rewrite (tablePath_plain s tn Hfree).
  destruct (Clean (dataDir s)) as [r l] eqn:HD.
  unfold createFails, isDir, parentDir. rewrite HD. cbn [fst snd].
  rewrite removelast_last.
  assert (Hself : relativeTo (r, l) (r, l) = Some []).
  { apply relativeTo_Some. simpl. by rewrite app_nil_r. }
  assert (Hup : relativeTo (r, l ++ [tn +:+ ".tbl"]) (r, l) = None).
  { destruct (relativeTo (r, l ++ [tn +:+ ".tbl"]) (r, l)) as [rest |] eqn:Hrel;
      [exfalso | done].
    apply relativeTo_Some in Hrel. simpl in Hrel. inversion Hrel as [Hl].
    apply (f_equal length) in Hl. rewrite !length_app in Hl. simpl in Hl. lia. }
  assert (Hdots : forallb (String.eqb "..") (l ++ [tn +:+ ".tbl"]) = false).
  { rewrite forallb_app. cbn [forallb]. rewrite (neq_by_length ".." (tn +:+ ".tbl")).
    - by rewrite andb_false_r.
    - rewrite string_length_append. simpl. lia. }
  rewrite Hself, Hup, Hdots. simpl. by rewrite orb_false_r.
Qed.

Lemma siblings_apart (s : Storage) (a b : string) :
  slashFree a = true -> slashFree b = true ->
  liesIn (getTableFilePath s b) (getTableFilePath s a) = false.
Proof.
  intros Ha Hb. destruct (liesIn _ _) eqn:Hlies; [exfalso | done].
  apply liesIn_longer in Hlies. rewrite !tablePath_plain in Hlies by done.
  simpl in Hlies. rewrite !length_app in Hlies. simpl in Hlies. lia.
Qed.

(** Saving one such table leaves the file of another as writable as it was. *)
Lemma writable_saved (s : Storage) (fs : FS) (a b : string) (f : File) :
  slashFree a = true -> slashFree b = true ->
  writable s fs (getTableFilePath s b) ->
  writable s (mkFS (<[getTableFilePath s a := f]> (files fs)) (denied fs) (quota fs))
           (getTableFilePath s b).
Proof.
  intros Ha Hb [Hc Hq]. split; [| exact Hq].
  rewrite createFails_plain in Hc |- * by done. cbn [denied].
  by rewrite holdsFile_insert, (siblings_apart s a b Ha Hb), orb_false_r.
Qed.


(** What saving writes, and that loading reads it back. *)
Lemma saveTable_files (s : Storage) (fs fs' : FS) (table : Table) :
  saveTable s fs table = (fs', None) ->
  files fs' = <[getTableFilePath s (TableName (TSchema table)) :=
                  [GobSchema (TSchema table); GobRows (Rows table)]]> (files fs) /\
  denied fs' = denied fs /\ quota fs' = quota fs.
Proof.
  unfold saveTable, Encode. destruct (createFails _ _ _); [discriminate |].
  destruct (quota fs !! _) as [[| [| n]] |]; simpl; try discriminate;
    by intros [= <-].
Qed.

Lemma save_then_load (s : Storage) (fs fs' : FS) (table : Table) :
  saveTable s fs table = (fs', None) ->
  loadTable s fs' (TableName (TSchema table)) = Ok table.
Proof.
  intros H. apply saveTable_files in H as [H _]. unfold loadTable. rewrite H.
  rewrite lookup_insert_eq. by destruct table.
Qed.

(** The tables registered by the loop of [loadTables]. *)
Lemma loadFiles_lookup (s : Storage) (fs : FS) (names : list string)
    (tbls tbls' : gmap string Table) :
  loadFiles s fs names tbls = (tbls', None) ->
  forall tn,
    tbls' !! tn =
      if decide ((tn +:+ ".tbl") ∈ names)
      then match loadTable s fs tn with Ok t => Some t | Err _ => None end
      else tbls !! tn.
Proof.
  revert tbls. induction names as [| name rest IH]; simpl; intros tbls H tn.
  - by inversion H; subst.
  - destruct (hasTblExt name) eqn:Hext; simpl in H.
    + destruct (loadTable s fs _) as [table | e] eqn:Hload; [| discriminate].
      rewrite (IH _ H tn).
      pose proof (path_of_tableName name Hext) as Hname.
      set (tableName := String.substring 0 (String.length name - 4) name) in *.
      destruct (decide ((tn +:+ ".tbl") ∈ rest)) as [Hin | Hnin].
      * rewrite decide_True; [done | by apply list_elem_of_further].
      * destruct (decide (tn = tableName)) as [-> | Hne].
        -- rewrite lookup_insert_eq, Hload.
           rewrite decide_True; [done |]. rewrite <- Hname. apply list_elem_of_here.
        -- rewrite lookup_insert_ne by done.
           rewrite decide_False; [done |].
           intros Hin. apply elem_of_cons in Hin as [Heq | Hin]; [| done].
           apply Hne. rewrite <- (tableName_of_path tn). simpl. rewrite Heq.
           reflexivity.
    + rewrite (IH _ H tn).
      destruct (decide ((tn +:+ ".tbl") ∈ rest)) as [Hin | Hnin].
      * rewrite decide_True; [done | by apply list_elem_of_further].
      * rewrite decide_False; [done |].
        intros Hin. apply elem_of_cons in Hin as [Heq | Hin]; [| done].
        rewrite <- Heq, hasTblExt_path in Hext. discriminate.
Qed.

Lemma loadFiles_succeeds (s : Storage) (fs : FS) (names : list string)
    (tbls : gmap string Table) :
  written_by_saveTable (dataDir s) fs ->
  (forall name, name ∈ names -> name ∈ ReadDir fs (dataDir s)) ->
  exists tbls', loadFiles s fs names tbls = (tbls', None).
Proof.
  intros Hw. revert tbls. induction names as [| name rest IH]; simpl; intros tbls Hin.
  - by eexists.
  - assert (Hrest : forall n, n ∈ rest -> n ∈ ReadDir fs (dataDir s))
      by (intros n Hn; apply Hin; by apply list_elem_of_further).
    destruct (hasTblExt name) eqn:Hext; simpl; [| by apply IH].
    destruct (Hw name (Hin name (list_elem_of_here _ _)) Hext) as [table Hf].
    assert (Hl : loadTable s fs (String.substring 0 (String.length name - 4) name)
                 = Ok table).
    { unfold loadTable, getTableFilePath. cbv zeta.
      rewrite <- (path_of_tableName name Hext).
      rewrite Hf. by destruct table. }
    rewrite Hl. by apply IH.
Qed.

(** C6, counterexample: after starting on the persisted [pkTable], the
    table and its row are loaded, and the search for its key 1 in the index
    of the primary key reports not-found. *)
Lemma startup_rebuilds_indexes_counterexample : ~ startup_rebuilds_indexes.
Proof.
  intros H.
  destruct (NewStorage "./data" pkTableFS) as [s | e] eqn:Hs; [| by vm_compute in Hs].
  assert (Ht : tables s !! "t"%string = Some pkTable).
  { vm_compute in Hs. inversion Hs. reflexivity. }
  assert (Hsearch : Manager.Search (indexMgr s) "t" "id" (VInt 1) = Some (-1, false)).
  { vm_compute in Hs. inversion Hs. reflexivity. }
  destruct (H "./data"%string pkTableFS s Hs "t"%string pkTable 0%nat (pkColumn "id")
              (mkRow [VInt 1]) (VInt 1))
    as [pos Hpos]; auto.
  - apply list_elem_of_here.
  - simpl in Hpos. rewrite Hsearch in Hpos. discriminate.
Qed.

(** The file of a table is found by the cleaned path that [filepath.Join]
    makes of the table's name: a table named [./t] is saved in the file of
    table [t] and comes back under the name [t]; a table named [../x] is
    saved outside the data directory and does not come back at all. *)
Lemma table_name_with_path_elements :
  let dotT := mkTable (NewSchema "./t") [] in
  let upX := mkTable (NewSchema "../x") [] in
  (exists fs, saveTable emptyStorage emptyFS dotT = (fs, None) /\
     files fs !! tPath = Some [GobSchema (TSchema dotT); GobRows []] /\
     exists s, NewStorage "./data" fs = Ok s /\
       tables s !! "./t"%string = None /\ tables s !! "t"%string = Some dotT) /\
  (exists fs, saveTable emptyStorage emptyFS upX = (fs, None) /\
     files fs !! (false, ["x.tbl"%string]) = Some [GobSchema (TSchema upX); GobRows []] /\
     exists s, NewStorage "./data" fs = Ok s /\ tables s = ∅).
Proof.
  split.
  - eexists. split; [vm_compute; reflexivity |]. split; [reflexivity |].
    eexists. split; [vm_compute; reflexivity |]. split; reflexivity.
  - eexists. split; [vm_compute; reflexivity |]. split; [reflexivity |].
    eexists. split; [vm_compute; reflexivity |]. reflexivity.
Qed.

(** C6, amended. Saving a table and loading it back yields the same schema
    and the same rows; on a directory written by the engine and given by a
    path that is not empty, startup succeeds and registers every persisted
    table whose name holds no path separator as it was saved, the one just
    saved among them; the index manager is left empty: no index exists for
    any column after startup, and every search through it reports
    not-found. *)
Theorem persist_then_reload (s0 : Storage) (fs fs' : FS) (table : Table) :
  saveTable s0 fs table = (fs', None) ->
  loadTable s0 fs' (TableName (TSchema table)) = Ok table /\
  (written_by_saveTable (dataDir s0) fs' -> dataDir s0 <> EmptyString ->
   exists s, NewStorage (dataDir s0) fs' = Ok s /\
     (forall tn t,
        slashFree tn = true ->
        files fs' !! getTableFilePath s0 tn
          = Some [GobSchema (TSchema t); GobRows (Rows t)] ->
        tables s !! tn = Some t) /\
     (slashFree (TableName (TSchema table)) = true ->
      tables s !! TableName (TSchema table) = Some table) /\
     indexMgr s = Manager.NewManager /\
     forall tn col key,
       Manager.HasIndex (indexMgr s) tn col = false /\
       Manager.Search (indexMgr s) tn col key = Some (-1, false)).
Proof.
  intros Hsave. split; [by apply (save_then_load s0 fs) |].
  intros Hw Hdir. unfold NewStorage, loadTables.
  rewrite (proj2 (String.eqb_neq _ _) Hdir). cbn [dataDir tables indexMgr].
  set (s1 := mkStorage (dataDir s0) ∅ Manager.NewManager).
  destruct (loadFiles_succeeds s1 fs' (ReadDir fs' (dataDir s0)) ∅ Hw) as [tbls Hload];
    [done |].
  rewrite Hload. eexists. split; [reflexivity |]. simpl.
  assert (Hall : forall tn t,
    slashFree tn = true ->
    files fs' !! getTableFilePath s0 tn = Some [GobSchema (TSchema t); GobRows (Rows t)] ->
    tbls !! tn = Some t).
  { intros tn t Hfree Hf. rewrite (loadFiles_lookup _ _ _ _ _ Hload).
    rewrite decide_True.
    - unfold loadTable. cbv zeta.
      change (getTableFilePath s1 tn) with (getTableFilePath s0 tn).
      rewrite Hf. by destruct t.
    - apply ReadDir_file; [by apply tbl_entryNameOk |]. by eexists. }
  split; [exact Hall |].
  split; [| split; [reflexivity |]].
  - intros Hfree. apply Hall; [done |].
    destruct (saveTable_files s0 fs fs' table Hsave) as [-> _].
    by rewrite lookup_insert_eq.
  - intros tn col key. unfold Manager.HasIndex, Manager.Search. simpl.
    by rewrite lookup_empty.
Qed.

Lemma persist_then_reload_witness :
  loadTable emptyStorage pkTableFS "t" = Ok pkTable /\
  exists s, NewStorage "./data" pkTableFS = Ok s /\
    (forall tn t,
       slashFree tn = true ->
       files pkTableFS !! getTableFilePath emptyStorage tn
         = Some [GobSchema (TSchema t); GobRows (Rows t)] ->
       tables s !! tn = Some t) /\
    tables s !! "t"%string = Some pkTable /\
    indexMgr s = Manager.NewManager /\
    forall tn col key,
      Manager.HasIndex (indexMgr s) tn col = false /\
      Manager.Search (indexMgr s) tn col key = Some (-1, false).
Proof.
  assert (Hsave : saveTable emptyStorage emptyFS pkTable = (pkTableFS, None))
    by reflexivity.
  destruct (persist_then_reload emptyStorage emptyFS pkTableFS pkTable Hsave)
    as [Hload Hstart].
  split; [exact Hload |].
  destruct Hstart as (s & Hs & Hall & Hthis & Hidx & Hnone).
  - intros name Hname _. exists pkTable.
    assert (Hdir : ReadDir pkTableFS "./data" = ["t.tbl"%string])
      by (vm_compute; reflexivity).
    change (dataDir emptyStorage) with "./data"%string in Hname.
    rewrite Hdir in Hname. apply list_elem_of_singleton in Hname as ->. reflexivity.
  - discriminate.
  - exists s. split; [exact Hs |]. split; [exact Hall |].
    split; [by apply Hthis |]. by split.
Defined.

End Persistence.

(* ================================================================== *)
(** * B-tree: the structural invariant *)
(* ================================================================== *)

Section BTreeFacts.

Lemma atIndex_lookup {X A} (f : X -> option A) (l : list X) (i : nat) :
  atIndex f l i = l !! i ≫= f.
Proof. revert i. induction l as [| x l IH]; intros [| i]; simpl; auto. Qed.

Lemma shape_leaf_inv lo slo node :
  shape lo slo 0 node ->
  exists ks vs, node = mkNode ks vs [] true /\ length vs = length ks /\
                (slo <= length ks <= 7)%nat.
Proof. inversion 1; subst. unfold btreeOrder in *. eexists _, _. repeat split; eauto; lia. Qed.

Lemma shape_node_inv lo slo h node :
  shape lo slo (S h) node ->
  exists ks vs cs, node = mkNode ks vs cs false /\ length vs = length ks /\
                   length cs = S (length ks) /\ (slo <= length ks <= 7)%nat /\
                   forall c, c ∈ cs -> shape lo lo h c.
Proof.
  inversion 1 as [| ? ? ? ? ? ? ? ? Hcs]; subst. unfold btreeOrder in *.
  eexists _, _, _. repeat split; eauto; try lia. by apply Forall_forall.
Qed.

Lemma shape_leaf_intro lo slo ks vs :
  length vs = length ks -> (slo <= length ks <= 7)%nat ->
  shape lo slo 0 (mkNode ks vs [] true).
Proof. intros. constructor; unfold btreeOrder; auto; lia. Qed.

Lemma shape_node_intro lo slo h ks vs cs :
  length vs = length ks -> length cs = S (length ks) -> (slo <= length ks <= 7)%nat ->
  (forall c, c ∈ cs -> shape lo lo h c) ->
  shape lo slo (S h) (mkNode ks vs cs false).
Proof. intros. constructor; unfold btreeOrder; auto; try lia. by apply Forall_forall. Qed.

Ltac shape_inv H :=
  match type of H with
  | shape _ _ 0 _ =>
      let ks := fresh "ks" in let vs := fresh "vs" in
      let Hv := fresh "Hvs" in let Hb := fresh "Hbound" in
      destruct (shape_leaf_inv _ _ _ H) as (ks & vs & -> & Hv & Hb)
  | shape _ _ (S _) _ =>
      let ks := fresh "ks" in let vs := fresh "vs" in let cs := fresh "cs" in
      let Hv := fresh "Hvs" in let Hc := fresh "Hcs" in
      let Hb := fresh "Hbound" in let Hall := fresh "Hall" in
      destruct (shape_node_inv _ _ _ _ H) as (ks & vs & cs & -> & Hv & Hc & Hb & Hall)
  end.

Lemma shape_weaken lo slo slo' h node :
  (slo' <= slo)%nat -> shape lo slo h node -> shape lo slo' h node.
Proof.
  intros Hle H. destruct h; shape_inv H.
  - apply shape_leaf_intro; auto; lia.
  - apply shape_node_intro; auto; lia.
Qed.

Lemma shape_weaken_lo lo lo' h : forall slo node,
  (lo' <= lo)%nat -> shape lo slo h node -> shape lo' slo h node.
Proof.
  induction h as [| h IH]; intros slo node Hle H; shape_inv H.
  - by apply shape_leaf_intro.
  - apply shape_node_intro; auto.
    intros c Hc. apply IH; [done |]. eapply shape_weaken; [| by apply Hall]. lia.
Qed.

Lemma shape_values lo slo h node :
  shape lo slo h node -> length (values node) = length (keys node).
Proof. intros H. destruct h; shape_inv H; done. Qed.

Lemma shape_keys_bound lo slo h node :
  shape lo slo h node -> (slo <= length (keys node) <= 7)%nat.
Proof. intros H. destruct h; shape_inv H; done. Qed.

Lemma max_list_const (l : list nat) (n : nat) :
  l <> [] -> Forall (fun x => x = n) l -> max_list l = n.
Proof.
  intros Hne Hall. induction Hall as [| x l -> Hall IHl]; [done |].
  simpl. destruct l as [| y l]; simpl in *; [lia |].
  rewrite IHl by done. lia.
Qed.

Lemma shape_height lo h : forall slo node, shape lo slo h node -> height node = S h.
Proof.
  induction h as [| h IH]; intros slo node H; shape_inv H; [done |].
  simpl. f_equal. apply max_list_const.
  - destruct cs; [simpl in *; lia | done].
  - apply Forall_fmap, Forall_forall. intros c Hc. simpl. eauto.
Qed.

(** All leaves of a shaped node are at the same depth. *)
Lemma shape_leafDepths lo h : forall slo node d x,
  shape lo slo h node -> x ∈ leafDepths d node -> x = (d + h)%nat.
Proof.
  induction h as [| h IH]; intros slo node d x H Hx; shape_inv H; simpl in Hx.
  - apply list_elem_of_singleton in Hx. lia.
  - apply list_elem_of_In, in_flat_map in Hx as (c & Hc & Hx).
    apply list_elem_of_In in Hc, Hx.
    rewrite (IH lo c (S d) x (Hall c Hc) Hx). lia.
Qed.

(** Key counts of the nodes of a shaped subtree: the node itself holds at
    least [slo] keys, those below it at least [lo]. *)
Lemma shape_subnodes lo h : forall slo node n,
  shape lo slo h node -> n ∈ subnodes node ->
  (Nat.min slo lo <= length (keys n) <= 7)%nat /\
  (n <> node -> (lo <= length (keys n))%nat).
Proof.
  induction h as [| h IH]; intros slo node n H Hn; shape_inv H; simpl in Hn.
  - apply list_elem_of_singleton in Hn. subst. simpl. split; [lia | done].
  - apply elem_of_cons in Hn as [-> | Hn]; [simpl; split; [lia | done] |].
    apply list_elem_of_In, in_flat_map in Hn as (c & Hc & Hn).
    apply list_elem_of_In in Hc, Hn.
    destruct (IH lo c n (Hall c Hc) Hn) as [Hb _]. split; lia.
Qed.

Lemma shape_nonRoot_lower lo slo h bt n :
  shape lo slo h (root bt) -> n ∈ nonRootNodes bt -> (lo <= length (keys n))%nat.
Proof.
  unfold nonRootNodes. intros H Hn. destruct bt as [r]. simpl in *.
  destruct h; shape_inv H; simpl in Hn.
  - by apply elem_of_nil in Hn.
  - apply list_elem_of_In, in_flat_map in Hn as (c & Hc & Hn).
    apply list_elem_of_In in Hc, Hn.
    destruct (shape_subnodes lo h lo c n (Hall c Hc) Hn) as [Hb _]. lia.
Qed.

Lemma scanUp_le (key : Value) (ks : list Value) : (scanUp key ks <= length ks)%nat.
Proof.
  induction ks as [| k ks IH]; simpl; [lia |].
  destruct (compare key k >? 0); simpl; lia.
Qed.

Lemma scanDown_le (key : Value) (ks : list Value) (n : nat) :
  (scanDown key ks n <= n)%nat.
Proof.
  induction n as [| n IH]; simpl; [lia |].
  destruct (ks !! n) as [k |]; [| lia].
  destruct (compare key k <? 0); lia.
Qed.

(** Searching a shaped tree never panics. *)
Lemma searchNode_total lo h key : forall slo node,
  shape lo slo h node -> is_Some (searchNode node key).
Proof.
  induction h as [| h IH]; intros slo node H; shape_inv H; simpl.
  - destruct (ks !! scanUp key ks) as [k |] eqn:Hk; [| by eexists].
    destruct (compare key k =? 0); [| by eexists].
    destruct (lookup_lt_is_Some_2 vs (scanUp key ks)) as [v Hv].
    { rewrite Hvs. eapply lookup_lt_Some; eauto. }
    rewrite Hv. by eexists.
  - assert (Hdesc : is_Some (atIndex (fun c => searchNode c key) cs (scanUp key ks))).
    { rewrite atIndex_lookup.
      pose proof (scanUp_le key ks) as Hi.
      destruct (lookup_lt_is_Some_2 cs (scanUp key ks)) as [c Hc]; [lia |].
      rewrite Hc. simpl.
      eapply IH. apply Hall. eapply list_elem_of_lookup_2; eauto. }
    destruct (ks !! scanUp key ks) as [k |] eqn:Hk; [| done].
    destruct (compare key k =? 0); [| done].
    destruct (lookup_lt_is_Some_2 vs (scanUp key ks)) as [v Hv].
    { rewrite Hvs. eapply lookup_lt_Some; eauto. }
    rewrite Hv. by eexists.
Qed.

Lemma shape_node_intro' lo slo h ks vs cs :
  length vs = length ks -> length cs = S (length ks) -> (slo <= length ks <= 7)%nat ->
  Forall (shape lo lo h) cs ->
  shape lo slo (S h) (mkNode ks vs cs false).
Proof. intros. apply shape_node_intro; auto. by apply Forall_forall. Qed.

(** Splitting a full child of a node whose slices are in step. *)
Lemma splitChild_shape lo h pk pv pc index c :
  (lo <= 3)%nat ->
  length pv = length pk -> length pc = S (length pk) ->
  pc !! index = Some c -> shape lo lo h c -> length (keys c) = 7%nat ->
  exists mk mv,
    keys c !! 3%nat = Some mk /\ values c !! 3%nat = Some mv /\
    splitChild (mkNode pk pv pc false) index
    = Some (mkNode (take index pk ++ mk :: drop index pk)
                   (take index pv ++ mv :: drop index pv)
                   (take index pc ++ truncated c :: newChild c :: drop (S index) pc)
                   false) /\
    shape lo lo h (truncated c) /\ shape lo lo h (newChild c) /\
    length (keys (truncated c)) = 3%nat /\ length (keys (newChild c)) = 3%nat.
Proof.
  intros Hlo Hpv Hpc Hc Hshape Hfull.
  pose proof (shape_values _ _ _ _ Hshape) as Hcv.
  destruct (lookup_lt_is_Some_2 (keys c) 3) as [mk Hmk]; [lia |].
  destruct (lookup_lt_is_Some_2 (values c) 3) as [mv Hmv]; [lia |].
  exists mk, mv. split; [done |]. split; [done |].
  assert (Hguard :
    (length (values c) =? length (keys c))%nat
    && (isLeaf c || (length (children c) =? S (length (keys c)))%nat) = true
    /\ shape lo lo h (truncated c) /\ shape lo lo h (newChild c)
    /\ length (keys (truncated c)) = 3%nat /\ length (keys (newChild c)) = 3%nat).
  { destruct h; shape_inv Hshape; simpl in *; unfold truncated, newChild; simpl.
    - rewrite Hvs, Nat.eqb_refl. split; [done |].
      split; [| split]; [apply shape_leaf_intro | apply shape_leaf_intro |];
        rewrite ?length_take, ?length_drop; lia.
    - rewrite Hvs, Hcs, !Nat.eqb_refl. split; [done |].
      split; [| split];
        [apply shape_node_intro' | apply shape_node_intro' |];
        rewrite ?length_take, ?length_drop; try lia.
      + apply Forall_take, Forall_forall, Hall.
      + apply Forall_drop, Forall_forall, Hall. }
  destruct Hguard as (Hguard & HL & HR & HlenL & HlenR).
  split; [| done].
  unfold splitChild. simpl. rewrite Hc. simpl.
  rewrite Hpv, Hpc, !Nat.eqb_refl. simpl.
  apply andb_prop in Hguard as [Hg1 Hg2]. rewrite Hg1, Hg2. simpl.
  change (btreeOrder - 1)%nat with 3%nat.
  rewrite Hmk, Hmv. reflexivity.
Qed.

Lemma insertNonFull_S fuel node key rowIndex :
  insertNonFull (S fuel) node key rowIndex
  = let i := scanDown key (keys node) (length (keys node)) in
    if isLeaf node then
      if negb (length (values node) =? length (keys node))%nat then None else
      Some (mkNode (take i (keys node) ++ key :: drop i (keys node))
                   (take i (values node) ++ rowIndex :: drop i (values node))
                   (children node) true)
    else
      child ← children node !! i;
      '(node1, i1) ←
        (if (7 <=? length (keys child))%nat then
           node1 ← splitChild node i;
           k ← keys node1 !! i;
           Some (node1, if (compare key k >? 0)%Z then S i else i)
         else Some (node, i));
      c ← children node1 !! i1;
      c' ← insertNonFull fuel c key rowIndex;
      Some (mkNode (keys node1) (values node1) (<[i1:=c']> (children node1))
                   (isLeaf node1)).
Proof. reflexivity. Qed.

Lemma insertNonFull_leaf fuel ks vs cs key v :
  length vs = length ks ->
  insertNonFull (S fuel) (mkNode ks vs cs true) key v
  = Some (mkNode (take (scanDown key ks (length ks)) ks ++ key
                    :: drop (scanDown key ks (length ks)) ks)
                 (take (scanDown key ks (length ks)) vs ++ v
                    :: drop (scanDown key ks (length ks)) vs)
                 cs true).
Proof.
  intros H. rewrite insertNonFull_S. cbn [isLeaf keys values children].
  cbv zeta. rewrite H, Nat.eqb_refl. reflexivity.
Qed.

(** The two ways [insertNonFull] goes down from an internal node. *)
Lemma insertNonFull_descend fuel ks vs cs key v c :
  cs !! scanDown key ks (length ks) = Some c ->
  (length (keys c) < 7)%nat ->
  insertNonFull (S fuel) (mkNode ks vs cs false) key v
  = c' ← insertNonFull fuel c key v;
    Some (mkNode ks vs (<[scanDown key ks (length ks) := c']> cs) false).
Proof.
  intros Hc Hlt. rewrite insertNonFull_S. cbn [isLeaf keys values children].
  cbv zeta. rewrite Hc. cbn [mbind option_bind].
  replace (7 <=? length (keys c))%nat with false
    by (symmetry; apply Nat.leb_gt; lia).
  cbn [mbind option_bind isLeaf keys values children]. rewrite Hc. reflexivity.
Qed.

Lemma insertNonFull_split fuel ks vs cs key v c node1 k :
  cs !! scanDown key ks (length ks) = Some c ->
  (7 <= length (keys c))%nat ->
  splitChild (mkNode ks vs cs false) (scanDown key ks (length ks)) = Some node1 ->
  keys node1 !! scanDown key ks (length ks) = Some k ->
  insertNonFull (S fuel) (mkNode ks vs cs false) key v
  = let i1 := if compare key k >? 0 then S (scanDown key ks (length ks))
              else scanDown key ks (length ks) in
    c1 ← children node1 !! i1;
    c' ← insertNonFull fuel c1 key v;
    Some (mkNode (keys node1) (values node1) (<[i1 := c']> (children node1))
                 (isLeaf node1)).
Proof.
  intros Hc Hfull Hsplit Hk. rewrite insertNonFull_S.
  cbn [isLeaf keys values children]. cbv zeta. rewrite Hc.
  cbn [mbind option_bind].
  replace (7 <=? length (keys c))%nat with true
    by (symmetry; apply Nat.leb_le; lia).
  rewrite Hsplit. cbn [mbind option_bind]. rewrite Hk. reflexivity.
Qed.

Lemma insertNonFull_shape lo key v :
  (lo <= 3)%nat ->
  forall fuel h slo node,
    shape lo slo h node -> (length (keys node) < 7)%nat -> (h < fuel)%nat ->
    exists node', insertNonFull fuel node key v = Some node' /\ shape lo slo h node'.
Proof.
  intros Hlo. induction fuel as [| fuel IH]; intros h slo node Hs Hlt Hf; [lia |].
  destruct h; shape_inv Hs; simpl in Hlt.
  - rewrite insertNonFull_leaf by done. eexists. split; [done |].
    pose proof (scanDown_le key ks (length ks)).
    apply shape_leaf_intro; rewrite !length_app, !length_take; simpl;
      rewrite !length_drop; lia.
  - set (i := scanDown key ks (length ks)).
    pose proof (scanDown_le key ks (length ks)) as Hi. fold i in Hi.
    destruct (lookup_lt_is_Some_2 cs i) as [c Hc]; [lia |].
    assert (Hcshape : shape lo lo h c)
      by (apply Hall; eapply list_elem_of_lookup_2; eauto).
    destruct (decide (length (keys c) < 7)%nat) as [Hclt | Hcfull].
    + rewrite (insertNonFull_descend fuel ks vs cs key v c Hc Hclt).
      destruct (IH h lo c Hcshape Hclt) as (c' & Hins & Hc'); [lia |].
      rewrite Hins. simpl. eexists. split; [done |].
      apply shape_node_intro'; rewrite ?length_insert; auto.
      apply Forall_insert; [by apply Forall_forall | done].
    + pose proof (shape_keys_bound _ _ _ _ Hcshape) as Hcb.
      destruct (splitChild_shape lo h ks vs cs i c Hlo Hvs Hcs Hc Hcshape)
        as (mk & mv & Hmk & Hmv & Hsplit & HL & HR & HlenL & HlenR); [lia |].
      assert (Hk : keys (mkNode (take i ks ++ mk :: drop i ks)
                               (take i vs ++ mv :: drop i vs)
                               (take i cs ++ truncated c :: newChild c :: drop (S i) cs)
                               false) !! i = Some mk).
      { simpl. rewrite lookup_app_r; rewrite length_take; [| lia].
        replace (i - i `min` length ks)%nat with 0%nat by lia. done. }
      rewrite (insertNonFull_split fuel ks vs cs key v c _ mk Hc ltac:(lia) Hsplit Hk).
      cbv zeta. cbn [keys values children isLeaf].
      change (scanDown key ks (length ks)) with i.
      set (i1 := if compare key mk >? 0 then S i else i).
      assert (Hc1 : exists c1,
        (take i cs ++ truncated c :: newChild c :: drop (S i) cs) !! i1 = Some c1
        /\ shape lo lo h c1 /\ length (keys c1) = 3%nat).
      { unfold i1. destruct (compare key mk >? 0).
        - exists (newChild c). split; [| done].
          rewrite lookup_app_r; rewrite length_take; [| lia].
          replace (S i - i `min` length cs)%nat with 1%nat by lia. done.
        - exists (truncated c). split; [| done].
          rewrite lookup_app_r; rewrite length_take; [| lia].
          replace (i - i `min` length cs)%nat with 0%nat by lia. done. }
      destruct Hc1 as (c1 & Hc1 & Hc1shape & Hc1len).
      rewrite Hc1. simpl.
      destruct (IH h lo c1 Hc1shape) as (c' & Hins & Hc'); [lia | lia |].
      rewrite Hins. simpl. eexists. split; [done |].
      apply shape_node_intro'; rewrite ?length_insert, ?length_app, ?length_take;
        simpl; rewrite ?length_drop; try lia.
      apply Forall_insert; [| done].
      apply Forall_app. split; [apply Forall_take; by apply Forall_forall |].
      apply Forall_cons. split; [done |].
      apply Forall_cons. split; [done |].
      apply Forall_drop. by apply Forall_forall.
Qed.

Lemma shape_strengthen lo slo slo' h node :
  (slo' <= length (keys node))%nat -> shape lo slo h node -> shape lo slo' h node.
Proof.
  intros Hle H. destruct h; shape_inv H; simpl in Hle.
  - apply shape_leaf_intro; auto; lia.
  - apply shape_node_intro; auto; lia.
Qed.

(** [Insert] on a shaped tree: no panic, and the result is shaped. *)
Lemma Insert_shape lo h bt key v :
  (lo <= 3)%nat -> shape lo 0 h (root bt) ->
  exists bt' err h',
    Insert bt key v = Some (bt', err) /\ shape lo 0 h' (root bt').
Proof.
  intros Hlo Hs. unfold Insert.
  destruct (searchNode_total lo h key 0 (root bt) Hs) as [[r found] Hsearch].
  rewrite Hsearch. cbn [mbind option_bind].
  destruct found; [by eexists _, _, _ |].
  change (2 * btreeOrder - 1)%nat with 7%nat.
  pose proof (shape_keys_bound _ _ _ _ Hs) as Hb.
  destruct (Nat.leb_spec 7 (length (keys (root bt)))) as [Hfull | Hnot].
  - destruct (splitChild_shape lo h [] [] [root bt] 0 (root bt) Hlo)
      as (mk & mv & Hmk & Hmv & Hsplit & HL & HR & HlenL & HlenR); auto.
    { apply (shape_strengthen lo 0); [lia | done]. }
    { lia. }
    rewrite Hsplit. cbn [mbind option_bind take drop app].
    set (root1 := mkNode [mk] [mv] [truncated (root bt); newChild (root bt)] false).
    assert (Hroot1 : shape lo 0 (S h) root1).
    { apply shape_node_intro; simpl; auto; [lia |].
      intros c Hc. apply elem_of_cons in Hc as [-> | Hc]; [done |].
      apply list_elem_of_singleton in Hc. by subst. }
    rewrite (shape_height _ _ _ _ Hroot1).
    destruct (insertNonFull_shape lo key v Hlo (S (S h)) (S h) 0 root1 Hroot1)
      as (root2 & Hins & Hroot2); [simpl; lia | lia |].
    rewrite Hins. cbn [mbind option_bind]. by eexists _, _, _.
  - cbn [mbind option_bind]. rewrite (shape_height _ _ _ _ Hs).
    destruct (insertNonFull_shape lo key v Hlo (S h) h 0 (root bt) Hs)
      as (root2 & Hins & Hroot2); [lia | lia |].
    rewrite Hins. cbn [mbind option_bind]. by eexists _, _, _.
Qed.

(** [deleteNode] keeps the depth of the leaves and never adds a key; the
    leaf it removes a key from may fall below [btreeOrder-1] keys. *)
Lemma deleteNode_shape key h : forall node,
  shape 0 0 h node ->
  exists node' b, deleteNode node key = Some (node', b) /\ shape 0 0 h node'.
Proof.
  induction h as [| h IH]; intros node Hs; shape_inv Hs; simpl.
  - destruct (ks !! scanUp key ks) as [k |] eqn:Hk; [| by eexists _, _; split;
      [| apply shape_leaf_intro]].
    destruct (compare key k =? 0);
      [| by eexists _, _; split; [| apply shape_leaf_intro]].
    pose proof (lookup_lt_Some _ _ _ Hk) as Hi.
    rewrite decide_True by lia.
    eexists _, _. split; [done |].
    assert (Hlk : length (delete (scanUp key ks) ks) = (length ks - 1)%nat)
      by (apply length_delete; by eexists).
    assert (Hlv : length (delete (scanUp key ks) vs) = (length vs - 1)%nat)
      by (apply length_delete, lookup_lt_is_Some; lia).
    apply shape_leaf_intro; lia.
  - assert (Hdesc : exists node' b,
      ('(c', r) ← atIndex (fun c => deleteNode c key) cs (scanUp key ks);
       Some (mkNode ks vs (<[scanUp key ks := c']> cs) false, r)) = Some (node', b)
      /\ shape 0 0 (S h) node').
    { rewrite atIndex_lookup.
      pose proof (scanUp_le key ks) as Hi.
      destruct (lookup_lt_is_Some_2 cs (scanUp key ks)) as [c Hc]; [lia |].
      rewrite Hc. cbn [mbind option_bind].
      destruct (IH c) as (c' & b & Hdel & Hc');
        [apply Hall; eapply list_elem_of_lookup_2; eauto |].
      rewrite Hdel. cbn [mbind option_bind]. eexists _, _. split; [done |].
      apply shape_node_intro'; rewrite ?length_insert; auto.
      apply Forall_insert; [by apply Forall_forall | done]. }
    destruct (ks !! scanUp key ks) as [k |] eqn:Hk; [| done].
    destruct (compare key k =? 0); [| done].
    eexists _, _. split; [done |]. by apply shape_node_intro.
Qed.

Lemma Delete_shape h bt key :
  shape 0 0 h (root bt) ->
  exists bt' b, Delete bt key = Some (bt', b) /\ shape 0 0 h (root bt').
Proof.
  intros Hs. unfold Delete.
  destruct (deleteNode_shape key h (root bt) Hs) as (r & b & Hdel & Hr).
  rewrite Hdel. cbn [mbind option_bind]. by eexists _, _.
Qed.

(** Every sequence of operations runs to the end; the tree stays shaped,
    with the lower bound on key counts as long as no delete occurs. *)
Lemma run_shape lo (ops : list Op) : forall bt h,
  (lo <= 3)%nat -> lo = 0%nat \/ forallb isInsert ops = true ->
  shape lo 0 h (root bt) ->
  exists bt' h', run ops bt = Some bt' /\ shape lo 0 h' (root bt').
Proof.
  induction ops as [| op ops IH]; intros bt h Hlo Hops Hs; simpl.
  - by eexists _, _.
  - destruct op as [key v | key].
    + destruct (Insert_shape lo h bt key v Hlo Hs) as (bt1 & err & h1 & Hins & Hs1).
      rewrite Hins. cbn [mbind option_bind].
      apply (IH bt1 h1); auto.
    + destruct Hops as [-> | Hops]; [| by simpl in Hops].
      destruct (Delete_shape h bt key Hs) as (bt1 & b & Hdel & Hs1).
      rewrite Hdel. cbn [mbind option_bind].
      apply (IH bt1 h); auto.
Qed.

Lemma NewBTree_shape lo : shape lo 0 0 (root NewBTree).
Proof. apply shape_leaf_intro; simpl; [done | lia]. Qed.

(** The internal nodes keep their keys: [splitChild] leaves [btreeOrder-1]
    keys in each half, [insertNonFull] only adds keys, and [deleteNode]
    takes keys out of leaves only. *)
Lemma split_inner slo h c :
  shape 0 slo h c -> innerFilled h c ->
  innerFilled h (truncated c) /\ innerFilled h (newChild c).
Proof.
  intros Hs Hin. destruct h; [done |]. shape_inv Hs. simpl in *.
  split; [by apply Forall_take | by apply Forall_drop].
Qed.

Lemma insertNonFull_inner key v :
  forall fuel h slo node,
    shape 0 slo h node -> innerFilled h node ->
    (length (keys node) < 7)%nat -> (h < fuel)%nat ->
    exists node', insertNonFull fuel node key v = Some node' /\ innerFilled h node' /\
      (length (keys node) <= length (keys node'))%nat.
Proof.
  induction fuel as [| fuel IH]; intros h slo node Hs Hin Hlt Hf; [lia |].
  destruct h; shape_inv Hs; simpl in Hlt.
  - rewrite insertNonFull_leaf by done. eexists. split; [done |]. split; [done |].
    pose proof (scanDown_le key ks (length ks)).
    simpl. rewrite !length_app, !length_take. simpl. rewrite !length_drop. lia.
  - set (i := scanDown key ks (length ks)).
    pose proof (scanDown_le key ks (length ks)) as Hi. fold i in Hi.
    destruct (lookup_lt_is_Some_2 cs i) as [c Hc]; [lia |].
    assert (Hcshape : shape 0 0 h c)
      by (apply Hall; eapply list_elem_of_lookup_2; eauto).
    cbn [innerFilled children] in Hin.
    assert (Hcin : (h <> 0%nat -> (btreeOrder - 1 <= length (keys c))%nat)
                   /\ innerFilled h c).
    { rewrite Forall_forall in Hin. apply Hin. eapply list_elem_of_lookup_2; eauto. }
    destruct Hcin as [Hclo Hcin].
    destruct (decide (length (keys c) < 7)%nat) as [Hclt | Hcfull].
    + rewrite (insertNonFull_descend fuel ks vs cs key v c Hc Hclt).
      destruct (IH h 0%nat c Hcshape Hcin Hclt) as (c' & Hins & Hc' & Hlen); [lia |].
      rewrite Hins. simpl. eexists. split; [done |]. split; [| done].
      apply Forall_insert; [done |]. split; [| done]. intros Hh. specialize (Hclo Hh). unfold btreeOrder in *. lia.
    + pose proof (shape_keys_bound _ _ _ _ Hcshape) as Hcb.
      destruct (splitChild_shape 0 h ks vs cs i c ltac:(lia) Hvs Hcs Hc Hcshape)
        as (mk & mv & Hmk & Hmv & Hsplit & HL & HR & HlenL & HlenR); [lia |].
      destruct (split_inner 0 h c Hcshape Hcin) as [HinL HinR].
      assert (Hk : keys (mkNode (take i ks ++ mk :: drop i ks)
                               (take i vs ++ mv :: drop i vs)
                               (take i cs ++ truncated c :: newChild c :: drop (S i) cs)
                               false) !! i = Some mk).
      { simpl. rewrite lookup_app_r; rewrite length_take; [| lia].
        replace (i - i `min` length ks)%nat with 0%nat by lia. done. }
      rewrite (insertNonFull_split fuel ks vs cs key v c _ mk Hc ltac:(lia) Hsplit Hk).
      cbv zeta. cbn [keys values children isLeaf].
      change (scanDown key ks (length ks)) with i.
      set (i1 := if compare key mk >? 0 then S i else i).
      assert (Hc1 : exists c1,
        (take i cs ++ truncated c :: newChild c :: drop (S i) cs) !! i1 = Some c1
        /\ shape 0 0 h c1 /\ innerFilled h c1 /\ length (keys c1) = 3%nat).
      { unfold i1. destruct (compare key mk >? 0).
        - exists (newChild c). split; [| done].
          rewrite lookup_app_r; rewrite length_take; [| lia].
          replace (S i - i `min` length cs)%nat with 1%nat by lia. done.
        - exists (truncated c). split; [| done].
          rewrite lookup_app_r; rewrite length_take; [| lia].
          replace (i - i `min` length cs)%nat with 0%nat by lia. done. }
      destruct Hc1 as (c1 & Hc1 & Hc1shape & Hc1in & Hc1len).
      rewrite Hc1. simpl.
      destruct (IH h 0%nat c1 Hc1shape Hc1in) as (c' & Hins & Hc' & Hlen); [lia | lia |].
      rewrite Hins. simpl. eexists. split; [done |]. split.
      * apply Forall_insert; [| split; [unfold btreeOrder; lia | done]].
        apply Forall_app. split; [by apply Forall_take |].
        apply Forall_cons. split; [split; [unfold btreeOrder; lia | done] |].
        apply Forall_cons. split; [split; [unfold btreeOrder; lia | done] |].
        by apply Forall_drop.
      * simpl. rewrite length_app, length_take. simpl. rewrite length_drop. lia.
Qed.

Lemma Insert_inner h bt key v :
  shape 0 0 h (root bt) -> innerFilled h (root bt) ->
  exists bt' err h',
    Insert bt key v = Some (bt', err) /\ shape 0 0 h' (root bt') /\
    innerFilled h' (root bt').
Proof.
  intros Hs Hin. unfold Insert.
  destruct (searchNode_total 0 h key 0 (root bt) Hs) as [[r found] Hsearch].
  rewrite Hsearch. cbn [mbind option_bind].
  destruct found; [by eexists _, _, _ |].
  change (2 * btreeOrder - 1)%nat with 7%nat.
  pose proof (shape_keys_bound _ _ _ _ Hs) as Hb.
  destruct (Nat.leb_spec 7 (length (keys (root bt)))) as [Hfull | Hnot].
  - destruct (splitChild_shape 0 h [] [] [root bt] 0 (root bt) ltac:(lia))
      as (mk & mv & Hmk & Hmv & Hsplit & HL & HR & HlenL & HlenR); auto.
    { lia. }
    destruct (split_inner 0 h (root bt) Hs Hin) as [HinL HinR].
    rewrite Hsplit. cbn [mbind option_bind take drop app].
    set (root1 := mkNode [mk] [mv] [truncated (root bt); newChild (root bt)] false).
    assert (Hroot1 : shape 0 0 (S h) root1).
    { apply shape_node_intro; simpl; auto; [lia |].
      intros c Hc. apply elem_of_cons in Hc as [-> | Hc]; [done |].
      apply list_elem_of_singleton in Hc. by subst. }
    assert (Hin1 : innerFilled (S h) root1).
    { simpl. repeat constructor; auto; unfold btreeOrder; lia. }
    rewrite (shape_height _ _ _ _ Hroot1).
    destruct (insertNonFull_shape 0 key v ltac:(lia) (S (S h)) (S h) 0 root1 Hroot1)
      as (root2 & Hins & Hroot2); [simpl; lia | lia |].
    destruct (insertNonFull_inner key v (S (S h)) (S h) 0 root1 Hroot1 Hin1)
      as (root2' & Hins' & Hin2 & _); [simpl; lia | lia |].
    assert (root2' = root2) as -> by congruence.
    rewrite Hins. cbn [mbind option_bind]. eexists _, _, _. split; [done |].
    split; [exact Hroot2 | exact Hin2].
  - cbn [mbind option_bind]. rewrite (shape_height _ _ _ _ Hs).
    destruct (insertNonFull_shape 0 key v ltac:(lia) (S h) h 0 (root bt) Hs)
      as (root2 & Hins & Hroot2); [lia | lia |].
    destruct (insertNonFull_inner key v (S h) h 0 (root bt) Hs Hin)
      as (root2' & Hins' & Hin2 & _); [lia | lia |].
    assert (root2' = root2) as -> by congruence.
    rewrite Hins. cbn [mbind option_bind]. eexists _, _, _. split; [done |].
    split; [exact Hroot2 | exact Hin2].
Qed.

Lemma deleteNode_inner key h : forall node,
  shape 0 0 h node -> innerFilled h node ->
  exists node' b, deleteNode node key = Some (node', b) /\ innerFilled h node' /\
    (h <> 0%nat -> keys node' = keys node).
Proof.
  induction h as [| h IH]; intros node Hs Hin.
  - destruct (deleteNode_shape key 0 node Hs) as (node' & b & Hdel & _).
    by exists node', b.
  - shape_inv Hs. cbn [innerFilled children] in Hin. simpl.
    assert (Hdesc : exists node' b,
      ('(c', r) ← atIndex (fun c => deleteNode c key) cs (scanUp key ks);
       Some (mkNode ks vs (<[scanUp key ks := c']> cs) false, r)) = Some (node', b)
      /\ innerFilled (S h) node' /\ keys node' = ks).
    { rewrite atIndex_lookup.
      pose proof (scanUp_le key ks) as Hi.
      destruct (lookup_lt_is_Some_2 cs (scanUp key ks)) as [c Hc]; [lia |].
      rewrite Hc. cbn [mbind option_bind].
      assert (Hcin : (h <> 0%nat -> (btreeOrder - 1 <= length (keys c))%nat)
                     /\ innerFilled h c).
      { rewrite Forall_forall in Hin. apply Hin. eapply list_elem_of_lookup_2; eauto. }
      destruct Hcin as [Hclo Hcin].
      destruct (IH c) as (c' & b & Hdel & Hc' & Hkeys);
        [apply Hall; eapply list_elem_of_lookup_2; eauto | done |].
      rewrite Hdel. cbn [mbind option_bind]. eexists _, _. split; [done |].
      split; [| done]. cbn [innerFilled children].
      apply Forall_insert; [done |]. split; [| done].
      intros Hh. rewrite (Hkeys Hh). by apply Hclo. }
    destruct Hdesc as (node' & b & Hdesc & Hin' & Hkeys).
    destruct (ks !! scanUp key ks) as [k |] eqn:Hk;
      [| by exists node', b].
    destruct (compare key k =? 0); [| by exists node', b].
    eexists _, _. split; [done |]. by split.
Qed.

Lemma run_inner (ops : list Op) : forall bt h,
  shape 0 0 h (root bt) -> innerFilled h (root bt) ->
  exists bt' h', run ops bt = Some bt' /\ shape 0 0 h' (root bt') /\
    innerFilled h' (root bt').
Proof.
  induction ops as [| op ops IH]; intros bt h Hs Hin; simpl.
  - by eexists _, _.
  - destruct op as [key v | key].
    + destruct (Insert_inner h bt key v Hs Hin) as (bt1 & err & h1 & Hins & Hs1 & Hin1).
      rewrite Hins. cbn [mbind option_bind]. by apply (IH bt1 h1).
    + destruct (Delete_shape h bt key Hs) as (bt1 & b & Hdel & Hs1).
      assert (Hin1 : innerFilled h (root bt1)).
      { unfold Delete in Hdel.
        destruct (deleteNode_inner key h (root bt) Hs Hin) as (r & b' & Hd & Hr & _).
        rewrite Hd in Hdel. cbn [mbind option_bind] in Hdel. by inversion Hdel; subst. }
      rewrite Hdel. cbn [mbind option_bind]. by apply (IH bt1 h).
Qed.

Lemma inner_subnodes h : forall slo node c n,
  shape 0 slo h node -> innerFilled h node ->
  c ∈ children node -> n ∈ subnodes c -> isLeaf n = false ->
  (btreeOrder - 1 <= length (keys n))%nat.
Proof.
  induction h as [| h IH]; intros slo node c n Hs Hin Hc Hn Hleaf; shape_inv Hs.
  - simpl in Hc. by apply elem_of_nil in Hc.
  - cbn [innerFilled children] in Hin, Hc.
    rewrite Forall_forall in Hin. destruct (Hin c Hc) as [Hclo Hcin].
    pose proof (Hall c Hc) as Hcs'.
    destruct h.
    + shape_inv Hcs'. simpl in Hn. apply list_elem_of_singleton in Hn. by subst.
    + pose proof Hcs' as Hcs2. shape_inv Hcs2. simpl in Hn.
      apply elem_of_cons in Hn as [-> | Hn]; [by apply Hclo |].
      apply list_elem_of_In, in_flat_map in Hn as (c2 & Hc2 & Hn).
      apply list_elem_of_In in Hc2, Hn.
      by apply (IH 0%nat _ c2 n Hcs' Hcin).
Qed.

Lemma inner_nonRoot h bt n :
  shape 0 0 h (root bt) -> innerFilled h (root bt) ->
  n ∈ nonRootNodes bt -> isLeaf n = false ->
  (btreeOrder - 1 <= length (keys n))%nat.
Proof.
  unfold nonRootNodes. intros Hs Hin Hn Hleaf.
  destruct (isLeaf (root bt)) eqn:Hroot; [by apply elem_of_nil in Hn |].
  apply list_elem_of_In, in_flat_map in Hn as (c & Hc & Hn).
  apply list_elem_of_In in Hc, Hn.
  by apply (inner_subnodes h 0%nat (root bt) c n).
Qed.

(** C5, counterexample: the eighth insert splits the root into the leaves
    [1 2 3] and [5 6 7 8]; deleting 1 leaves the first leaf with two keys. *)
Lemma balanced_after_inserts_and_deletes_counterexample :
  ~ balanced_after_inserts_and_deletes.
Proof.
  intros H.
  destruct (H underflowOps
              (mkBTree (mkNode [VInt 4] [4]
                 [mkNode [VInt 2; VInt 3] [2; 3] [] true;
                  mkNode [VInt 5; VInt 6; VInt 7; VInt 8] [5; 6; 7; 8] [] true]
                 false))) as [_ Hkeys]; [reflexivity |].
  apply Forall_cons in Hkeys as [Hbad _]. simpl in Hbad. unfold btreeOrder in Hbad. lia.
Qed.

(** C5, amended. Every sequence of [Insert] and [Delete] operations on
    the empty tree runs without a panic; in the tree it produces all
    leaves are at one depth, every node holds at most [2*btreeOrder-1]
    keys, and every non-root node that is not a leaf holds at least
    [btreeOrder-1] keys; when the sequence holds no [Delete], the non-root
    leaves hold at least [btreeOrder-1] keys as well. *)
Theorem balanced_after_operations (ops : list Op) :
  exists bt, run ops NewBTree = Some bt /\
    (exists d, Forall (fun x => x = d) (leafDepths 0 (root bt))) /\
    Forall (fun n => (length (keys n) <= 2 * btreeOrder - 1)%nat) (subnodes (root bt)) /\
    Forall (fun n => isLeaf n = false -> (btreeOrder - 1 <= length (keys n))%nat)
           (nonRootNodes bt) /\
    (forallb isInsert ops = true ->
       Forall (fun n => (btreeOrder - 1 <= length (keys n))%nat) (nonRootNodes bt)).
Proof.
  destruct (run_inner ops NewBTree 0) as (bt & h & Hrun & Hs & Hin);
    [apply NewBTree_shape | done |].
  exists bt. split; [done |]. split; [| split; [| split]].
  - exists h. apply Forall_forall. intros x Hx.
    by rewrite (shape_leafDepths 0 h 0 (root bt) 0 x Hs Hx).
  - apply Forall_forall. intros n Hn.
    destruct (shape_subnodes 0 h 0 (root bt) n Hs Hn) as [Hb _].
    unfold btreeOrder. lia.
  - apply Forall_forall. intros n Hn Hleaf. by apply (inner_nonRoot h bt n).
  - intros Hins.
    destruct (run_shape 3 ops NewBTree 0) as (bt3 & h3 & Hrun3 & Hs3);
      [lia | by right | apply NewBTree_shape |].
    assert (bt3 = bt) as -> by congruence.
    apply Forall_forall. intros n Hn.
    pose proof (shape_nonRoot_lower 3 0 h3 bt n Hs3 Hn). unfold btreeOrder. lia.
Qed.

Lemma balanced_after_operations_witness :
  exists bt, run (map (fun z => OpInsert (VInt z) z) [1; 2; 3; 4; 5; 6; 7; 8]) NewBTree
             = Some bt /\
    (exists d, Forall (fun x => x = d) (leafDepths 0 (root bt))) /\
    Forall (fun n => (length (keys n) <= 2 * btreeOrder - 1)%nat) (subnodes (root bt)) /\
    Forall (fun n => isLeaf n = false -> (btreeOrder - 1 <= length (keys n))%nat)
           (nonRootNodes bt) /\
    Forall (fun n => (btreeOrder - 1 <= length (keys n))%nat) (nonRootNodes bt).
Proof.
  destruct (balanced_after_operations
              (map (fun z => OpInsert (VInt z) z) [1; 2; 3; 4; 5; 6; 7; 8]))
    as (bt & Hrun & Hdepth & Hupper & Hinner & Hlower).
  exists bt. repeat split; auto.
Defined.

(* ------------------------------------------------------------------ *)
(** ** The entries of a tree, in order *)

Lemma leafEntries_zip (ks : list Value) : forall vs,
  length vs = length ks -> leafEntries ks vs = Some (zip_with mkEntry ks vs).
Proof.
  induction ks as [| k ks IH]; intros [| v vs] Hlen; simpl in *; try done.
  rewrite IH by lia. done.
Qed.

Lemma traverse_flat lo h : forall slo node,
  shape lo slo h node -> traverse node = Some (flat node).
Proof.
  induction h as [| h IH]; intros slo node Hs; shape_inv Hs.
  - simpl. by apply leafEntries_zip.
  - assert (Hc : forall c, c ∈ cs -> traverse c = Some (flat c)) by eauto.
    clear Hs Hbound Hall. simpl.
    revert ks vs Hvs Hcs.
    induction cs as [| c cs IHcs]; intros ks vs Hvs Hcs; simpl in *; [lia |].
    destruct ks as [| k ks], vs as [| v vs]; simpl in *; try lia.
    + rewrite app_nil_r. apply Hc, list_elem_of_here.
    + rewrite (Hc c) by apply list_elem_of_here. cbn [mbind option_bind].
      rewrite (IHcs (fun c' Hc' => Hc c' (list_elem_of_further _ _ _ Hc')) ks vs) by lia.
      done.
Qed.

Lemma ascending_nil : ascending [].
Proof. split; constructor. Qed.

Lemma ascending_app (l1 l2 : list IndexEntry) :
  ascending (l1 ++ l2) <->
  ascending l1 /\ ascending l2 /\ forall a b, a ∈ l1 -> b ∈ l2 -> entry_lt a b.
Proof.
  unfold ascending. rewrite Forall_app, StronglySorted_app. split.
  - intros [[H1 H2] (H3 & H4 & H5)]. auto.
  - intros [[H1 H2] [[H3 H4] H5]]. auto.
Qed.

Lemma ascending_singleton (e : IndexEntry) : intKey e -> ascending [e].
Proof. intros H. split; repeat constructor; done. Qed.

Lemma entry_lt_below z a e : entry_lt a e -> below z e -> below z a.
Proof.
  unfold entry_lt, below. intros Hlt (y & Hy & Hyz). rewrite Hy in Hlt.
  destruct (Key a) as [| x | | |]; try done. exists x. split; [done | lia].
Qed.

Lemma entry_lt_above z e b : entry_lt e b -> above z e -> above z b.
Proof.
  unfold entry_lt, above. intros Hlt (y & Hy & Hyz). rewrite Hy in Hlt.
  destruct (Key b) as [| x | | |]; try done. exists x. split; [done | lia].
Qed.

Lemma below_entry_lt z v a : below z a -> entry_lt a (mkEntry (VInt z) v).
Proof. unfold entry_lt. intros (y & -> & Hy). done. Qed.

Lemma above_entry_lt z v b : above z b -> entry_lt (mkEntry (VInt z) v) b.
Proof. unfold entry_lt. intros (y & -> & Hy). done. Qed.

Lemma below_not_key z v a : below z a -> a <> mkEntry (VInt z) v.
Proof. intros (y & Hy & Hlt) ->. simpl in Hy. inversion Hy. lia. Qed.

Lemma above_not_key z v b : above z b -> b <> mkEntry (VInt z) v.
Proof. intros (y & Hy & Hlt) ->. simpl in Hy. inversion Hy. lia. Qed.

(** In an ascending list, everything before an entry below [z] is below
    [z], everything after an entry above [z] is above [z]. *)
Lemma ascending_bounds_pre z (pre rest : list IndexEntry) :
  ascending (pre ++ rest) ->
  pre = [] \/ (exists pre' e, pre = pre' ++ [e] /\ below z e) ->
  Forall (below z) pre.
Proof.
  intros Hasc [-> | (pre' & e & -> & He)]; [constructor |].
  apply ascending_app in Hasc as (Hpre & _ & _).
  apply ascending_app in Hpre as (_ & _ & Hlt).
  apply Forall_app. split; [| by repeat constructor].
  apply Forall_forall. intros a Ha.
  eapply entry_lt_below; [| exact He]. apply Hlt; [done | apply list_elem_of_here].
Qed.

Lemma ascending_bounds_post z (front post : list IndexEntry) :
  ascending (front ++ post) ->
  post = [] \/ (exists e post', post = e :: post' /\ above z e) ->
  Forall (above z) post.
Proof.
  intros Hasc [-> | (e & post' & -> & He)]; [constructor |].
  apply ascending_app in Hasc as (_ & Hpost & _).
  destruct Hpost as [_ Hsorted]. apply StronglySorted_cons in Hsorted as [Hall _].
  constructor; [done |].
  eapply Forall_impl; [exact Hall |]. intros b Hb. simpl in Hb.
  eapply entry_lt_above; eauto.
Qed.

(** An ascending list holds each key once. *)
Lemma ascending_functional (es : list IndexEntry) k v v' :
  ascending es -> mkEntry k v ∈ es -> mkEntry k v' ∈ es -> v = v'.
Proof.
  intros [_ Hsorted]. induction Hsorted as [| a l Hs IH Hall]; intros H1 H2.
  - by apply elem_of_nil in H1.
  - rewrite Forall_forall in Hall.
    apply elem_of_cons in H1 as [<- | H1], H2 as [H2 | H2].
    + by inversion H2.
    + specialize (Hall _ H2). unfold entry_lt in Hall. simpl in Hall.
      destruct k; try done. lia.
    + subst a. specialize (Hall _ H1). unfold entry_lt in Hall. simpl in Hall.
      destruct k; try done. lia.
    + by apply IH.
Qed.

(** [compare] on an integer key. *)
Lemma compare_pos z k : (compare (VInt z) k >? 0) = true -> exists y, k = VInt y /\ y < z.
Proof.
  destruct k as [| y | | |]; simpl; try discriminate.
  intros H. exists y. split; [done |].
  destruct (Z.ltb_spec z y); [discriminate |].
  destruct (Z.gtb_spec z y); [lia | discriminate].
Qed.

Lemma compare_neg z k : (compare (VInt z) k <? 0) = true -> exists y, k = VInt y /\ z < y.
Proof.
  destruct k as [| y | | |]; simpl; try discriminate.
  intros H. exists y. split; [done |].
  destruct (Z.ltb_spec z y); [done |].
  destruct (Z.gtb_spec z y); discriminate.
Qed.

Lemma compare_int z y :
  compare (VInt z) (VInt y) = if z <? y then -1 else if z >? y then 1 else 0.
Proof. reflexivity. Qed.

Lemma compare_zero z y : (compare (VInt z) (VInt y) =? 0) = true <-> y = z.
Proof.
  rewrite compare_int.
  destruct (Z.ltb_spec z y); [split; [discriminate | lia] |].
  destruct (Z.gtb_spec z y); [split; [discriminate | lia] |].
  split; [lia | done].
Qed.

Lemma compare_not_pos z y :
  (compare (VInt z) (VInt y) >? 0) = false -> z <= y.
Proof.
  rewrite compare_int.
  destruct (Z.ltb_spec z y); [lia |].
  destruct (Z.gtb_spec z y); [discriminate | lia].
Qed.

Lemma compare_not_neg z y :
  (compare (VInt z) (VInt y) <? 0) = false -> y <= z.
Proof.
  rewrite compare_int.
  destruct (Z.ltb_spec z y); [discriminate | lia].
Qed.

(** What the two scanning loops establish. *)
Lemma scanUp_spec key ks :
  (forall j k, (j < scanUp key ks)%nat -> ks !! j = Some k -> (compare key k >? 0) = true) /\
  (forall k, ks !! scanUp key ks = Some k -> (compare key k >? 0) = false).
Proof.
  induction ks as [| k0 ks [IH1 IH2]]; simpl.
  - split; [intros; lia | done].
  - destruct (compare key k0 >? 0) eqn:E; simpl.
    + split; [| done]. intros [| j] k Hj Hk; simpl in Hk.
      * by inversion Hk; subst.
      * apply (IH1 j k); [lia | done].
    + split; [intros; lia |]. intros k Hk. by inversion Hk; subst.
Qed.

Lemma scanDown_spec key ks n :
  (forall j k, (scanDown key ks n <= j < n)%nat -> ks !! j = Some k ->
               (compare key k <? 0) = true) /\
  (forall k, (0 < scanDown key ks n)%nat -> ks !! (scanDown key ks n - 1)%nat = Some k ->
             (compare key k <? 0) = false).
Proof.
  induction n as [| n [IH1 IH2]]; simpl.
  - split; intros; lia.
  - destruct (ks !! n) as [k0 |] eqn:Hn.
    + destruct (compare key k0 <? 0) eqn:E.
      * split; [| done]. intros j k Hj Hk.
        destruct (decide (j = n)) as [-> | Hne]; [congruence |].
        apply (IH1 j k); [lia | done].
      * split; [intros; lia |]. intros k _ Hk. simpl in Hk.
        rewrite Nat.sub_0_r in Hk. congruence.
    + split; [intros; lia |]. intros k _ Hk. simpl in Hk.
      rewrite Nat.sub_0_r in Hk. congruence.
Qed.

(** Going down to block [j] of a glued list: what lies before it ends
    with separator [j-1], what lies after it starts with separator [j];
    the same two parts surround the block when it is replaced, and when it
    is split in two around a new separator. *)
Lemma glue_descend {A} (j : nat) : forall (fs : list (list A)) (es : list A),
  length fs = S (length es) -> (j <= length es)%nat ->
  exists f pre post,
    fs !! j = Some f /\
    (forall f', glue (<[j:=f']> fs) es = pre ++ f' ++ post) /\
    (forall fL m fR,
        glue (take j fs ++ fL :: fR :: drop (S j) fs) (take j es ++ m :: drop j es)
        = pre ++ (fL ++ m :: fR) ++ post) /\
    (j = 0%nat /\ pre = [] \/
     exists pre' e, pre = pre' ++ [e] /\ es !! (j - 1)%nat = Some e /\ (0 < j)%nat) /\
    (j = length es /\ post = [] \/
     exists e post', post = e :: post' /\ es !! j = Some e).
Proof.
  induction j as [| j IH]; intros fs es Hlen Hj.
  - destruct fs as [| f fs]; [simpl in Hlen; lia |].
    exists f, [], (match es with [] => [] | e :: es' => e :: glue fs es' end).
    split; [done |]. split; [done |]. split.
    { intros fL m fR. simpl. rewrite <- app_assoc. simpl. rewrite drop_0. done. }
    split; [by left |].
    destruct es as [| e es]; [by left | right]. by eexists _, _.
  - destruct fs as [| f0 fs]; [simpl in Hlen; lia |].
    destruct es as [| e0 es]; [simpl in Hj; lia |].
    simpl in Hlen, Hj.
    destruct (IH fs es) as (f & pre & post & Hf & Hrepl & Hsplit & Hpre & Hpost);
      [lia | lia |].
    exists f, (f0 ++ e0 :: pre), post.
    split; [done |]. split.
    { intros f'. simpl. rewrite Hrepl, <- app_assoc. done. }
    split.
    { intros fL m fR. cbn [take drop app glue].
      rewrite Hsplit. by rewrite <- (app_assoc f0 (e0 :: pre)). }
    split.
    2: { destruct Hpost as [[-> ->] | Hpost]; [by left | by right]. }
    right. destruct Hpre as [[-> ->] | (pre' & e & -> & He & Hpos)].
    + exists f0, e0. split; [done |]. split; [done | lia].
    + exists (f0 ++ e0 :: pre'), e. split; [by rewrite <- app_assoc |].
      split; [| lia]. destruct j; [lia |]. simpl in *.
      by rewrite Nat.sub_0_r in He.
Qed.

Lemma glue_seps {A} (fs : list (list A)) : forall (es : list A) (e : A),
  length fs = S (length es) -> e ∈ es -> e ∈ glue fs es.
Proof.
  induction fs as [| f fs IH]; intros es e Hlen He; simpl in *; [lia |].
  destruct es as [| e0 es]; [by apply elem_of_nil in He |].
  apply elem_of_app. right.
  apply elem_of_cons in He as [-> | He]; [apply list_elem_of_here |].
  apply list_elem_of_further, IH; [simpl in Hlen; lia | done].
Qed.

Local Arguments compare : simpl never.

Lemma searchNode_eq ks vs cs leaf key :
  searchNode (mkNode ks vs cs leaf) key
  = match ks !! scanUp key ks with
    | Some k =>
        if compare key k =? 0 then v ← vs !! scanUp key ks; Some (v, true)
        else if leaf then Some (-1, false)
             else cs !! scanUp key ks ≫= (fun c => searchNode c key)
    | None =>
        if leaf then Some (-1, false)
        else cs !! scanUp key ks ≫= (fun c => searchNode c key)
    end.
Proof. simpl. rewrite atIndex_lookup. reflexivity. Qed.

(** The keys of a node are among its entries. *)
Lemma node_entry_in_flat lo slo h node i k v :
  shape lo slo h node -> keys node !! i = Some k -> values node !! i = Some v ->
  mkEntry k v ∈ flat node.
Proof.
  intros Hs Hk Hv.
  assert (Hin : mkEntry k v ∈ zip_with mkEntry (keys node) (values node)).
  { apply (list_elem_of_lookup_2 _ i). apply lookup_zip_with_Some. eauto. }
  destruct h; shape_inv Hs; simpl in *; [done |].
  apply glue_seps; [| done].
  rewrite length_map, length_zip_with_l_eq by lia. lia.
Qed.

Lemma ascending_intKey es e : ascending es -> e ∈ es -> intKey e.
Proof. intros [Hint _] He. rewrite Forall_forall in Hint. auto. Qed.

(** The entries of a leaf, cut at a position between a key below [z] and
    a key above [z]. *)
Lemma leaf_bounds ks vs z i :
  length vs = length ks -> ascending (zip_with mkEntry ks vs) ->
  (i <= length ks)%nat ->
  (forall k, (0 < i)%nat -> ks !! (i - 1)%nat = Some k -> exists y, k = VInt y /\ y < z) ->
  (forall k, ks !! i = Some k -> exists y, k = VInt y /\ z < y) ->
  Forall (below z) (take i (zip_with mkEntry ks vs)) /\
  Forall (above z) (drop i (zip_with mkEntry ks vs)).
Proof.
  intros Hlen Hasc Hi Hlo Hhi.
  assert (Hes : length (zip_with mkEntry ks vs) = length ks)
    by (apply length_zip_with_l_eq; lia).
  set (es := zip_with mkEntry ks vs) in *.
  rewrite <- (take_drop i es) in Hasc.
  split.
  - apply (ascending_bounds_pre z _ _ Hasc).
    destruct i as [| i]; [by left | right].
    destruct (lookup_lt_is_Some_2 es i) as [e He]; [lia |].
    exists (take i es), e. split; [by erewrite take_S_r |].
    apply lookup_zip_with_Some in He as (k & v & -> & Hk & Hv).
    destruct (Hlo k) as (y & -> & Hy);
      [lia | by replace (S i - 1)%nat with i by lia |].
    by exists y.
  - apply (ascending_bounds_post z _ _ Hasc).
    destruct (es !! i) as [e |] eqn:He.
    + right. exists e, (drop (S i) es). split; [by erewrite drop_S |].
      apply lookup_zip_with_Some in He as (k & v & -> & Hk & Hv).
      destruct (Hhi k Hk) as (y & -> & Hy). by exists y.
    + left. apply lookup_ge_None in He. by apply drop_ge.
Qed.

Lemma take_zip_with {A B C} (f : A -> B -> C) (n : nat) : forall l k,
  take n (zip_with f l k) = zip_with f (take n l) (take n k).
Proof.
  induction n as [| n IH]; intros [| x l] [| y k]; simpl; try done.
  by rewrite IH.
Qed.

Lemma drop_zip_with {A B C} (f : A -> B -> C) (n : nat) : forall l k,
  drop n (zip_with f l k) = zip_with f (drop n l) (drop n k).
Proof.
  induction n as [| n IH]; intros [| x l] [| y k]; simpl; try done.
  by rewrite zip_with_nil_r.
Qed.

(** The entries of an internal node, cut around the child at a position
    between a key below [z] and a key above [z]. *)
Lemma node_descend lo slo h ks vs cs z j :
  shape lo slo (S h) (mkNode ks vs cs false) ->
  ascending (flat (mkNode ks vs cs false)) ->
  (j <= length ks)%nat ->
  (forall k, (0 < j)%nat -> ks !! (j - 1)%nat = Some k -> exists y, k = VInt y /\ y < z) ->
  (forall k, ks !! j = Some k -> exists y, k = VInt y /\ z < y) ->
  exists c pre post,
    cs !! j = Some c /\ shape lo lo h c /\
    flat (mkNode ks vs cs false) = pre ++ flat c ++ post /\
    (forall c', flat (mkNode ks vs (<[j:=c']> cs) false) = pre ++ flat c' ++ post) /\
    (forall mk mv,
        flat (mkNode (take j ks ++ mk :: drop j ks) (take j vs ++ mv :: drop j vs)
                     (take j cs ++ truncated c :: newChild c :: drop (S j) cs) false)
        = pre ++ (flat (truncated c) ++ mkEntry mk mv :: flat (newChild c)) ++ post) /\
    Forall (below z) pre /\ Forall (above z) post.
Proof.
  intros Hs Hasc Hj Hlo Hhi.
  destruct (shape_node_inv _ _ _ _ Hs) as (ks' & vs' & cs' & Heq & Hvs & Hcs & Hb & Hall).
  inversion Heq; subst ks' vs' cs'. clear Heq.
  assert (Hes : length (zip_with mkEntry ks vs) = length ks)
    by (apply length_zip_with_l_eq; lia).
  destruct (glue_descend j (map flat cs) (zip_with mkEntry ks vs))
    as (f & pre & post & Hf & Hrepl & Hsplit & Hpre & Hpost);
    [rewrite length_map; lia | lia |].
  rewrite list_lookup_fmap in Hf.
  destruct (cs !! j) as [c |] eqn:Hc; [| done]. simpl in Hf. inversion Hf; subst f.
  assert (Hflat : flat (mkNode ks vs cs false) = pre ++ flat c ++ post).
  { simpl. rewrite <- (Hrepl (flat c)). by rewrite list_insert_id by (by rewrite list_lookup_fmap, Hc). }
  exists c, pre, post. split; [done |].
  split; [apply Hall; eapply list_elem_of_lookup_2; eauto |].
  split; [done |]. split.
  { intros c'. simpl. rewrite list_fmap_insert. apply Hrepl. }
  split.
  { intros mk mv. cbn [flat].
    rewrite !fmap_app, !fmap_cons, fmap_take, fmap_drop.
    rewrite <- (Hsplit (flat (truncated c)) (mkEntry mk mv) (flat (newChild c))).
    f_equal.
    rewrite zip_with_app by (rewrite !length_take; lia).
    cbn [zip_with]. by rewrite take_zip_with, drop_zip_with. }
  rewrite Hflat in Hasc. split.
  - apply (ascending_bounds_pre z _ _ Hasc).
    destruct Hpre as [[-> ->] | (pre' & e & -> & He & Hpos)]; [by left | right].
    exists pre', e. split; [done |].
    apply lookup_zip_with_Some in He as (k & v & -> & Hk & Hv).
    destruct (Hlo k Hpos Hk) as (y & -> & Hy). by exists y.
  - rewrite app_assoc in Hasc. apply (ascending_bounds_post z _ _ Hasc).
    destruct Hpost as [[-> ->] | (e & post' & -> & He)]; [by left | right].
    exists e, post'. split; [done |].
    apply lookup_zip_with_Some in He as (k & v & -> & Hk & Hv).
    destruct (Hhi k Hk) as (y & -> & Hy). by exists y.
Qed.

(** Where [scanUp] stops when the key is not at that position: between a
    key below and a key above. *)
Lemma scanUp_bounds z ks :
  Forall (fun k => exists y, k = VInt y) ks ->
  (forall k, ks !! scanUp (VInt z) ks = Some k -> (compare (VInt z) k =? 0) = false) ->
  (forall k, (0 < scanUp (VInt z) ks)%nat -> ks !! (scanUp (VInt z) ks - 1)%nat = Some k ->
             exists y, k = VInt y /\ y < z) /\
  (forall k, ks !! scanUp (VInt z) ks = Some k -> exists y, k = VInt y /\ z < y).
Proof.
  intros Hint Hne. destruct (scanUp_spec (VInt z) ks) as [Hbefore Hat]. split.
  - intros k Hpos Hk. apply compare_pos, (Hbefore (scanUp (VInt z) ks - 1)%nat); [lia | done].
  - intros k Hk. rewrite Forall_forall in Hint.
    destruct (Hint k) as [y ->]; [eapply list_elem_of_lookup_2; eauto |].
    exists y. split; [done |].
    pose proof (compare_not_pos z y (Hat _ Hk)) as Hle.
    specialize (Hne _ Hk).
    destruct (decide (y = z)) as [-> | Hyz]; [| lia].
    by rewrite (proj2 (compare_zero z z)) in Hne.
Qed.

Lemma node_keys_int lo slo h node :
  shape lo slo h node -> ascending (flat node) ->
  Forall (fun k => exists y, k = VInt y) (keys node).
Proof.
  intros Hs Hasc. apply Forall_forall. intros k Hk.
  apply list_elem_of_lookup in Hk as [i Hi].
  destruct (lookup_lt_is_Some_2 (values node) i) as [v Hv].
  { rewrite (shape_values _ _ _ _ Hs). eapply lookup_lt_Some; eauto. }
  destruct (ascending_intKey _ _ Hasc (node_entry_in_flat _ _ _ _ _ _ _ Hs Hi Hv))
    as [y Hy].
  by exists y.
Qed.

(** [searchNode] on a shaped tree with ascending integer keys: it finds
    the position of a key that is in the tree, and reports a key that is
    not in the tree as not found. *)
Lemma searchNode_flat z lo h : forall slo node,
  shape lo slo h node -> ascending (flat node) ->
  (forall v, mkEntry (VInt z) v ∈ flat node -> searchNode node (VInt z) = Some (v, true)) /\
  ((forall v, mkEntry (VInt z) v ∉ flat node) -> searchNode node (VInt z) = Some (-1, false)).
Proof.
  induction h as [| h IH]; intros slo node Hs Hasc.
  - pose proof (node_keys_int _ _ _ _ Hs Hasc) as Hint.
    pose proof Hs as Hs'. shape_inv Hs. simpl in Hint.
    rewrite searchNode_eq.
    set (i := scanUp (VInt z) ks) in *.
    assert (Hfound : forall k, ks !! i = Some k -> (compare (VInt z) k =? 0) = true ->
      exists v0, vs !! i = Some v0 /\ mkEntry (VInt z) v0 ∈ zip_with mkEntry ks vs).
    { intros k Hk Hcmp.
      destruct (lookup_lt_is_Some_2 vs i) as [v0 Hv0];
        [rewrite Hvs; eapply lookup_lt_Some; eauto |].
      exists v0. split; [done |].
      rewrite Forall_forall in Hint.
      destruct (Hint k) as [y ->]; [eapply list_elem_of_lookup_2; eauto |].
      apply compare_zero in Hcmp. subst y.
      apply (list_elem_of_lookup_2 _ i), lookup_zip_with_Some. eauto. }
    destruct (ks !! i) as [k |] eqn:Hk.
    + destruct (compare (VInt z) k =? 0) eqn:Hcmp.
      * destruct (Hfound k eq_refl Hcmp) as (v0 & Hv0 & Hin). rewrite Hv0.
        cbn [mbind option_bind]. split.
        -- intros v Hv. simpl in Hv.
           by rewrite (ascending_functional _ _ _ _ Hasc Hv Hin).
        -- intros Hnot. exfalso. by apply (Hnot v0).
      * destruct (scanUp_bounds z ks Hint) as [Hlo Hhi].
        { intros k' Hk'. fold i in Hk'. congruence. }
        destruct (leaf_bounds ks vs z i Hvs Hasc) as [Hpre Hpost]; auto.
        { apply scanUp_le. }
        split; [| done]. intros v Hv. exfalso. simpl in Hv.
        rewrite <- (take_drop i (zip_with mkEntry ks vs)) in Hv.
        rewrite Forall_forall in Hpre, Hpost.
        apply elem_of_app in Hv as [Hv | Hv].
        -- by apply (below_not_key z v _ (Hpre _ Hv)).
        -- by apply (above_not_key z v _ (Hpost _ Hv)).
    + destruct (scanUp_bounds z ks Hint) as [Hlo Hhi].
      { intros k' Hk'. fold i in Hk'. congruence. }
      destruct (leaf_bounds ks vs z i Hvs Hasc) as [Hpre Hpost]; auto.
      { apply scanUp_le. }
      split; [| done]. intros v Hv. exfalso. simpl in Hv.
      rewrite <- (take_drop i (zip_with mkEntry ks vs)) in Hv.
      rewrite Forall_forall in Hpre, Hpost.
      apply elem_of_app in Hv as [Hv | Hv].
      -- by apply (below_not_key z v _ (Hpre _ Hv)).
      -- by apply (above_not_key z v _ (Hpost _ Hv)).
  - pose proof (node_keys_int _ _ _ _ Hs Hasc) as Hint.
    pose proof Hs as Hs'. shape_inv Hs. simpl in Hint.
    rewrite searchNode_eq.
    set (i := scanUp (VInt z) ks) in *.
    assert (Hfound : forall k, ks !! i = Some k -> (compare (VInt z) k =? 0) = true ->
      exists v0, vs !! i = Some v0 /\
                 mkEntry (VInt z) v0 ∈ flat (mkNode ks vs cs false)).
    { intros k Hk Hcmp.
      destruct (lookup_lt_is_Some_2 vs i) as [v0 Hv0];
        [rewrite Hvs; eapply lookup_lt_Some; eauto |].
      exists v0. split; [done |].
      rewrite Forall_forall in Hint.
      destruct (Hint k) as [y ->]; [eapply list_elem_of_lookup_2; eauto |].
      apply compare_zero in Hcmp. subst y.
      eapply node_entry_in_flat; eauto. }
    assert (Hdown :
      (forall k, ks !! i = Some k -> (compare (VInt z) k =? 0) = false) ->
      (forall v, mkEntry (VInt z) v ∈ flat (mkNode ks vs cs false) ->
         cs !! i ≫= (fun c => searchNode c (VInt z)) = Some (v, true)) /\
      ((forall v, mkEntry (VInt z) v ∉ flat (mkNode ks vs cs false)) ->
         cs !! i ≫= (fun c => searchNode c (VInt z)) = Some (-1, false))).
    { intros Hne.
      destruct (scanUp_bounds z ks Hint Hne) as [Hlo Hhi].
      destruct (node_descend lo slo h ks vs cs z i Hs' Hasc (scanUp_le _ _) Hlo Hhi)
        as (c & pre & post & Hc & Hcs' & Hflat & _ & _ & Hpre & Hpost).
      rewrite Hc. cbn [mbind option_bind].
      rewrite Hflat in Hasc |- *.
      apply ascending_app in Hasc as (_ & Hasc & _).
      apply ascending_app in Hasc as (Hasc & _ & _).
      destruct (IH lo c Hcs' Hasc) as [IH1 IH2].
      rewrite Forall_forall in Hpre, Hpost. split.
      - intros v Hv. apply IH1.
        apply elem_of_app in Hv as [Hv | Hv];
          [exfalso; by apply (below_not_key z v _ (Hpre _ Hv)) |].
        apply elem_of_app in Hv as [Hv | Hv]; [done |].
        exfalso. by apply (above_not_key z v _ (Hpost _ Hv)).
      - intros Hnot. apply IH2. intros v Hv. apply (Hnot v).
        apply elem_of_app. right. apply elem_of_app. by left. }
    destruct (ks !! i) as [k |] eqn:Hk.
    + destruct (compare (VInt z) k =? 0) eqn:Hcmp.
      * destruct (Hfound k eq_refl Hcmp) as (v0 & Hv0 & Hin). rewrite Hv0.
        cbn [mbind option_bind]. split.
        -- intros v Hv. by rewrite (ascending_functional _ _ _ _ Hasc Hv Hin).
        -- intros Hnot. exfalso. by apply (Hnot v0).
      * apply Hdown. intros k' Hk'. congruence.
    + apply Hdown. intros k' Hk'. congruence.
Qed.

(* ------------------------------------------------------------------ *)
(** ** Insertion keeps the entries in order *)

Lemma glue_cut {A} (j : nat) : forall (fs : list (list A)) (es : list A) (e : A),
  length fs = S (length es) -> es !! j = Some e ->
  glue fs es = glue (take (S j) fs) (take j es) ++ e :: glue (drop (S j) fs) (drop (S j) es).
Proof.
  induction j as [| j IH]; intros fs es e Hlen He;
    destruct fs as [| f fs]; destruct es as [| e0 es]; simpl in *; try done; try lia.
  - inversion He; subst. rewrite ?take_0, ?drop_0. simpl. by rewrite app_nil_r.
  - rewrite (IH fs es e) by (done || lia). by rewrite <- app_assoc.
Qed.

(** Splitting a full child does not change what it lists. *)
Lemma split_flat lo h c mk mv :
  shape lo lo h c -> keys c !! 3%nat = Some mk -> values c !! 3%nat = Some mv ->
  flat c = flat (truncated c) ++ mkEntry mk mv :: flat (newChild c).
Proof.
  intros Hs Hmk Hmv.
  assert (He : zip_with mkEntry (keys c) (values c) !! 3%nat = Some (mkEntry mk mv))
    by (apply lookup_zip_with_Some; eauto).
  destruct h; shape_inv Hs; unfold truncated, newChild; simpl in *;
    change (btreeOrder - 1)%nat with 3%nat.
  - rewrite <- take_zip_with, <- drop_zip_with. by rewrite take_drop_middle.
  - rewrite (glue_cut 3 (map flat cs) (zip_with mkEntry ks vs) (mkEntry mk mv));
      [| rewrite length_map, length_zip_with_l_eq; lia | done].
    by rewrite <- !fmap_take, <- !fmap_drop, take_zip_with, drop_zip_with.
Qed.

Lemma split_node_shape lo slo h ks vs cs i c mk mv :
  shape lo slo (S h) (mkNode ks vs cs false) -> (length ks < 7)%nat ->
  (i <= length ks)%nat ->
  shape lo lo h (truncated c) -> shape lo lo h (newChild c) ->
  shape lo slo (S h)
        (mkNode (take i ks ++ mk :: drop i ks) (take i vs ++ mv :: drop i vs)
                (take i cs ++ truncated c :: newChild c :: drop (S i) cs) false).
Proof.
  intros Hs Hlt Hi HL HR.
  destruct (shape_node_inv _ _ _ _ Hs) as (ks' & vs' & cs' & Heq & Hvs & Hcs & Hb & Hall).
  inversion Heq; subst ks' vs' cs'. clear Heq.
  apply shape_node_intro'; rewrite ?length_app, ?length_take; simpl;
    rewrite ?length_drop; try lia.
  apply Forall_app. split; [apply Forall_take; by apply Forall_forall |].
  apply Forall_cons. split; [done |].
  apply Forall_cons. split; [done |].
  apply Forall_drop. by apply Forall_forall.
Qed.

(** Where [scanDown] stops when the key is not in the node: between a key
    below and a key above. *)
Lemma scanDown_bounds z ks :
  Forall (fun k => exists y, k = VInt y) ks -> VInt z ∉ ks ->
  (forall k, (0 < scanDown (VInt z) ks (length ks))%nat ->
             ks !! (scanDown (VInt z) ks (length ks) - 1)%nat = Some k ->
             exists y, k = VInt y /\ y < z) /\
  (forall k, ks !! scanDown (VInt z) ks (length ks) = Some k ->
             exists y, k = VInt y /\ z < y).
Proof.
  intros Hint Hnot.
  destruct (scanDown_spec (VInt z) ks (length ks)) as [Hafter Hat]. split.
  - intros k Hpos Hk. rewrite Forall_forall in Hint.
    assert (Hin : k ∈ ks) by (eapply list_elem_of_lookup_2; eauto).
    destruct (Hint k Hin) as [y ->]. exists y. split; [done |].
    pose proof (compare_not_neg z y (Hat _ Hpos Hk)).
    destruct (decide (y = z)) as [-> | Hne]; [done | lia].
  - intros k Hk. apply compare_neg.
    apply (Hafter (scanDown (VInt z) ks (length ks))); [| done].
    apply lookup_lt_Some in Hk. lia.
Qed.

(** Putting a new entry between what is below and what is above its key. *)
Lemma ascending_insert z v (pre mid mid' post : list IndexEntry) :
  ascending (pre ++ mid ++ post) -> ascending mid' ->
  mid' ≡ₚ mkEntry (VInt z) v :: mid ->
  Forall (below z) pre -> Forall (above z) post ->
  ascending (pre ++ mid' ++ post) /\
  pre ++ mid' ++ post ≡ₚ mkEntry (VInt z) v :: pre ++ mid ++ post.
Proof.
  intros Hasc Hmid' Hperm Hpre Hpost.
  rewrite Forall_forall in Hpre, Hpost.
  apply ascending_app in Hasc as (Hapre & Hrest & Hcross).
  apply ascending_app in Hrest as (Hamid & Hapost & Hcross').
  split.
  - apply ascending_app. split; [done |]. split.
    + apply ascending_app. split; [done |]. split; [done |].
      intros a b Ha Hb. rewrite Hperm in Ha.
      apply elem_of_cons in Ha as [-> | Ha]; [apply above_entry_lt; auto | auto].
    + intros a b Ha Hb. apply elem_of_app in Hb as [Hb | Hb].
      * rewrite Hperm in Hb.
        apply elem_of_cons in Hb as [-> | Hb]; [apply below_entry_lt; auto |].
        apply Hcross; [done |]. apply elem_of_app. by left.
      * apply Hcross; [done |]. apply elem_of_app. by right.
  - rewrite Hperm. simpl. by rewrite <- Permutation_middle.
Qed.

(** Replacing the child at a position between a key below [z] and a key
    above [z] by one that holds the new entry in addition. *)
Lemma replace_child_flat lo slo h ks vs cs z v j c c' :
  shape lo slo (S h) (mkNode ks vs cs false) ->
  ascending (flat (mkNode ks vs cs false)) ->
  (j <= length ks)%nat ->
  (forall k, (0 < j)%nat -> ks !! (j - 1)%nat = Some k -> exists y, k = VInt y /\ y < z) ->
  (forall k, ks !! j = Some k -> exists y, k = VInt y /\ z < y) ->
  cs !! j = Some c ->
  (ascending (flat c) ->
   (forall e, e ∈ flat c -> e ∈ flat (mkNode ks vs cs false)) ->
   ascending (flat c') /\ flat c' ≡ₚ mkEntry (VInt z) v :: flat c) ->
  ascending (flat (mkNode ks vs (<[j:=c']> cs) false)) /\
  flat (mkNode ks vs (<[j:=c']> cs) false)
    ≡ₚ mkEntry (VInt z) v :: flat (mkNode ks vs cs false).
Proof.
  intros Hs Hasc Hj Hlo Hhi Hc Hc'.
  destruct (node_descend lo slo h ks vs cs z j Hs Hasc Hj Hlo Hhi)
    as (c0 & pre & post & Hc0 & _ & Hflat & Hrepl & _ & Hpre & Hpost).
  assert (c0 = c) as -> by congruence.
  rewrite Hrepl, Hflat. rewrite Hflat in Hasc, Hc'.
  destruct Hc' as [Hasc' Hperm].
  { apply ascending_app in Hasc as (_ & Hasc & _).
    by apply ascending_app in Hasc as (Hasc & _ & _). }
  { intros e He. apply elem_of_app. right. apply elem_of_app. by left. }
  by apply ascending_insert.
Qed.

Lemma lookup_insert_mid {A} (l : list A) (i : nat) (x : A) (rest : list A) :
  (i <= length l)%nat -> (take i l ++ x :: rest) !! i = Some x.
Proof.
  intros Hi. rewrite lookup_app_r; rewrite length_take_le by lia; [| lia].
  by rewrite Nat.sub_diag.
Qed.

Lemma lookup_insert_after {A} (l : list A) (i : nat) (x : A) (rest : list A) :
  (i <= length l)%nat -> (take i l ++ x :: rest) !! S i = rest !! 0%nat.
Proof.
  intros Hi. rewrite lookup_app_r; rewrite length_take_le by lia; [| lia].
  by replace (S i - i)%nat with 1%nat by lia.
Qed.

Lemma lookup_insert_before {A} (l : list A) (i j : nat) (rest : list A) :
  (j < i)%nat -> (i <= length l)%nat -> (take i l ++ rest) !! j = l !! j.
Proof.
  intros Hj Hi. rewrite lookup_app_l by (rewrite length_take_le; lia).
  by apply lookup_take_lt.
Qed.

(** [insertNonFull] on a shaped, ascending tree that does not hold the
    key: the entries of the result are those of the tree and the new one,
    in ascending order. *)
Lemma insertNonFull_flat lo z v :
  (lo <= 3)%nat ->
  forall fuel h slo node node',
    shape lo slo h node -> (length (keys node) < 7)%nat -> (h < fuel)%nat ->
    ascending (flat node) ->
    (forall v', mkEntry (VInt z) v' ∉ flat node) ->
    insertNonFull fuel node (VInt z) v = Some node' ->
    ascending (flat node') /\ flat node' ≡ₚ mkEntry (VInt z) v :: flat node.
Proof.
  intros Hlo. induction fuel as [| fuel IH];
    intros h slo node node' Hs Hlt Hf Hasc Hnot Hins; [lia |].
  pose proof (node_keys_int _ _ _ _ Hs Hasc) as Hint.
  assert (Hkeynot : VInt z ∉ keys node).
  { intros Hin. apply list_elem_of_lookup in Hin as [p Hp].
    destruct (lookup_lt_is_Some_2 (values node) p) as [v' Hv'].
    { rewrite (shape_values _ _ _ _ Hs). eapply lookup_lt_Some; eauto. }
    apply (Hnot v'). eapply node_entry_in_flat; eauto. }
  destruct (scanDown_bounds z (keys node) Hint Hkeynot) as [Hlow Hhigh].
  pose proof (scanDown_le (VInt z) (keys node) (length (keys node))) as Hi.
  pose proof Hs as Hs'.
  destruct h; shape_inv Hs; cbn [keys values children] in *.
  - rewrite insertNonFull_leaf in Hins by done. inversion Hins; subst node'. clear Hins.
    set (i := scanDown (VInt z) ks (length ks)) in *.
    cbn [flat] in *.
    rewrite zip_with_app by (rewrite !length_take; lia).
    cbn [zip_with]. rewrite <- take_zip_with, <- drop_zip_with.
    destruct (leaf_bounds ks vs z i Hvs Hasc Hi Hlow Hhigh) as [Hpre Hpost].
    set (es := zip_with mkEntry ks vs) in *.
    destruct (ascending_insert z v (take i es) [] [mkEntry (VInt z) v] (drop i es))
      as [Hasc' Hperm']; auto.
    + simpl. by rewrite take_drop.
    + apply ascending_singleton. by eexists.
    + simpl in Hasc', Hperm'. by rewrite take_drop in Hperm'.
  - set (i := scanDown (VInt z) ks (length ks)) in *.
    destruct (lookup_lt_is_Some_2 cs i) as [c Hc]; [lia |].
    assert (Hcshape : shape lo lo h c)
      by (apply Hall; eapply list_elem_of_lookup_2; eauto).
    destruct (decide (length (keys c) < 7)%nat) as [Hclt | Hcfull].
    + rewrite (insertNonFull_descend fuel ks vs cs (VInt z) v c Hc Hclt) in Hins.
      destruct (insertNonFull fuel c (VInt z) v) as [c' |] eqn:Hc';
        cbn [mbind option_bind] in Hins; [| done].
      inversion Hins; subst node'. clear Hins. fold i.
      apply (replace_child_flat lo slo h ks vs cs z v i c c' Hs' Hasc Hi Hlow Hhigh Hc).
      intros Hcasc Hsub.
      apply (IH h lo c c' Hcshape Hclt); auto; [lia |].
      intros v' Hv'. apply (Hnot v'). auto.
    + pose proof (shape_keys_bound _ _ _ _ Hcshape) as Hcb.
      destruct (splitChild_shape lo h ks vs cs i c Hlo Hvs Hcs Hc Hcshape)
        as (mk & mv & Hmk & Hmv & Hsplit & HL & HR & HlenL & HlenR); [lia |].
      set (node1 := mkNode (take i ks ++ mk :: drop i ks)
                           (take i vs ++ mv :: drop i vs)
                           (take i cs ++ truncated c :: newChild c :: drop (S i) cs)
                           false) in *.
      assert (Hk : keys node1 !! i = Some mk) by (by apply lookup_insert_mid).
      rewrite (insertNonFull_split fuel ks vs cs (VInt z) v c node1 mk Hc
                 ltac:(lia) Hsplit Hk) in Hins.
      cbv zeta in Hins. fold i in Hins.
      (* the node after the split lists what it listed before *)
      destruct (node_descend lo slo h ks vs cs z i Hs' Hasc Hi Hlow Hhigh)
        as (c0 & pre & post & Hc0 & _ & Hflat & _ & Hflat1 & _ & _).
      assert (c0 = c) as -> by congruence.
      assert (Hsame : flat node1 = flat (mkNode ks vs cs false)).
      { unfold node1. rewrite Hflat1, Hflat.
        by rewrite <- (split_flat lo h c mk mv Hcshape Hmk Hmv). }
      assert (Hs1 : shape lo slo (S h) node1)
        by (apply split_node_shape; auto).
      assert (Hasc1 : ascending (flat node1)) by (by rewrite Hsame).
      (* the middle key is an integer other than the new key *)
      assert (Hmid : exists y, mk = VInt y /\ y <> z).
      { assert (Hin : mkEntry mk mv ∈ flat (mkNode ks vs cs false)).
        { rewrite Hflat. apply elem_of_app. right. apply elem_of_app. left.
          rewrite (split_flat lo h c mk mv Hcshape Hmk Hmv).
          apply elem_of_app. right. apply list_elem_of_here. }
        destruct (ascending_intKey _ _ Hasc Hin) as [y Hy]. simpl in Hy. subst mk.
        exists y. split; [done |]. intros ->. by apply (Hnot mv). }
      destruct Hmid as (y & -> & Hyz).
      set (i1 := if compare (VInt z) (VInt y) >? 0 then S i else i) in *.
      assert (Hbounds1 : (i1 <= length (keys node1))%nat /\
        (forall k, (0 < i1)%nat -> keys node1 !! (i1 - 1)%nat = Some k ->
                   exists y', k = VInt y' /\ y' < z) /\
        (forall k, keys node1 !! i1 = Some k -> exists y', k = VInt y' /\ z < y') /\
        exists c1, children node1 !! i1 = Some c1 /\ (length (keys c1) < 7)%nat).
      { unfold i1, node1. cbn [keys children].
        destruct (compare (VInt z) (VInt y) >? 0) eqn:Hcmp.
        - apply compare_pos in Hcmp as (y' & Hy' & Hlt'). inversion Hy'; subst y'.
          split; [rewrite length_app, length_take; simpl; rewrite length_drop; lia |].
          split; [| split].
          + intros k _ Hk'. replace (S i - 1)%nat with i in Hk' by lia.
            rewrite lookup_insert_mid in Hk' by lia. inversion Hk'; subst. eauto.
          + intros k Hk'. rewrite lookup_insert_after in Hk' by lia.
            rewrite lookup_drop, Nat.add_0_r in Hk'. auto.
          + exists (newChild c). split; [| lia].
            rewrite lookup_insert_after by lia. done.
        - apply compare_not_pos in Hcmp.
          split; [rewrite length_app, length_take; simpl; rewrite length_drop; lia |].
          split; [| split].
          + intros k Hpos Hk'. rewrite lookup_insert_before in Hk' by lia. auto.
          + intros k Hk'. rewrite lookup_insert_mid in Hk' by lia.
            inversion Hk'; subst. exists y. split; [done | lia].
          + exists (truncated c). split; [| lia].
            by rewrite lookup_insert_mid by lia. }
      destruct Hbounds1 as (Hi1 & Hlow1 & Hhigh1 & c1 & Hc1 & Hc1lt).
      rewrite Hc1 in Hins. cbn [mbind option_bind] in Hins.
      destruct (insertNonFull fuel c1 (VInt z) v) as [c' |] eqn:Hc';
        cbn [mbind option_bind] in Hins; [| done].
      inversion Hins; subst node'. clear Hins.
      rewrite <- Hsame.
      apply (replace_child_flat lo slo h _ _ _ z v i1 c1 c' Hs1 Hasc1 Hi1 Hlow1 Hhigh1 Hc1).
      intros Hcasc Hsub.
      assert (Hc1shape : shape lo lo h c1).
      { destruct (shape_node_inv _ _ _ _ Hs1) as (? & ? & cs1 & Heq & _ & _ & _ & Hall1).
        inversion Heq; subst. apply Hall1. eapply list_elem_of_lookup_2; eauto. }
      apply (IH h lo c1 c' Hc1shape Hc1lt); auto; [lia |].
      intros v' Hv'. apply (Hnot v'). rewrite <- Hsame. auto.
Qed.

(** [Insert] of a key the tree holds: refused, the tree is unchanged. *)
Lemma Insert_duplicate lo h bt z v v' :
  shape lo 0 h (root bt) -> ascending (flat (root bt)) ->
  mkEntry (VInt z) v' ∈ flat (root bt) ->
  Insert bt (VInt z) v = Some (bt, Some (DuplicateKey None (VInt z))).
Proof.
  intros Hs Hasc Hin. unfold Insert.
  destruct (searchNode_flat z lo h 0 (root bt) Hs Hasc) as [Hfound _].
  by rewrite (Hfound v' Hin).
Qed.

(** [Insert] of a key the tree does not hold. *)
Lemma Insert_flat lo h bt z v :
  (lo <= 3)%nat ->
  shape lo 0 h (root bt) -> ascending (flat (root bt)) ->
  (forall v', mkEntry (VInt z) v' ∉ flat (root bt)) ->
  exists bt' h',
    Insert bt (VInt z) v = Some (bt', None) /\
    shape lo 0 h' (root bt') /\ ascending (flat (root bt')) /\
    flat (root bt') ≡ₚ mkEntry (VInt z) v :: flat (root bt).
Proof.
  intros Hlo Hs Hasc Hnot. unfold Insert.
  destruct (searchNode_flat z lo h 0 (root bt) Hs Hasc) as [_ Hmiss].
  rewrite (Hmiss Hnot). cbn [mbind option_bind].
  change (2 * btreeOrder - 1)%nat with 7%nat.
  pose proof (shape_keys_bound _ _ _ _ Hs) as Hb.
  destruct (Nat.leb_spec 7 (length (keys (root bt)))) as [Hfull | Hnotfull].
  - assert (Hs' : shape lo lo h (root bt))
      by (apply (shape_strengthen lo 0); [lia | done]).
    destruct (splitChild_shape lo h [] [] [root bt] 0 (root bt) Hlo)
      as (mk & mv & Hmk & Hmv & Hsplit & HL & HR & HlenL & HlenR); auto; [lia |].
    rewrite Hsplit. cbn [mbind option_bind take drop app].
    set (root1 := mkNode [mk] [mv] [truncated (root bt); newChild (root bt)] false).
    assert (Hroot1 : shape lo 0 (S h) root1).
    { apply shape_node_intro; simpl; auto; [lia |].
      intros c Hc. apply elem_of_cons in Hc as [-> | Hc]; [done |].
      apply list_elem_of_singleton in Hc. by subst. }
    assert (Hsame : flat root1 = flat (root bt)).
    { rewrite (split_flat lo h (root bt) mk mv Hs' Hmk Hmv).
      unfold root1. simpl. by rewrite app_nil_r. }
    rewrite (shape_height _ _ _ _ Hroot1).
    destruct (insertNonFull_shape lo (VInt z) v Hlo (S (S h)) (S h) 0 root1 Hroot1)
      as (root2 & Hins & Hroot2); [simpl; lia | lia |].
    rewrite Hins. cbn [mbind option_bind].
    destruct (insertNonFull_flat lo z v Hlo (S (S h)) (S h) 0 root1 root2 Hroot1)
      as [Hasc2 Hperm2]; auto; [simpl; lia | by rewrite Hsame | by rewrite Hsame |].
    exists (mkBTree root2), (S h). rewrite <- Hsame.
    split; [done |]. split; [done |]. split; done.
  - cbn [mbind option_bind]. rewrite (shape_height _ _ _ _ Hs).
    destruct (insertNonFull_shape lo (VInt z) v Hlo (S h) h 0 (root bt) Hs)
      as (root2 & Hins & Hroot2); [lia | lia |].
    rewrite Hins. cbn [mbind option_bind].
    destruct (insertNonFull_flat lo z v Hlo (S h) h 0 (root bt) root2 Hs)
      as [Hasc2 Hperm2]; auto; try lia.
    exists (mkBTree root2), h.
    split; [done |]. split; [done |]. split; done.
Qed.

Lemma InsertAll_flat lo (kvs : list (Z * Z)) : forall bt h,
  (lo <= 3)%nat ->
  shape lo 0 h (root bt) -> ascending (flat (root bt)) ->
  NoDup (kvs.*1) ->
  (forall k v', k ∈ kvs.*1 -> mkEntry (VInt k) v' ∉ flat (root bt)) ->
  exists bt' h',
    InsertAll bt (intEntries kvs) = Some (bt', None) /\
    shape lo 0 h' (root bt') /\ ascending (flat (root bt')) /\
    flat (root bt') ≡ₚ entriesOf kvs ++ flat (root bt).
Proof.
  induction kvs as [| [k v] kvs IH]; intros bt h Hlo Hs Hasc Hnd Hfresh.
  - exists bt, h. split; [done |]. split; [done |]. split; done.
  - simpl in Hnd. apply NoDup_cons in Hnd as [Hk Hnd].
    destruct (Insert_flat lo h bt k v Hlo Hs Hasc)
      as (bt1 & h1 & Hins & Hs1 & Hasc1 & Hperm1).
    { intros v'. apply Hfresh. apply list_elem_of_here. }
    destruct (IH bt1 h1 Hlo Hs1 Hasc1 Hnd) as (bt' & h' & Hall & Hs' & Hasc' & Hperm').
    { intros k' v' Hk' Hin. rewrite Hperm1 in Hin.
      apply elem_of_cons in Hin as [Heq | Hin].
      - inversion Heq; subst. by apply Hk.
      - apply (Hfresh k' v'); [by apply list_elem_of_further | done]. }
    exists bt', h'. split.
    { cbn [intEntries map InsertAll fst snd]. rewrite Hins.
      cbn [mbind option_bind]. exact Hall. }
    split; [done |]. split; [done |].
    rewrite Hperm', Hperm1. cbn [entriesOf map fst snd].
    by rewrite <- Permutation_middle.
Qed.

(** C4. Inserting N pairwise distinct integer keys, in any order and with
    any row positions, into a fresh B-tree succeeds; [GetAll] then returns
    exactly N entries, in strictly ascending key order, each inserted key
    with its inserted position; [Search] finds the position of every
    inserted key and reports not-found for every integer key that was not
    inserted. *)
Theorem insert_GetAll_Search (kvs : list (Z * Z)) :
  NoDup (kvs.*1) ->
  exists bt es,
    InsertAll NewBTree (intEntries kvs) = Some (bt, None) /\
    GetAll bt = Some es /\
    length es = length kvs /\
    ascending es /\
    (forall k v, mkEntry (VInt k) v ∈ es <-> (k, v) ∈ kvs) /\
    (forall k v, (k, v) ∈ kvs -> Search bt (VInt k) = Some (v, true)) /\
    (forall k, k ∉ kvs.*1 -> Search bt (VInt k) = Some (-1, false)).
Proof.
  intros Hnd.
  destruct (InsertAll_flat 3 kvs NewBTree 0) as (bt & h & Hall & Hs & Hasc & Hperm);
    auto using NewBTree_shape, ascending_nil.
  { intros k v' _ Hin. by apply elem_of_nil in Hin. }
  simpl in Hperm. rewrite app_nil_r in Hperm.
  assert (Hmem : forall k v, mkEntry (VInt k) v ∈ flat (root bt) <-> (k, v) ∈ kvs).
  { intros k v. rewrite Hperm. unfold entriesOf. rewrite list_elem_of_fmap. split.
    - intros ([k' v'] & Heq & Hin). by inversion Heq; subst.
    - intros Hin. by exists (k, v). }
  exists bt, (flat (root bt)). split; [done |].
  split; [by apply (traverse_flat 3 h 0) |].
  split; [by rewrite Hperm; unfold entriesOf; rewrite length_map |].
  split; [done |]. split; [done |].
  split.
  - intros k v Hin. unfold Search.
    destruct (searchNode_flat k 3 h 0 (root bt) Hs Hasc) as [Hfound _].
    apply Hfound. by apply Hmem.
  - intros k Hk. unfold Search.
    destruct (searchNode_flat k 3 h 0 (root bt) Hs Hasc) as [_ Hmiss].
    apply Hmiss. intros v Hin. apply Hmem in Hin.
    apply Hk. apply list_elem_of_fmap. by exists (k, v).
Qed.

Lemma insert_GetAll_Search_witness :
  exists bt es,
    InsertAll NewBTree (intEntries [(5, 50); (3, 30); (8, 80)]) = Some (bt, None) /\
    GetAll bt = Some es /\
    length es = 3%nat /\
    ascending es /\
    (forall k v, mkEntry (VInt k) v ∈ es <-> (k, v) ∈ [(5, 50); (3, 30); (8, 80)]) /\
    (forall k v, (k, v) ∈ [(5, 50); (3, 30); (8, 80)] ->
                 Search bt (VInt k) = Some (v, true)) /\
    (forall k, k ∉ [(5, 50); (3, 30); (8, 80)].*1 -> Search bt (VInt k) = Some (-1, false)).
Proof.
  apply (insert_GetAll_Search [(5, 50); (3, 30); (8, 80)]).
  apply (bool_decide_unpack _). vm_compute. reflexivity.
Defined.

(** Outside the integer keys of C4: since [compare] answers 0 across
    dynamic types, a probe of another type "finds" the first key it meets. *)
Lemma Search_cross_type_probe :
  (bt ← (r ← InsertAll NewBTree (intEntries [(1, 10)]); Some r.1);
   Search bt (VString "a")) = Some (10, true).
Proof. reflexivity. Qed.

(** [Delete] of a key held by an internal node answers true and leaves
    the key where it is. *)
Lemma Delete_internal_key_stays :
  (bt ← run (map (fun z => OpInsert (VInt z) z) [1; 2; 3; 4; 5; 6; 7; 8]) NewBTree;
   '(bt', deleted) ← Delete bt (VInt 4);
   found ← Search bt' (VInt 4);
   Some (deleted, found)) = Some (true, (4, true)).
Proof. reflexivity. Qed.

(* ------------------------------------------------------------------ *)
(** ** Deletion, and trees after any operations on integer keys *)

Lemma deleteNode_eq ks vs cs leaf key :
  deleteNode (mkNode ks vs cs leaf) key
  = let descend :=
      if leaf then Some (mkNode ks vs cs leaf, false)
      else
        '(c', r) ← cs !! scanUp key ks ≫= (fun c => deleteNode c key);
        Some (mkNode ks vs (<[scanUp key ks := c']> cs) leaf, r) in
    match ks !! scanUp key ks with
    | Some k =>
        if compare key k =? 0 then
          if leaf then
            if decide (scanUp key ks < length vs)%nat
            then Some (mkNode (delete (scanUp key ks) ks) (delete (scanUp key ks) vs) cs leaf,
                       true)
            else None
          else Some (mkNode ks vs cs leaf, true)
        else descend
    | None => descend
    end.
Proof. simpl. rewrite atIndex_lookup. reflexivity. Qed.

Lemma zip_with_delete {A B C} (f : A -> B -> C) (i : nat) : forall l k,
  zip_with f (delete i l) (delete i k) = delete i (zip_with f l k).
Proof.
  induction i as [| i IH]; intros [| x l] [| y k]; simpl; try done.
  - by destruct l.
  - by rewrite IH.
Qed.

Lemma key_in_list_dec (es : list IndexEntry) (z : Z) :
  (exists v, mkEntry (VInt z) v ∈ es) \/ (forall v, mkEntry (VInt z) v ∉ es).
Proof.
  induction es as [| [k v0] es [[v Hv] | Hnot]].
  - right. intros v Hv. by apply elem_of_nil in Hv.
  - left. exists v. by apply list_elem_of_further.
  - destruct k as [| y | | |];
      try (right; intros v Hv; apply elem_of_cons in Hv as [[=] | Hv]; by apply (Hnot v)).
    destruct (decide (y = z)) as [-> | Hne].
    + left. exists v0. apply list_elem_of_here.
    + right. intros v Hv. apply elem_of_cons in Hv as [[= ? ?] | Hv]; [done |].
      by apply (Hnot v).
Qed.

(** [deleteNode] on a shaped tree with ascending integer keys: it answers
    true exactly for a key of the tree, removes at most the entry of that
    key, and removes it when the node is a leaf. *)
Lemma deleteNode_flat z lo h : forall slo node,
  shape lo slo h node -> ascending (flat node) ->
  exists node' b, deleteNode node (VInt z) = Some (node', b) /\
    (b = true <-> exists v, mkEntry (VInt z) v ∈ flat node) /\
    (b = false -> node' = node) /\
    (exists l1 mid l2,
        flat node = l1 ++ mid ++ l2 /\ flat node' = l1 ++ l2 /\
        (mid = [] \/ exists v, mid = [mkEntry (VInt z) v]) /\
        (isLeaf node = true -> b = true -> mid <> [])).
Proof.
  induction h as [| h IH]; intros slo node Hs Hasc.
  - pose proof (node_keys_int _ _ _ _ Hs Hasc) as Hint.
    pose proof Hs as Hs'. shape_inv Hs. simpl in Hint.
    rewrite deleteNode_eq. cbv zeta.
    set (i := scanUp (VInt z) ks) in *.
    assert (Hmiss : (forall k, ks !! i = Some k -> (compare (VInt z) k =? 0) = false) ->
      exists node' b, Some (mkNode ks vs [] true, false) = Some (node', b) /\
        (b = true <-> exists v, mkEntry (VInt z) v ∈ flat (mkNode ks vs [] true)) /\
        (b = false -> node' = mkNode ks vs [] true) /\
        (exists l1 mid l2,
            flat (mkNode ks vs [] true) = l1 ++ mid ++ l2 /\ flat node' = l1 ++ l2 /\
            (mid = [] \/ exists v, mid = [mkEntry (VInt z) v]) /\
            (isLeaf (mkNode ks vs [] true) = true -> b = true -> mid <> []))).
    { intros Hne. eexists _, _. split; [done |].
      destruct (scanUp_bounds z ks Hint) as [Hlo Hhi]; [exact Hne |].
      destruct (leaf_bounds ks vs z i Hvs Hasc) as [Hpre Hpost]; auto.
      { apply scanUp_le. }
      split; [| split; [done |]].
      - split; [done |]. intros [v Hv]. exfalso. simpl in Hv.
        rewrite <- (take_drop i (zip_with mkEntry ks vs)) in Hv.
        rewrite Forall_forall in Hpre, Hpost.
        apply elem_of_app in Hv as [Hv | Hv].
        + by apply (below_not_key z v _ (Hpre _ Hv)).
        + by apply (above_not_key z v _ (Hpost _ Hv)).
      - exists (flat (mkNode ks vs [] true)), [], []. rewrite !app_nil_r.
        split; [done |]. split; [done |]. split; [by left | done]. }
    destruct (ks !! i) as [k |] eqn:Hk; [| apply Hmiss; intros k' Hk'; congruence].
    destruct (compare (VInt z) k =? 0) eqn:Hcmp;
      [| apply Hmiss; intros k' Hk'; congruence].
    pose proof (lookup_lt_Some _ _ _ Hk) as Hi.
    rewrite decide_True by lia. eexists _, _. split; [done |].
    rewrite Forall_forall in Hint.
    destruct (Hint k) as [y ->]; [eapply list_elem_of_lookup_2; eauto |].
    apply compare_zero in Hcmp. subst y.
    destruct (lookup_lt_is_Some_2 vs i) as [v0 Hv0]; [lia |].
    assert (Hat : zip_with mkEntry ks vs !! i = Some (mkEntry (VInt z) v0))
      by (apply lookup_zip_with_Some; eauto).
    split; [| split; [done |]].
    + split; [| done]. intros _. exists v0. simpl. eapply list_elem_of_lookup_2; eauto.
    + exists (take i (zip_with mkEntry ks vs)), [mkEntry (VInt z) v0],
             (drop (S i) (zip_with mkEntry ks vs)).
      split; [| split; [| split]].
      * simpl. by rewrite <- (take_drop_middle _ _ _ Hat) at 1.
      * simpl. rewrite zip_with_delete. apply delete_take_drop.
      * right. by exists v0.
      * done.
  - pose proof (node_keys_int _ _ _ _ Hs Hasc) as Hint.
    pose proof Hs as Hs'. shape_inv Hs. simpl in Hint.
    rewrite deleteNode_eq. cbv zeta.
    set (i := scanUp (VInt z) ks) in *.
    assert (Hdown : (forall k, ks !! i = Some k -> (compare (VInt z) k =? 0) = false) ->
      exists node' b,
        ('(c', r) ← cs !! i ≫= (fun c => deleteNode c (VInt z));
         Some (mkNode ks vs (<[i := c']> cs) false, r)) = Some (node', b) /\
        (b = true <-> exists v, mkEntry (VInt z) v ∈ flat (mkNode ks vs cs false)) /\
        (b = false -> node' = mkNode ks vs cs false) /\
        (exists l1 mid l2,
            flat (mkNode ks vs cs false) = l1 ++ mid ++ l2 /\ flat node' = l1 ++ l2 /\
            (mid = [] \/ exists v, mid = [mkEntry (VInt z) v]) /\
            (isLeaf (mkNode ks vs cs false) = true -> b = true -> mid <> []))).
    { intros Hne.
      destruct (scanUp_bounds z ks Hint Hne) as [Hlo Hhi].
      destruct (node_descend lo slo h ks vs cs z i Hs' Hasc (scanUp_le _ _) Hlo Hhi)
        as (c & pre & post & Hc & Hcs' & Hflat & Hrepl & _ & Hpre & Hpost).
      rewrite Hc. cbn [mbind option_bind].
      pose proof Hasc as Hasc0. rewrite Hflat in Hasc0.
      apply ascending_app in Hasc0 as (_ & Hasc0 & _).
      apply ascending_app in Hasc0 as (Hascc & _ & _).
      destruct (IH lo c Hcs' Hascc)
        as (c' & b & Hdel & Hb & Hsame & l1 & mid & l2 & Hfc & Hfc' & Hmid & _).
      rewrite Hdel. cbn [mbind option_bind]. eexists _, _. split; [done |].
      rewrite Forall_forall in Hpre, Hpost.
      split; [| split].
      - rewrite Hb, Hflat. split.
        + intros [v Hv]. exists v. apply elem_of_app. right. apply elem_of_app. by left.
        + intros [v Hv]. exists v.
          apply elem_of_app in Hv as [Hv | Hv];
            [exfalso; by apply (below_not_key z v _ (Hpre _ Hv)) |].
          apply elem_of_app in Hv as [Hv | Hv]; [done |].
          exfalso. by apply (above_not_key z v _ (Hpost _ Hv)).
      - intros Hfalse. rewrite (Hsame Hfalse). by rewrite list_insert_id.
      - exists (pre ++ l1), mid, (l2 ++ post).
        split; [| split; [| split; [done | discriminate]]].
        + rewrite Hflat, Hfc. by rewrite <- !app_assoc.
        + rewrite Hrepl, Hfc'. by rewrite <- !app_assoc. }
    destruct (ks !! i) as [k |] eqn:Hk; [| apply Hdown; intros k' Hk'; congruence].
    destruct (compare (VInt z) k =? 0) eqn:Hcmp;
      [| apply Hdown; intros k' Hk'; congruence].
    eexists _, _. split; [done |].
    rewrite Forall_forall in Hint.
    destruct (Hint k) as [y ->]; [eapply list_elem_of_lookup_2; eauto |].
    apply compare_zero in Hcmp. subst y.
    destruct (lookup_lt_is_Some_2 vs i) as [v0 Hv0];
      [rewrite Hvs; eapply lookup_lt_Some; eauto |].
    split; [| split; [done |]].
    + split; [| done]. intros _. exists v0.
      eapply (node_entry_in_flat _ _ _ (mkNode ks vs cs false)); eauto.
    + exists (flat (mkNode ks vs cs false)), [], []. rewrite !app_nil_r.
      split; [done |]. split; [done |]. split; [by left | discriminate].
Qed.

Lemma ascending_remove (l1 mid l2 : list IndexEntry) :
  ascending (l1 ++ mid ++ l2) -> ascending (l1 ++ l2).
Proof.
  intros Hasc. apply ascending_app in Hasc as (H1 & H2 & H12).
  apply ascending_app in H2 as (_ & H2 & _).
  apply ascending_app. split; [done |]. split; [done |].
  intros a b Ha Hb. apply H12; [done |]. apply elem_of_app. by right.
Qed.

Lemma ascending_removed_key (l1 l2 : list IndexEntry) z v0 :
  ascending (l1 ++ [mkEntry (VInt z) v0] ++ l2) ->
  forall v, mkEntry (VInt z) v ∉ l1 ++ l2.
Proof.
  intros Hasc v Hin.
  apply ascending_app in Hasc as (_ & H2 & H12).
  apply ascending_app in H2 as (_ & _ & H23).
  apply elem_of_app in Hin as [Hin | Hin].
  - specialize (H12 _ (mkEntry (VInt z) v0) Hin).
    unfold entry_lt in H12. simpl in H12. specialize (H12 ltac:(apply list_elem_of_here)). lia.
  - specialize (H23 (mkEntry (VInt z) v0) _ ltac:(apply list_elem_of_here) Hin).
    unfold entry_lt in H23. simpl in H23. lia.
Qed.

Lemma ordered_Search (bt : BTree) :
  ordered bt ->
  GetAll bt = Some (flat (root bt)) /\
  forall z,
    (forall v, mkEntry (VInt z) v ∈ flat (root bt) -> Search bt (VInt z) = Some (v, true)) /\
    ((forall v, mkEntry (VInt z) v ∉ flat (root bt)) -> Search bt (VInt z) = Some (-1, false)).
Proof.
  intros (h & Hs & Hasc). split; [by apply (traverse_flat 0 h 0) |].
  intros z. apply (searchNode_flat z 0 h 0 (root bt) Hs Hasc).
Qed.

Lemma NewBTree_ordered : ordered NewBTree.
Proof. exists 0%nat. split; [apply NewBTree_shape | apply ascending_nil]. Qed.

(** What [Insert] does to an ordered tree. *)
Lemma Insert_ordered (bt : BTree) (z v : Z) :
  ordered bt ->
  ((exists v', mkEntry (VInt z) v' ∈ flat (root bt)) /\
   Insert bt (VInt z) v = Some (bt, Some (DuplicateKey None (VInt z)))) \/
  ((forall v', mkEntry (VInt z) v' ∉ flat (root bt)) /\
   exists bt', Insert bt (VInt z) v = Some (bt', None) /\ ordered bt' /\
     flat (root bt') ≡ₚ mkEntry (VInt z) v :: flat (root bt)).
Proof.
  intros (h & Hs & Hasc).
  destruct (key_in_list_dec (flat (root bt)) z) as [[v' Hin] | Hnot].
  - left. split; [by exists v' |]. by apply (Insert_duplicate 0 h bt z v v').
  - right. split; [done |].
    destruct (Insert_flat 0 h bt z v ltac:(lia) Hs Hasc Hnot)
      as (bt' & h' & Hins & Hs' & Hasc' & Hperm).
    exists bt'. split; [done |]. split; [by exists h' | done].
Qed.

(** What [Delete] does to an ordered tree. *)
Lemma Delete_ordered (bt : BTree) (z : Z) :
  ordered bt ->
  exists bt' b, Delete bt (VInt z) = Some (bt', b) /\ ordered bt' /\
    (b = true <-> exists v, mkEntry (VInt z) v ∈ flat (root bt)) /\
    (b = false -> bt' = bt) /\
    (exists l1 mid l2,
        flat (root bt) = l1 ++ mid ++ l2 /\ flat (root bt') = l1 ++ l2 /\
        (mid = [] \/ exists v, mid = [mkEntry (VInt z) v]) /\
        (isLeaf (root bt) = true -> b = true -> mid <> [])).
Proof.
  intros (h & Hs & Hasc). unfold Delete.
  destruct (deleteNode_flat z 0 h 0 (root bt) Hs Hasc)
    as (node' & b & Hdel & Hb & Hsame & l1 & mid & l2 & Hf & Hf' & Hmid & Hleaf).
  destruct (deleteNode_shape (VInt z) h (root bt) Hs) as (node2 & b2 & Hdel2 & Hs2).
  rewrite Hdel in Hdel2. inversion Hdel2; subst node2 b2. clear Hdel2.
  rewrite Hdel. cbn [mbind option_bind]. exists (mkBTree node'), b.
  split; [done |]. split; [| split; [done |]; split].
  - exists h. split; [done |]. simpl. rewrite Hf'. rewrite Hf in Hasc.
    by apply (ascending_remove l1 mid l2).
  - intros Hfalse. rewrite (Hsame Hfalse). by destruct bt.
  - by exists l1, mid, l2.
Qed.

(** X1. [Delete] on a tree of integer keys built by the package's
    operations never panics and keeps the tree ordered. It answers true
    exactly when the key is in the tree; it removes no other entry and
    moves none; when it answers false the tree is unchanged; when the root
    is a leaf the key is gone afterwards, while in a deeper tree the entry
    may stay. Searching any other key gives what it gave before. *)
Theorem Delete_spec (bt : BTree) (z : Z) :
  ordered bt ->
  exists bt' b es es',
    Delete bt (VInt z) = Some (bt', b) /\ ordered bt' /\
    GetAll bt = Some es /\ GetAll bt' = Some es' /\
    (b = true <-> exists v, mkEntry (VInt z) v ∈ es) /\
    (b = false -> bt' = bt) /\
    (es' = es \/ exists l1 v l2, es = l1 ++ mkEntry (VInt z) v :: l2 /\ es' = l1 ++ l2) /\
    (isLeaf (root bt) = true -> Search bt' (VInt z) = Some (-1, false)) /\
    (forall k, k <> z -> Search bt' (VInt k) = Search bt (VInt k)).
Proof.
  intros Hord.
  destruct (Delete_ordered bt z Hord)
    as (bt' & b & Hdel & Hord' & Hb & Hsame & l1 & mid & l2 & Hf & Hf' & Hmid & Hleaf).
  destruct (ordered_Search bt Hord) as [Hall Hsearch].
  destruct (ordered_Search bt' Hord') as [Hall' Hsearch'].
  pose proof Hord as (h & Hs & Hasc).
  exists bt', b, (flat (root bt)), (flat (root bt')).
  split; [done |]. split; [done |]. split; [done |]. split; [done |].
  split; [done |]. split; [done |]. split; [| split].
  - destruct Hmid as [-> | [v ->]].
    + left. by rewrite Hf, Hf'.
    + right. exists l1, v, l2. by rewrite Hf, Hf'.
  - intros Hroot. apply Hsearch'. destruct b.
    + destruct Hmid as [-> | [v ->]]; [by specialize (Hleaf Hroot eq_refl) |].
      rewrite Hf'. rewrite Hf in Hasc. by apply (ascending_removed_key l1 l2 z v).
    + rewrite (Hsame eq_refl). intros v Hv.
      assert (false = true) by (apply Hb; by exists v). done.
  - intros k Hk.
    assert (Hmem : forall v, mkEntry (VInt k) v ∈ flat (root bt')
                             <-> mkEntry (VInt k) v ∈ flat (root bt)).
    { intros v. rewrite Hf, Hf'. rewrite !elem_of_app. split.
      - intros [? | ?]; auto.
      - intros [? | [Hin | ?]]; auto. exfalso.
        destruct Hmid as [-> | [v0 ->]]; [by apply elem_of_nil in Hin |].
        apply list_elem_of_singleton in Hin. inversion Hin. done. }
    destruct (key_in_list_dec (flat (root bt)) k) as [[v Hin] | Hnot].
    + rewrite (proj1 (Hsearch k) v Hin). apply Hsearch'. by apply Hmem.
    + rewrite (proj2 (Hsearch k) Hnot). apply Hsearch'. intros v Hv.
      apply (Hnot v). by apply Hmem.
Qed.

Lemma Delete_spec_witness :
  exists bt' b es es',
    Delete (mkBTree (mkNode [VInt 1; VInt 2] [10; 20] [] true)) (VInt 2) = Some (bt', b) /\
    ordered bt' /\
    GetAll (mkBTree (mkNode [VInt 1; VInt 2] [10; 20] [] true)) = Some es /\
    GetAll bt' = Some es' /\
    (b = true <-> exists v, mkEntry (VInt 2) v ∈ es) /\
    (b = false -> bt' = mkBTree (mkNode [VInt 1; VInt 2] [10; 20] [] true)) /\
    (es' = es \/ exists l1 v l2, es = l1 ++ mkEntry (VInt 2) v :: l2 /\ es' = l1 ++ l2) /\
    (isLeaf (root (mkBTree (mkNode [VInt 1; VInt 2] [10; 20] [] true))) = true ->
     Search bt' (VInt 2) = Some (-1, false)) /\
    (forall k, k <> 2 -> Search bt' (VInt k)
                         = Search (mkBTree (mkNode [VInt 1; VInt 2] [10; 20] [] true)) (VInt k)).
Proof.
  apply (Delete_spec (mkBTree (mkNode [VInt 1; VInt 2] [10; 20] [] true)) 2).
  exists 0%nat. split.
  - apply shape_leaf_intro; simpl; lia.
  - split.
    + repeat constructor; by eexists.
    + repeat constructor; simpl; lia.
Defined.

Lemma Insert_search (bt : BTree) (z v : Z) :
  ordered bt ->
  exists bt' err es es',
    Insert bt (VInt z) v = Some (bt', err) /\ ordered bt' /\
    GetAll bt = Some es /\ GetAll bt' = Some es' /\
    match err with
    | Some e =>
        e = DuplicateKey None (VInt z) /\ bt' = bt /\ exists v', mkEntry (VInt z) v' ∈ es
    | None =>
        (forall v', mkEntry (VInt z) v' ∉ es) /\
        es' ≡ₚ mkEntry (VInt z) v :: es /\
        Search bt' (VInt z) = Some (v, true)
    end /\
    (forall k, k <> z -> Search bt' (VInt k) = Search bt (VInt k)).
Proof.
  intros Hord.
  destruct (ordered_Search bt Hord) as [Hall Hsearch].
  destruct (Insert_ordered bt z v Hord)
    as [[Hin Hins] | (Hnot & bt' & Hins & Hord' & Hperm)].
  - exists bt, (Some (DuplicateKey None (VInt z))), (flat (root bt)), (flat (root bt)).
    split; [done |]. split; [done |]. split; [done |]. split; [done |]. split; done.
  - destruct (ordered_Search bt' Hord') as [Hall' Hsearch'].
    exists bt', None, (flat (root bt)), (flat (root bt')).
    split; [done |]. split; [done |]. split; [done |]. split; [done |]. split.
    + split; [done |]. split; [done |]. apply Hsearch'. rewrite Hperm.
      apply list_elem_of_here.
    + intros k Hk.
      assert (Hmem : forall v0, mkEntry (VInt k) v0 ∈ flat (root bt')
                                <-> mkEntry (VInt k) v0 ∈ flat (root bt)).
      { intros v0. rewrite Hperm, elem_of_cons. split; [| by right].
        intros [[= ?] | ?]; done. }
      destruct (key_in_list_dec (flat (root bt)) k) as [[v0 Hin] | Hnot0].
      * rewrite (proj1 (Hsearch k) v0 Hin). apply Hsearch'. by apply Hmem.
      * rewrite (proj2 (Hsearch k) Hnot0). apply Hsearch'. intros v0 Hv0.
        apply (Hnot0 v0). by apply Hmem.
Qed.

(** X2. [Insert] on a tree of integer keys built by the package's
    operations, deletions included, never panics and keeps the tree
    ordered. A key of the tree is refused with [DuplicateKey] and the tree
    is unchanged; any other key is inserted: afterwards [Search] finds it
    with its position, every other key gives what it gave before, and
    [GetAll] lists the old entries and the new one. *)
Theorem Insert_spec (bt : BTree) (z v : Z) :
  ordered bt ->
  exists bt' err es es',
    Insert bt (VInt z) v = Some (bt', err) /\ ordered bt' /\
    GetAll bt = Some es /\ GetAll bt' = Some es' /\
    match err with
    | Some e =>
        e = DuplicateKey None (VInt z) /\ bt' = bt /\ exists v', mkEntry (VInt z) v' ∈ es
    | None =>
        (forall v', mkEntry (VInt z) v' ∉ es) /\
        es' ≡ₚ mkEntry (VInt z) v :: es /\
        Search bt' (VInt z) = Some (v, true)
    end /\
    (forall k, k <> z -> Search bt' (VInt k) = Search bt (VInt k)).
Proof. apply Insert_search. Qed.

Lemma Insert_spec_witness :
  exists bt' err es es',
    Insert NewBTree (VInt 5) 50 = Some (bt', err) /\ ordered bt' /\
    GetAll NewBTree = Some es /\ GetAll bt' = Some es' /\
    match err with
    | Some e =>
        e = DuplicateKey None (VInt 5) /\ bt' = NewBTree /\
        exists v', mkEntry (VInt 5) v' ∈ es
    | None =>
        (forall v', mkEntry (VInt 5) v' ∉ es) /\
        es' ≡ₚ mkEntry (VInt 5) 50 :: es /\
        Search bt' (VInt 5) = Some (50, true)
    end /\
    (forall k, k <> 5 -> Search bt' (VInt k) = Search NewBTree (VInt k)).
Proof. apply (Insert_spec NewBTree 5 50). apply NewBTree_ordered. Defined.

Lemma run_ordered (ops : list Op) : forall bt,
  Forall intKeyOp ops -> ordered bt -> exists bt', run ops bt = Some bt' /\ ordered bt'.
Proof.
  induction ops as [| op ops IH]; intros bt Hops Hord; simpl; [by exists bt |].
  apply Forall_cons in Hops as [Hop Hops]. destruct op as [key v | key]; destruct Hop as [z ->].
  - destruct (Insert_ordered bt z v Hord) as [[_ Hins] | (_ & bt1 & Hins & Hord1 & _)];
      rewrite Hins; cbn [mbind option_bind]; by apply IH.
  - destruct (Delete_ordered bt z Hord) as (bt1 & b & Hdel & Hord1 & _).
    rewrite Hdel. cbn [mbind option_bind]. by apply IH.
Qed.

(** X3. After any sequence of insertions and deletions of integer keys
    on the empty tree, [GetAll] lists the entries in strictly ascending key
    order, no key twice, and [Search] agrees with it: it finds an integer
    key, with the position listed, exactly when the key is listed, and
    answers not-found otherwise. *)
Theorem operations_keep_order (ops : list Op) :
  Forall intKeyOp ops ->
  exists bt es,
    run ops NewBTree = Some bt /\ GetAll bt = Some es /\ ascending es /\
    forall z v,
      (Search bt (VInt z) = Some (v, true) <-> mkEntry (VInt z) v ∈ es) /\
      (Search bt (VInt z) = Some (-1, false) <-> forall v', mkEntry (VInt z) v' ∉ es).
Proof.
  intros Hops.
  destruct (run_ordered ops NewBTree Hops NewBTree_ordered) as (bt & Hrun & Hord).
  destruct (ordered_Search bt Hord) as [Hall Hsearch].
  pose proof Hord as (h & Hs & Hasc).
  exists bt, (flat (root bt)). split; [done |]. split; [done |]. split; [done |].
  intros z v. destruct (Hsearch z) as [Hfound Hmiss].
  destruct (key_in_list_dec (flat (root bt)) z) as [[v0 Hin] | Hnot].
  - rewrite (Hfound v0 Hin). split.
    + split.
      * intros [= <-]. done.
      * intros Hv. by rewrite (ascending_functional _ _ _ _ Hasc Hv Hin).
    + split; [discriminate |]. intros Hno. by specialize (Hno v0).
  - rewrite (Hmiss Hnot). split.
    + split; [discriminate |]. intros Hv. by specialize (Hnot v).
    + done.
Qed.

Lemma operations_keep_order_witness :
  exists bt es,
    run [OpInsert (VInt 2) 20; OpInsert (VInt 1) 10; OpDelete (VInt 2)] NewBTree = Some bt /\
    GetAll bt = Some es /\ ascending es /\
    forall z v,
      (Search bt (VInt z) = Some (v, true) <-> mkEntry (VInt z) v ∈ es) /\
      (Search bt (VInt z) = Some (-1, false) <-> forall v', mkEntry (VInt z) v' ∉ es).
Proof.
  apply (operations_keep_order [OpInsert (VInt 2) 20; OpInsert (VInt 1) 10; OpDelete (VInt 2)]).
  repeat constructor; by eexists.
Defined.

(* ------------------------------------------------------------------ *)
(** ** The height of a tree built by insertions *)

Lemma glue_length_lower {A} (p : nat) (fs : list (list A)) : forall seps,
  length fs = S (length seps) ->
  Forall (fun f => (p <= length f + 1)%nat) fs ->
  (length fs * p + length seps <= length (glue fs seps) + length fs)%nat.
Proof.
  induction fs as [| f fs IH]; intros seps Hlen Hall; [discriminate |].
  apply Forall_cons in Hall as [Hf Hall]. simpl in Hlen.
  destruct seps as [| e seps]; simpl.
  - destruct fs; [| discriminate]. simpl. rewrite length_app. simpl. lia.
  - specialize (IH seps ltac:(simpl in Hlen; lia) Hall).
    rewrite length_app. simpl. lia.
Qed.

Lemma shape_entries h : forall slo node,
  shape 3 slo h node -> (4 ^ h * (slo + 1) <= length (flat node) + 1)%nat.
Proof.
  induction h as [| h IH]; intros slo node Hs; shape_inv Hs.
  - simpl. rewrite length_zip_with_l_eq by lia. lia.
  - cbn [flat].
    pose proof (glue_length_lower (4 ^ h * 4) (map flat cs) (zip_with mkEntry ks vs)) as Hg.
    rewrite !length_map, length_zip_with_l_eq in Hg by lia.
    specialize (Hg ltac:(lia)).
    assert (Hall' : Forall (fun f : list IndexEntry => (4 ^ h * 4 <= length f + 1)%nat)
                           (map flat cs)).
    { apply Forall_fmap, Forall_forall. intros c Hc. simpl.
      apply (IH 3%nat c). by apply Hall. }
    specialize (Hg Hall'). rewrite Nat.pow_succ_r'. nia.
Qed.

(** X4. A tree built by insertions alone is shallow: every sequence of
    insertions on the empty tree runs without a panic, and the height [h]
    of the tree it leaves and the number [n] of its entries satisfy
    [4^(h-1) <= n+1]. *)
Theorem insertions_keep_height_logarithmic (ops : list Op) :
  forallb isInsert ops = true ->
  exists bt es,
    run ops NewBTree = Some bt /\ GetAll bt = Some es /\
    (4 ^ (height (root bt) - 1) <= length es + 1)%nat.
Proof.
  intros Hins.
  destruct (run_shape 3 ops NewBTree 0) as (bt & h & Hrun & Hs);
    [lia | by right | apply NewBTree_shape |].
  exists bt, (flat (root bt)). split; [done |].
  split; [by apply (traverse_flat 3 h 0) |].
  rewrite (shape_height _ _ _ _ Hs). simpl. rewrite Nat.sub_0_r.
  pose proof (shape_entries h 0 (root bt) Hs). lia.
Qed.

Lemma insertions_keep_height_logarithmic_witness :
  exists bt es,
    run (map (fun z => OpInsert (VInt z) z) [1; 2; 3; 4; 5; 6; 7; 8]) NewBTree = Some bt /\
    GetAll bt = Some es /\
    (4 ^ (height (root bt) - 1) <= length es + 1)%nat.
Proof.
  apply (insertions_keep_height_logarithmic
           (map (fun z => OpInsert (VInt z) z) [1; 2; 3; 4; 5; 6; 7; 8])).
  reflexivity.
Defined.

End BTreeFacts.

(* ================================================================== *)
(** * Schema lookups and value validation *)
(* ================================================================== *)

Section SchemaFacts.

Lemma indexFrom_first (cols : list Column) (name : string) (k : Z) :
  ((name ∉ map Name cols) /\ indexFrom cols name k = -1) \/
  (exists i col, indexFrom cols name k = k + Z.of_nat i /\
     cols !! i = Some col /\ Name col = name /\
     forall j c, (j < i)%nat -> cols !! j = Some c -> Name c <> name).
Proof.
  revert k. induction cols as [| c cols IH]; intros k; simpl.
  - left. split; [apply not_elem_of_nil | done].
  - destruct (String.eqb_spec (Name c) name) as [Heq | Hne].
    + right. exists 0%nat, c. repeat split; [lia | done |]. intros j c' Hj. lia.
    + destruct (IH (k + 1)) as [[Hnot Hidx] | (i & col & Hidx & Hi & Hn & Hfirst)].
      * left. split; [| done]. intros Hin. apply elem_of_cons in Hin as [-> | Hin]; done.
      * right. exists (S i), col. repeat split; [lia | done | done |].
        intros [| j] c' Hj Hc'; simpl in Hc'.
        -- by inversion Hc'; subst.
        -- apply (Hfirst j c'); [lia | done].
Qed.

Lemma columnNamed_indexFrom (cols : list Column) (name : string) (k : Z) :
  match columnNamed cols name with
  | Ok col => exists i, indexFrom cols name k = k + Z.of_nat i /\
                        cols !! i = Some col /\ Name col = name
  | Err e => e = NotFound name /\ indexFrom cols name k = -1
  end.
Proof.
  revert k. induction cols as [| c cols IH]; intros k; simpl; [done |].
  destruct (String.eqb_spec (Name c) name) as [Heq | Hne].
  - exists 0%nat. repeat split; [lia | done].
  - specialize (IH (k + 1)). destruct (columnNamed cols name) as [col | e]; [| done].
    destruct IH as (i & Hidx & Hi & Hn). exists (S i). repeat split; [lia | done | done].
Qed.

(** X5. [GetColumnIndex] and [GetColumn] look a name up alike. For a name
    no column carries the one answers -1 and the other fails with
    [NotFound]; otherwise the one answers the position of the first column
    carrying the name and the other returns that column. *)
Theorem GetColumn_first_match (s : Schema) (name : string) :
  ((name ∉ map Name (Columns s)) /\ GetColumnIndex s name = -1 /\
   GetColumn s name = Err (NotFound name)) \/
  (exists i col, GetColumnIndex s name = Z.of_nat i /\ GetColumn s name = Ok col /\
     Columns s !! i = Some col /\ Name col = name /\
     forall j c, (j < i)%nat -> Columns s !! j = Some c -> Name c <> name).
Proof.
  unfold GetColumn, GetColumnIndex.
  pose proof (columnNamed_indexFrom (Columns s) name 0) as Hcol.
  destruct (indexFrom_first (Columns s) name 0)
    as [[Hnot Hidx] | (i & col & Hidx & Hi & Hn & Hfirst)].
  - left. split; [done |]. split; [done |].
    destruct (columnNamed (Columns s) name) as [col | e].
    + destruct Hcol as (i & Hi & _). lia.
    + by destruct Hcol as [-> _].
  - right. exists i, col. split; [lia |]. split; [| done].
    destruct (columnNamed (Columns s) name) as [col' | e].
    + destruct Hcol as (i' & Hi' & Hc' & _).
      assert (i' = i) as -> by lia. congruence.
    + destruct Hcol as [_ Hminus]. lia.
Qed.

Lemma indexFrom_app (cols : list Column) (col : Column) (name : string) (k : Z) :
  indexFrom (cols ++ [col]) name k =
    if decide (name ∈ map Name cols) then indexFrom cols name k
    else if String.eqb (Name col) name then k + Z.of_nat (length cols) else -1.
Proof.
  revert k. induction cols as [| c cols IH]; intros k; simpl.
  - destruct (String.eqb (Name col) name); [lia | done].
  - destruct (String.eqb_spec (Name c) name) as [Heq | Hne].
    + rewrite decide_True; [done |]. rewrite Heq. apply list_elem_of_here.
    + rewrite IH. destruct (decide (name ∈ map Name cols)) as [Hin | Hnin].
      * rewrite decide_True; [done |]. by apply list_elem_of_further.
      * rewrite decide_False.
        -- destruct (String.eqb (Name col) name); [lia | done].
        -- intros Hin. apply elem_of_cons in Hin as [-> | Hin]; done.
Qed.

(** X6. [AddColumn] appends. A name the schema already has keeps its
    index, so a column added under a name already taken is never found by
    name; a new name is found at the old column count. After any number of
    calls the columns are the old ones and the added ones in order, and
    [PrimaryKeys] and [UniqueKeys] have grown by the names of the added
    columns flagged so, in order. *)
Theorem AddColumn_appends (s : Schema) (col : Column) (cols : list Column) (name : string) :
  GetColumnIndex (AddColumn s col) name =
    (if decide (name ∈ map Name (Columns s)) then GetColumnIndex s name
     else if String.eqb (Name col) name then Z.of_nat (length (Columns s)) else -1) /\
  TableName (fold_left AddColumn cols s) = TableName s /\
  Columns (fold_left AddColumn cols s) = Columns s ++ cols /\
  PrimaryKeys (fold_left AddColumn cols s)
    = PrimaryKeys s ++ map Name (List.filter PrimaryKey cols) /\
  UniqueKeys (fold_left AddColumn cols s)
    = UniqueKeys s ++ map Name (List.filter Unique cols).
Proof.
  split.
  { unfold GetColumnIndex, AddColumn. simpl. rewrite indexFrom_app.
    destruct (decide _); [done |]. destruct (String.eqb _ _); [lia | done]. }
  clear col name. revert s. induction cols as [| c cols IH]; intros s; simpl.
  - by rewrite !app_nil_r.
  - destruct (IH (AddColumn s c)) as (H0 & H1 & H2 & H3).
    rewrite H0, H1, H2, H3. simpl.
    destruct (PrimaryKey c), (Unique c); simpl; rewrite <- ?app_assoc; simpl; done.
Qed.

(** X7. [ValidateValue] accepts exactly the cells the column admits: nil
    unless the column is NOT NULL, and otherwise a value of the column's
    type, with no conversion between types; a text is limited by a
    positive [Size] only. The flags PRIMARY KEY and UNIQUE play no part. *)
Theorem ValidateValue_admits (v : Value) (col : Column) :
  (ValidateValue v col = None <-> admits col v) /\
  (forall e, ValidateValue v col = Some e ->
     (v = VNil /\ e = NullNotAllowed (Name col)) \/
     (v <> VNil /\ e = TypeMismatch (Name col))).
Proof.
  unfold ValidateValue, admits. split.
  - destruct v, (ColType col) eqn:Ht; try (destruct (NotNull col)); simpl;
      try (split; [done | discriminate]); try (split; [discriminate | done]);
      try (split; congruence).
    all: destruct (Z.gtb_spec (Size col) 0) as [Hpos | Hnp]; simpl.
    all: try destruct (Z.gtb_spec (Z.of_nat (String.length s)) (Size col)) as [Hlong | Hfit].
    all: split; try discriminate; try done; try (intros [_ [? | ?]]; lia);
      try (intros [? _]; discriminate).
    all: intros _; split; [done | lia].
  - intros e.
    destruct v, (ColType col); try (destruct (NotNull col)); simpl;
      try discriminate; try (intros [= <-]; (by left) || (by right)).
    all: destruct ((Size col >? 0) && _); try discriminate; intros [= <-]; by right.
Qed.

End SchemaFacts.

(* ================================================================== *)
(** * The index manager *)
(* ================================================================== *)

Section ManagerFacts.

Lemma HasIndex_true (m : Manager.Manager) (t c : string) :
  Manager.HasIndex m t c = true <->
  exists cols bt, Manager.indexes m !! t = Some cols /\ cols !! c = Some bt.
Proof.
  unfold Manager.HasIndex. destruct (Manager.indexes m !! t) as [cols |].
  - rewrite bool_decide_eq_true. split.
    + intros [bt Hbt]. by exists cols, bt.
    + intros (cols' & bt & [= <-] & Hbt). by exists bt.
  - split; [discriminate | by intros (? & ? & ? & _)].
Qed.

Lemma HasIndex_false (m : Manager.Manager) (t c : string) :
  Manager.HasIndex m t c = false <->
  Manager.indexes m !! t = None \/
  exists cols, Manager.indexes m !! t = Some cols /\ cols !! c = None.
Proof.
  unfold Manager.HasIndex. destruct (Manager.indexes m !! t) as [cols |].
  - rewrite bool_decide_eq_false. split.
    + intros Hn. right. exists cols. split; [done |].
      destruct (cols !! c) eqn:E; [| done]. exfalso. apply Hn. by eexists.
    + intros [? | (cols' & [= <-] & Hc)]; [done |]. rewrite Hc. by intros [? ?].
  - split; [by left | done].
Qed.

Lemma pair_neq_cases (t c t' c' : string) :
  (t', c') <> (t, c) -> t' <> t \/ (t' = t /\ c' <> c).
Proof.
  intros Hne. destruct (decide (t' = t)) as [-> | Ht]; [| by left].
  right. split; [done |]. intros ->. by apply Hne.
Qed.

Lemma CreateIndex_cases (m : Manager.Manager) (t c : string) :
  (Manager.HasIndex m t c = true /\
   Manager.CreateIndex m t c = (m, Some (AlreadyExists (t +:+ "." +:+ c)))) \/
  (Manager.HasIndex m t c = false /\
   exists m', Manager.CreateIndex m t c = (m', None) /\
     (forall key, Manager.Search m' t c key = Some (-1, false)) /\
     (forall t' c', Manager.HasIndex m' t' c' =
                    Manager.HasIndex m t' c' || (String.eqb t' t && String.eqb c' c)) /\
     (forall t' c' key, (t', c') <> (t, c) ->
        Manager.Search m' t' c' key = Manager.Search m t' c' key)).
Proof.
  destruct (Manager.HasIndex m t c) eqn:Hhas.
  - left. split; [done |]. apply HasIndex_true in Hhas as (cols & bt & Ht & Hc).
    unfold Manager.CreateIndex. rewrite Ht. simpl. rewrite Ht. simpl. rewrite Hc.
    by destruct m.
  - right. split; [done |].
    set (base := match Manager.indexes m !! t with
                 | Some _ => Manager.indexes m
                 | None => <[t := ∅]> (Manager.indexes m)
                 end).
    set (cols := default ∅ (base !! t)).
    assert (Hfree : cols !! c = None).
    { subst cols base. apply HasIndex_false in Hhas as [Ht | (cols' & Ht & Hc)]; rewrite Ht.
      - by rewrite lookup_insert_eq.
      - rewrite Ht. exact Hc. }
    assert (Hkeep : forall c', c' <> c ->
              cols !! c' = (default ∅ (Manager.indexes m !! t)) !! c').
    { intros c' _. subst cols base. destruct (Manager.indexes m !! t) as [cols' |] eqn:Ht.
      - by rewrite Ht.
      - by rewrite lookup_insert_eq. }
    assert (Hother : forall t', t' <> t -> base !! t' = Manager.indexes m !! t').
    { intros t' Hne. subst base. destruct (Manager.indexes m !! t); [done |].
      by rewrite lookup_insert_ne. }
    exists (Manager.mkManager (<[t := <[c := BTree.NewBTree]> cols]> base)).
    split; [| split; [| split]].
    + unfold Manager.CreateIndex. fold base. fold cols. by rewrite Hfree.
    + intros key. unfold Manager.Search. simpl. by rewrite !lookup_insert_eq.
    + intros t' c'. unfold Manager.HasIndex at 1. simpl.
      destruct (String.eqb_spec t' t) as [-> | Ht'].
      * rewrite lookup_insert_eq. destruct (String.eqb_spec c' c) as [-> | Hc'].
        -- rewrite lookup_insert_eq, orb_true_r. apply bool_decide_eq_true. by eexists.
        -- rewrite lookup_insert_ne by done. rewrite (Hkeep c' Hc'), orb_false_r.
           unfold Manager.HasIndex. destruct (Manager.indexes m !! t); simpl; [done |].
           rewrite lookup_empty. apply bool_decide_eq_false. by intros [? ?].
      * rewrite lookup_insert_ne by done. rewrite (Hother t' Ht'). simpl.
        by rewrite orb_false_r.
    + intros t' c' key Hne. unfold Manager.Search. simpl.
      destruct (pair_neq_cases _ _ _ _ Hne) as [Ht' | [-> Hc']].
      * rewrite lookup_insert_ne by done. by rewrite (Hother t' Ht').
      * rewrite lookup_insert_eq, lookup_insert_ne by done. rewrite (Hkeep c' Hc').
        destruct (Manager.indexes m !! t); simpl; [done |]. by rewrite lookup_empty.
Qed.

Lemma CreateIndex_other_tables (m : Manager.Manager) (t c t' : string) :
  t' <> t ->
  Manager.indexes (Manager.CreateIndex m t c).1 !! t' = Manager.indexes m !! t'.
Proof.
  intros Hne. unfold Manager.CreateIndex.
  destruct (Manager.indexes m !! t) as [cols |] eqn:Ht; simpl.
  - rewrite Ht. simpl. destruct (cols !! c); simpl; [done |]. by rewrite lookup_insert_ne.
  - rewrite lookup_insert_eq. simpl. rewrite lookup_empty. simpl.
    by rewrite !lookup_insert_ne.
Qed.

Lemma GetIndexedColumns_listing (m : Manager.Manager) (t : string) :
  NoDup (Manager.GetIndexedColumns m t) /\
  forall c, c ∈ Manager.GetIndexedColumns m t <-> Manager.HasIndex m t c = true.
Proof.
  unfold Manager.GetIndexedColumns, Manager.HasIndex.
  destruct (Manager.indexes m !! t) as [cols |].
  - split; [apply NoDup_fst_map_to_list |].
    intros c. rewrite bool_decide_eq_true, list_elem_of_fmap. split.
    + intros ([c' bt] & -> & Hin). apply elem_of_map_to_list in Hin. by exists bt.
    + intros [bt Hbt]. exists (c, bt). split; [done |]. by apply elem_of_map_to_list.
  - split; [apply NoDup_nil_2 |]. intros c. split; [| discriminate].
    intros Hin. by apply elem_of_nil in Hin.
Qed.

(** X8. The bookkeeping of the index manager. [CreateIndex] on a column
    that has an index fails with [AlreadyExists] and changes nothing; on
    any other column it succeeds and adds one empty index: the new index
    finds no key, every other index is as it was. [DropIndex] fails with
    [NotFound] and changes nothing when the column has no index; otherwise
    it removes that one index: no index is reported for the column
    afterwards, a search through it misses, and every other index is as it
    was. [GetIndexedColumns] lists, each once, exactly the columns
    [HasIndex] reports an index for. *)
Theorem index_bookkeeping (m : Manager.Manager) (t c : string) :
  ((Manager.HasIndex m t c = true /\
   Manager.CreateIndex m t c = (m, Some (AlreadyExists (t +:+ "." +:+ c)))) \/
  (Manager.HasIndex m t c = false /\
   exists m', Manager.CreateIndex m t c = (m', None) /\
     (forall key, Manager.Search m' t c key = Some (-1, false)) /\
     (forall t' c', Manager.HasIndex m' t' c' =
                    Manager.HasIndex m t' c' || (String.eqb t' t && String.eqb c' c)) /\
     (forall t' c' key, (t', c') <> (t, c) ->
        Manager.Search m' t' c' key = Manager.Search m t' c' key))) /\
  ((Manager.HasIndex m t c = false /\
    exists what, Manager.DropIndex m t c = (m, Some (NotFound what))) \/
   (Manager.HasIndex m t c = true /\
    exists m', Manager.DropIndex m t c = (m', None) /\
      (forall key, Manager.Search m' t c key = Some (-1, false)) /\
      (forall t' c', Manager.HasIndex m' t' c' =
                     Manager.HasIndex m t' c' && negb (String.eqb t' t && String.eqb c' c)) /\
      (forall t' c' key, (t', c') <> (t, c) ->
         Manager.Search m' t' c' key = Manager.Search m t' c' key))) /\
  NoDup (Manager.GetIndexedColumns m t) /\
  (forall c', c' ∈ Manager.GetIndexedColumns m t <-> Manager.HasIndex m t c' = true).
Proof.
  split; [apply CreateIndex_cases |]. split; [| apply GetIndexedColumns_listing].
  destruct (Manager.HasIndex m t c) eqn:Hhas.
  - right. split; [done |]. apply HasIndex_true in Hhas as (cols & bt & Ht & Hc).
    exists (Manager.mkManager (<[t := delete c cols]> (Manager.indexes m))).
    split; [| split; [| split]].
    + unfold Manager.DropIndex. by rewrite Ht, Hc.
    + intros key. unfold Manager.Search. simpl.
      by rewrite lookup_insert_eq, lookup_delete_eq.
    + intros t' c'. unfold Manager.HasIndex. simpl.
      destruct (String.eqb_spec t' t) as [-> | Ht'].
      * rewrite lookup_insert_eq, Ht. destruct (String.eqb_spec c' c) as [-> | Hc'].
        -- rewrite lookup_delete_eq, andb_false_r. apply bool_decide_eq_false. by intros [? ?].
        -- rewrite lookup_delete_ne by done. by rewrite andb_true_r.
      * rewrite lookup_insert_ne by done. simpl. by rewrite andb_true_r.
    + intros t' c' key Hne. unfold Manager.Search. simpl.
      destruct (pair_neq_cases _ _ _ _ Hne) as [Ht' | [-> Hc']].
      * by rewrite lookup_insert_ne.
      * rewrite lookup_insert_eq, Ht. by rewrite lookup_delete_ne.
  - left. split; [done |]. unfold Manager.DropIndex.
    apply HasIndex_false in Hhas as [Ht | (cols & Ht & Hc)]; rewrite Ht.
    + by eexists.
    + rewrite Hc. by eexists.
Qed.




End ManagerFacts.

(* ================================================================== *)
(** * Tables: the invariant, and what the row operations return *)
(* ================================================================== *)

Section TableFacts.

Lemma validateRow_total (cols : list Column) (vals : list Value) (i : nat) :
  length vals = (i + length cols)%nat ->
  (validateRow cols vals i = Some None /\
   forall j col v, cols !! j = Some col -> vals !! (i + j)%nat = Some v ->
                   ValidateValue v col = None) \/
  (exists e j col v, validateRow cols vals i = Some (Some e) /\
     cols !! j = Some col /\ vals !! (i + j)%nat = Some v /\
     ValidateValue v col = Some e).
Proof.
  revert i. induction cols as [| c cols IH]; intros i Hlen; simpl in *.
  - left. split; [done |]. intros j col v Hj. done.
  - destruct (lookup_lt_is_Some_2 vals i) as [v Hv]; [lia |].
    rewrite Hv. simpl. destruct (ValidateValue v c) as [e |] eqn:Hval.
    + right. exists e, 0%nat, c, v. rewrite Nat.add_0_r. done.
    + destruct (IH (S i)) as [[Hok Hall] | (e & j & col & v' & Hr & Hj & Hv' & He)]; [lia | |].
      * left. split; [done |]. intros [| j] col v' Hj Hv'; simpl in Hj.
        -- rewrite Nat.add_0_r in Hv'. by inversion Hj; subst; rewrite Hv in Hv'; inversion Hv'; subst.
        -- apply (Hall j col v' Hj). by replace (S i + j)%nat with (i + S j)%nat by lia.
      * right. exists e, (S j), col, v'. repeat split; try done.
        by replace (i + S j)%nat with (S i + j)%nat by lia.
Qed.

Lemma deleteLoop_filter (f : Row -> bool) (rows : list Row) (count : Z) :
  deleteLoop (fun r => Some (f r)) rows count
  = Some (List.filter (fun r => negb (f r)) rows,
          count + Z.of_nat (length (List.filter f rows))).
Proof.
  revert count. induction rows as [| row rest IH]; intros count; simpl.
  - do 2 f_equal. lia.
  - destruct (f row); simpl; rewrite IH; simpl; do 2 f_equal; lia.
Qed.

Lemma filter_negb_idem {A} (f : A -> bool) (l : list A) :
  List.filter (fun x => negb (f x)) (List.filter (fun x => negb (f x)) l)
  = List.filter (fun x => negb (f x)) l /\
  List.filter f (List.filter (fun x => negb (f x)) l) = [].
Proof.
  induction l as [| x l [IH1 IH2]]; simpl; [done |].
  destruct (f x) eqn:E; simpl; [done |]. rewrite E. simpl. by rewrite IH1, IH2.
Qed.


Lemma filter_const_true {A} (l : list A) : List.filter (fun _ => true) l = l.
Proof. induction l as [| x l IH]; simpl; [done | by rewrite IH]. Qed.

Lemma filter_const_false {A} (l : list A) : List.filter (fun _ => negb true) l = [].
Proof. induction l as [| x l IH]; simpl; done. Qed.

Lemma updateLoop_nil_condition s updates rows count :
  updateLoop s None updates rows count
  = updateLoop s (Some (fun _ => Some true)) updates rows count.
Proof.
  revert count. induction rows as [| row rest IH]; intros count; simpl; [done |].
  destruct (applyUpdates s updates row) as [[row' [e |]] |]; simpl; [done | | done].
  by rewrite IH.
Qed.

Lemma StronglySorted_filter {A} (R : A -> A -> Prop) (f : A -> bool) (l : list A) :
  StronglySorted R l -> StronglySorted R (List.filter f l).
Proof.
  induction 1 as [| x l Hl IH Hx]; simpl; [constructor |].
  destruct (f x); [| done]. constructor; [done |].
  apply Forall_forall. intros y Hy. apply elem_of_filter_bool in Hy as [Hy _].
  rewrite Forall_forall in Hx. by apply Hx.
Qed.

Lemma Forall_filter_bool {A} (P : A -> Prop) (f : A -> bool) (l : list A) :
  Forall P l -> Forall P (List.filter f l).
Proof.
  rewrite !Forall_forall. intros H x Hx. apply elem_of_filter_bool in Hx as [Hx _]. auto.
Qed.

Lemma filter_length_split {A} (f : A -> bool) (l : list A) :
  (length (List.filter f l) + length (List.filter (fun x => negb (f x)) l))%nat = length l.
Proof. induction l as [| x l IH]; simpl; [done |]. destruct (f x); simpl; lia. Qed.

Lemma pkTable_inv : table_inv pkTable.
Proof.
  split; [apply pkTable_wf |]. split.
  - constructor; [apply pkTable_row_valid | constructor].
  - repeat constructor.
Qed.

(** X10. The table invariant is established by the empty table and kept
    by [InsertRow] and [DeleteRows], which never panic on a table that
    satisfies it: the schema stays well formed, every stored row has the
    schema's arity and cells its columns admit, and no two stored rows
    clash in a PRIMARY KEY or UNIQUE column. [InsertRow] either appends the
    row or returns the table it was given with an error; the count
    [DeleteRows] returns is the number of rows that are gone. *)
Theorem table_invariant_kept (t : Table) (row : Row) (f : Row -> bool) :
  table_inv t ->
  table_inv (mkTable (TSchema t) []) /\
  (exists t' err, InsertRow t row = Some (t', err) /\ table_inv t' /\
     match err with
     | None => t' = mkTable (TSchema t) (Rows t ++ [row])
     | Some _ => t' = t
     end) /\
  (exists t' n, DeleteRows t (Some (fun r => Some (f r))) = Some (t', n) /\
     table_inv t' /\ TSchema t' = TSchema t /\
     n + Z.of_nat (length (Rows t')) = Z.of_nat (length (Rows t))).
Proof.
  intros (Hwf & Hvalid & Hkeys). split.
  { destruct Hwf as [Hs _]. repeat split; try apply Hs; constructor. }
  split.
  2: { destruct Hwf as [Hs Har].
       unfold DeleteRows. rewrite deleteLoop_filter. simpl.
       eexists _, _. split; [done |]. simpl. split; [| split; [done |]].
       - split; [split; [done |] | split]; simpl.
         + by apply Forall_filter_bool.
         + by apply Forall_filter_bool.
         + by apply StronglySorted_filter.
       - pose proof (filter_length_split f (Rows t)). lia. }
  assert (Hinv : table_inv t) by done.
  unfold InsertRow.
  destruct (Nat.eqb_spec (length (Values row)) (length (Columns (TSchema t)))) as [Hlen | Hlen];
    simpl; [| by eexists _, _].
  destruct (validateRow_total (Columns (TSchema t)) (Values row) 0 Hlen)
    as [[Hok Hcells] | (e & j & col & v & Hr & _)]; [| rewrite Hr; simpl; by eexists _, _].
  rewrite Hok. simpl.
  pose proof Hwf as [[Hnd [Hpk Huk]] Har]. rewrite Hpk, Huk.
  destruct (checkPrimaryKeys_spec t row Hwf Hlen (List.filter PrimaryKey (Columns (TSchema t))))
    as [[Hpok Hpnone] | (v & i & c & Hdup & _)].
  { intros c Hc. by apply elem_of_filter_bool in Hc as [? _]. }
  2: { rewrite Hdup. simpl. by eexists _, _. }
  rewrite Hpok. simpl.
  destruct (checkUniqueKeys_spec t row Hwf Hlen (List.filter Unique (Columns (TSchema t))))
    as [[Huok Hunone] | (v & i & c & Hdup & _)].
  { intros c Hc. by apply elem_of_filter_bool in Hc as [? _]. }
  2: { rewrite Hdup. simpl. by eexists _, _. }
  rewrite Huok. simpl. eexists _, _. split; [done |]. split; [| done].
  split; [| split]; simpl.
  - split; [by destruct Hwf |]. simpl. apply Forall_app. split; [done |].
    by constructor.
  - apply Forall_app. split; [done |]. constructor; [| constructor].
    split; [done |]. exact Hcells.
  - unfold keys_distinct. simpl. apply StronglySorted_app_2; [| done | repeat constructor].
    intros r row' Hr Hrow'. apply list_elem_of_singleton in Hrow'. subst row'.
    intros i col x y Hcol Hx Hy Hkey.
    destruct (iface_eq x y) eqn:Heq; [exfalso | done].
    assert (Htaken : cell_taken (Rows t) i y) by (by exists r, x).
    destruct Hkey as [Hp | [Hu Hnn]].
    + eapply (Hpnone i col y); eauto. apply elem_of_filter_bool. split; [| done].
      eapply list_elem_of_lookup_2; eauto.
    + eapply (Hunone i col y); eauto. apply elem_of_filter_bool. split; [| done].
      eapply list_elem_of_lookup_2; eauto.
Qed.

Lemma table_invariant_kept_witness :
  table_inv (mkTable (TSchema pkTable) []) /\
  (exists t' err, InsertRow pkTable (mkRow [VInt 2]) = Some (t', err) /\ table_inv t' /\
     match err with
     | None => t' = mkTable (TSchema pkTable) (Rows pkTable ++ [mkRow [VInt 2]])
     | Some _ => t' = pkTable
     end) /\
  (exists t' n,
     DeleteRows pkTable
       (Some (fun r => Some (iface_eq (default VNil (Values r !! 0%nat)) (VInt 1))))
     = Some (t', n) /\
     table_inv t' /\ TSchema t' = TSchema pkTable /\
     n + Z.of_nat (length (Rows t')) = Z.of_nat (length (Rows pkTable))).
Proof.
  apply (table_invariant_kept pkTable (mkRow [VInt 2])
           (fun r => iface_eq (default VNil (Values r !! 0%nat)) (VInt 1))).
  apply pkTable_inv.
Defined.

(** X11. A row that is not valid for the schema is rejected before any
    key is looked at, whatever the table holds: with [ArityMismatch] when
    its length is not the column count, and otherwise with the error
    [ValidateValue] gives for one of its cells. The table is returned as
    it was. *)
Theorem InsertRow_rejects_invalid (t : Table) (row : Row) :
  ~ row_valid (TSchema t) row ->
  exists e, InsertRow t row = Some (t, Some e) /\
    ((length (Values row) <> length (Columns (TSchema t)) /\
      e = ArityMismatch (length (Values row)) (length (Columns (TSchema t)))) \/
     (length (Values row) = length (Columns (TSchema t)) /\
      exists i col v, Columns (TSchema t) !! i = Some col /\ Values row !! i = Some v /\
                      ValidateValue v col = Some e)).
Proof.
  intros Hinvalid. unfold InsertRow.
  destruct (Nat.eqb_spec (length (Values row)) (length (Columns (TSchema t)))) as [Hlen | Hlen];
    simpl; [| eexists; split; [done | by left]].
  destruct (validateRow_total (Columns (TSchema t)) (Values row) 0 Hlen)
    as [[Hok Hcells] | (e & j & col & v & Hr & Hj & Hv & He)].
  - exfalso. apply Hinvalid. split; [done | exact Hcells].
  - rewrite Hr. simpl. exists e. split; [done |]. right. split; [done |].
    by exists j, col, v.
Qed.

Lemma InsertRow_rejects_invalid_witness :
  exists e, InsertRow pkTable (mkRow [VString "a"]) = Some (pkTable, Some e) /\
    ((length (Values (mkRow [VString "a"])) <> length (Columns (TSchema pkTable)) /\
      e = ArityMismatch (length (Values (mkRow [VString "a"])))
                        (length (Columns (TSchema pkTable)))) \/
     (length (Values (mkRow [VString "a"])) = length (Columns (TSchema pkTable)) /\
      exists i col v, Columns (TSchema pkTable) !! i = Some col /\
                      Values (mkRow [VString "a"]) !! i = Some v /\
                      ValidateValue v col = Some e)).
Proof.
  apply (InsertRow_rejects_invalid pkTable (mkRow [VString "a"])).
  intros [_ Hcells]. by specialize (Hcells 0%nat (pkColumn "id") (VString "a") eq_refl eq_refl).
Defined.

(** X12. [DeleteRows] with a condition keeps exactly the rows the
    condition rejects, in their order, and returns the number of rows the
    condition accepts; run again with the same condition it removes
    nothing. The nil condition is the condition that accepts every row: the
    separate path [DeleteRows] has for it, and the test [UpdateRows] makes
    for it, give what the closure that always answers true gives. *)
Theorem DeleteRows_filter (t : Table) (f : Row -> bool) (updates : list (string * Value)) :
  let kept := mkTable (TSchema t) (List.filter (fun r => negb (f r)) (Rows t)) in
  DeleteRows t (Some (fun r => Some (f r)))
    = Some (kept, Z.of_nat (length (List.filter f (Rows t)))) /\
  DeleteRows kept (Some (fun r => Some (f r))) = Some (kept, 0) /\
  DeleteRows t None = DeleteRows t (Some (fun _ => Some true)) /\
  UpdateRows t None updates = UpdateRows t (Some (fun _ => Some true)) updates.
Proof.
  simpl. unfold DeleteRows, UpdateRows. simpl. rewrite !deleteLoop_filter. simpl.
  destruct (filter_negb_idem f (Rows t)) as [-> ->].
  by rewrite filter_const_true, filter_const_false, updateLoop_nil_condition.
Qed.

Lemma setCells_cons s c v rest vals :
  setCells s ((c, v) :: rest) vals
  = setCells s rest (<[Z.to_nat (GetColumnIndex s c) := v]> vals).
Proof. reflexivity. Qed.

Lemma applyUpdates_ok s updates :
  updates_ok s updates ->
  forall row, length (Values row) = length (Columns s) ->
    applyUpdates s updates row = Some (mkRow (setCells s updates (Values row)), None).
Proof.
  induction 1 as [| [c v] rest (i & col & Hidx & Hcol & Hval) _ IH]; intros row Hlen.
  - by destruct row.
  - simpl in Hidx, Hval. rewrite setCells_cons. simpl.
    rewrite Hidx, of_nat_neq_minus_one, Nat2Z.id, Hcol. simpl. rewrite Hval.
    rewrite store_is_Some by (rewrite Hlen; eapply lookup_lt_Some; eauto). simpl.
    rewrite IH; [done |]. simpl. by rewrite length_insert.
Qed.

Lemma updateLoop_ok s (f : Row -> bool) updates rows count :
  updates_ok s updates ->
  Forall (fun r => length (Values r) = length (Columns s)) rows ->
  updateLoop s (Some (fun r => Some (f r))) updates rows count
  = Some (map (fun r => if f r then mkRow (setCells s updates (Values r)) else r) rows,
          count + Z.of_nat (length (List.filter f rows)), None).
Proof.
  intros Hok Har. revert count.
  induction Har as [| row rest Hrow _ IH]; intros count; simpl.
  - do 3 f_equal. lia.
  - destruct (f row); simpl.
    + rewrite (applyUpdates_ok s updates Hok row Hrow). simpl. rewrite IH. simpl.
      do 3 f_equal. lia.
    + rewrite IH. simpl. done.
Qed.

(** X13. [UpdateRows] with updates that name columns of the schema and
    carry values these columns admit succeeds: every row the condition
    accepts holds the new values afterwards, written in the order of the
    updates, every other row is as it was, and the count is the number of
    rows the condition accepts. *)
Theorem UpdateRows_success (t : Table) (f : Row -> bool) (updates : list (string * Value)) :
  Forall (fun r => length (Values r) = length (Columns (TSchema t))) (Rows t) ->
  updates_ok (TSchema t) updates ->
  UpdateRows t (Some (fun r => Some (f r))) updates
  = Some (mkTable (TSchema t)
            (map (fun r => if f r then mkRow (setCells (TSchema t) updates (Values r)) else r)
                 (Rows t)),
          Z.of_nat (length (List.filter f (Rows t))), None).
Proof.
  intros Har Hok. unfold UpdateRows. rewrite updateLoop_ok by done. done.
Qed.

Lemma twoIntTable_updates_ok :
  updates_ok (TSchema twoIntTable) [("b", VInt 7); ("a", VInt 5)]%string.
Proof.
  repeat constructor; simpl.
  - exists 1%nat, (intColumn "b"). done.
  - exists 0%nat, (intColumn "a"). done.
Qed.

Lemma UpdateRows_success_witness :
  UpdateRows twoIntTable (Some (fun r => Some true)) [("b", VInt 7); ("a", VInt 5)]%string
  = Some (mkTable (TSchema twoIntTable) [mkRow [VInt 5; VInt 7]], 1, None).
Proof.
  apply (UpdateRows_success twoIntTable (fun _ => true)
           [("b", VInt 7); ("a", VInt 5)]%string).
  - repeat constructor.
  - apply twoIntTable_updates_ok.
Defined.

Lemma applyUpdates_valid s updates :
  forall row, row_valid s row ->
    exists row' err, applyUpdates s updates row = Some (row', err) /\ row_valid s row'.
Proof.
  induction updates as [| [c v] rest IH]; intros row Hrow; simpl.
  - by eexists _, _.
  - unfold GetColumnIndex.
    destruct (indexFrom_first (Columns s) c 0) as [[_ ->] | (i & col & -> & Hcol & _)];
      simpl; [by eexists _, _ |].
    rewrite Z.add_0_l, of_nat_neq_minus_one, Nat2Z.id, Hcol. simpl.
    destruct (ValidateValue v col) as [e |] eqn:Hval; [by eexists _, _ |].
    destruct Hrow as [Hlen Hcells].
    rewrite store_is_Some by (rewrite Hlen; eapply lookup_lt_Some; eauto). simpl.
    apply IH. split; simpl; [by rewrite length_insert |].
    intros j col' v' Hj Hv'. destruct (decide (j = i)) as [-> | Hne].
    + rewrite list_lookup_insert_eq in Hv' by (rewrite Hlen; eapply lookup_lt_Some; eauto).
      congruence.
    + rewrite list_lookup_insert_ne in Hv' by done. eauto.
Qed.

Lemma updateLoop_valid s cond updates rows :
  Forall (row_valid s) rows ->
  (forall r, r ∈ rows -> is_Some (matches cond r)) ->
  forall count, exists rows' n err,
    updateLoop s cond updates rows count = Some (rows', n, err) /\
    Forall (row_valid s) rows' /\ length rows' = length rows /\
    count <= n <= count + Z.of_nat (length rows).
Proof.
  induction 1 as [| row rest Hrow Hrest IH]; intros Hcond count; simpl.
  - eexists _, _, _. split; [done |]. split; [constructor |]. simpl. lia.
  - destruct (Hcond row) as [m Hm]; [apply list_elem_of_here |]. rewrite Hm. simpl.
    assert (Hcond' : forall r, r ∈ rest -> is_Some (matches cond r))
      by (intros r Hr; apply Hcond; by apply list_elem_of_further).
    destruct m.
    + destruct (applyUpdates_valid s updates row Hrow) as (row' & err & Happ & Hrow').
      rewrite Happ. simpl. destruct err as [e |].
      * eexists _, _, _. split; [done |]. split; [by constructor |]. simpl. lia.
      * destruct (IH Hcond' (count + 1)) as (rows' & n & err & Hloop & Hv & Hl & Hn).
        rewrite Hloop. simpl. eexists _, _, _.
        split; [done |]. split; [by constructor |]. simpl. lia.
    + destruct (IH Hcond' count) as (rows' & n & err & Hloop & Hv & Hl & Hn).
      rewrite Hloop. simpl. eexists _, _, _.
      split; [done |]. split; [by constructor |]. simpl. lia.
Qed.

(** X14. [UpdateRows] never panics on a table whose rows are valid and
    never stores a cell its column does not admit: whether it succeeds or
    stops at an error, the rows stay valid for the schema and their number
    stays the same; the count lies between 0 and the number of rows. *)
Theorem UpdateRows_keeps_validity (t : Table) (cond : Condition)
    (updates : list (string * Value)) :
  Forall (row_valid (TSchema t)) (Rows t) ->
  (forall r, r ∈ Rows t -> is_Some (matches cond r)) ->
  exists t' n err, UpdateRows t cond updates = Some (t', n, err) /\
    TSchema t' = TSchema t /\ Forall (row_valid (TSchema t)) (Rows t') /\
    length (Rows t') = length (Rows t) /\ 0 <= n <= Z.of_nat (length (Rows t)).
Proof.
  intros Hvalid Hcond. unfold UpdateRows.
  destruct (updateLoop_valid (TSchema t) cond updates (Rows t) Hvalid Hcond 0)
    as (rows' & n & err & Hloop & Hv & Hl & Hn).
  rewrite Hloop. simpl. eexists _, _, _. repeat split; try done; lia.
Qed.

Lemma UpdateRows_keeps_validity_witness :
  exists t' n err,
    UpdateRows twoIntTable None [("a", VInt 5); ("b", VString "x")]%string
      = Some (t', n, err) /\
    TSchema t' = TSchema twoIntTable /\
    Forall (row_valid (TSchema twoIntTable)) (Rows t') /\
    length (Rows t') = length (Rows twoIntTable) /\
    0 <= n <= Z.of_nat (length (Rows twoIntTable)).
Proof.
  apply (UpdateRows_keeps_validity twoIntTable None
           [("a", VInt 5); ("b", VString "x")]%string).
  - constructor; [| constructor]. split; [reflexivity |].
    intros [| [| i]] col v Hc Hv; simpl in *; try done;
      by inversion Hc; inversion Hv; subst.
  - intros r _. by eexists.
Defined.

(** X15. [UpdateRows] looks at no key: an update of one column to a value
    the column admits succeeds on every row, whether or not the column is
    a PRIMARY KEY; every row then holds that value, so that a table of two
    or more rows no longer has distinct keys. *)
Theorem UpdateRows_ignores_keys (t : Table) (c : string) (i : nat) (col : Column) (v : Value) :
  Forall (fun r => length (Values r) = length (Columns (TSchema t))) (Rows t) ->
  GetColumnIndex (TSchema t) c = Z.of_nat i ->
  Columns (TSchema t) !! i = Some col ->
  ValidateValue v col = None ->
  exists t', UpdateRows t None [(c, v)] = Some (t', Z.of_nat (length (Rows t)), None) /\
    (forall r, r ∈ Rows t' -> Values r !! i = Some v) /\
    (PrimaryKey col = true -> iface_eq v v = true -> (2 <= length (Rows t))%nat ->
     ~ keys_distinct t').
Proof.
  intros Har Hidx Hcol Hval.
  assert (Hok : updates_ok (TSchema t) [(c, v)]).
  { constructor; [| constructor]. by exists i, col. }
  unfold UpdateRows.
  rewrite updateLoop_nil_condition, (updateLoop_ok _ (fun _ => true) _ _ _ Hok Har).
  simpl. eexists. split; [| split].
  - by rewrite filter_const_true.
  - simpl. intros r Hr. apply list_elem_of_fmap in Hr as (r0 & -> & Hr0). simpl.
    unfold setCells. simpl. rewrite Hidx, Nat2Z.id.
    apply list_lookup_insert_eq. rewrite Forall_forall in Har.
    rewrite (Har r0 Hr0). eapply lookup_lt_Some; eauto.
  - intros Hpk Hvv Htwo Hkeys. unfold keys_distinct in Hkeys. simpl in Hkeys.
    destruct (Rows t) as [| r1 [| r2 rest]]; simpl in Htwo; try lia.
    simpl in Hkeys. apply StronglySorted_cons in Hkeys as [Hfirst _].
    apply Forall_cons in Hfirst as [Hclash _].
    apply Forall_cons in Har as [Hr1 Har]. apply Forall_cons in Har as [Hr2 _].
    assert (Hset : forall r, length (Values r) = length (Columns (TSchema t)) ->
              setCells (TSchema t) [(c, v)] (Values r) !! i = Some v).
    { intros r Hr. unfold setCells. simpl. rewrite Hidx, Nat2Z.id.
      apply list_lookup_insert_eq. rewrite Hr. eapply lookup_lt_Some; eauto. }
    specialize (Hclash i col v v Hcol (Hset r1 Hr1) (Hset r2 Hr2) (or_introl Hpk)).
    congruence.
Qed.

Lemma UpdateRows_ignores_keys_witness :
  exists t',
    UpdateRows (mkTable (TSchema pkTable) [mkRow [VInt 1]; mkRow [VInt 2]]) None
               [("id"%string, VInt 3)]
    = Some (t', Z.of_nat (length [mkRow [VInt 1]; mkRow [VInt 2]]), None) /\
    (forall r, r ∈ Rows t' -> Values r !! 0%nat = Some (VInt 3)) /\
    (PrimaryKey (pkColumn "id") = true -> iface_eq (VInt 3) (VInt 3) = true ->
     (2 <= length [mkRow [VInt 1]; mkRow [VInt 2]])%nat ->
     ~ keys_distinct t').
Proof.
  apply (UpdateRows_ignores_keys
           (mkTable (TSchema pkTable) [mkRow [VInt 1]; mkRow [VInt 2]]) "id" 0
           (pkColumn "id") (VInt 3)).
  - repeat constructor.
  - reflexivity.
  - reflexivity.
  - reflexivity.
Defined.

End TableFacts.

(* ================================================================== *)
(** * The storage engine: creating, dropping, saving and loading *)
(* ================================================================== *)

Section StorageFacts.

(** [saveTable] on a path that can be written, and the ways it fails: the
    file cannot be created, and nothing changes; or a write fails, and the
    file is left with what was written before. *)
Lemma saveTable_writable (s : Storage) (fs : FS) (table : Table) :
  writable s fs (getTableFilePath s (TableName (TSchema table))) ->
  saveTable s fs table
  = (mkFS (<[getTableFilePath s (TableName (TSchema table)) :=
               [GobSchema (TSchema table); GobRows (Rows table)]]> (files fs))
          (denied fs) (quota fs), None).
Proof.
  intros [Hd Hq]. unfold saveTable, Encode. rewrite Hd.
  destruct (quota fs !! _) as [n |]; [| done].
  specialize (Hq n eq_refl). by destruct n as [| [| n]]; [lia | lia |].
Qed.

Lemma saveTable_failure (s : Storage) (fs fs' : FS) (table : Table) (e : error) :
  saveTable s fs table = (fs', Some e) ->
  e = IOError (pathString (getTableFilePath s (TableName (TSchema table)))) /\
  ((createFails s fs (getTableFilePath s (TableName (TSchema table))) = true /\ fs' = fs) \/
   (createFails s fs (getTableFilePath s (TableName (TSchema table))) = false /\
    exists n, quota fs !! getTableFilePath s (TableName (TSchema table)) = Some n /\
      (n < 2)%nat /\
      fs' = mkFS (<[getTableFilePath s (TableName (TSchema table)) :=
                      take n [GobSchema (TSchema table); GobRows (Rows table)]]> (files fs))
                 (denied fs) (quota fs))).
Proof.
  unfold saveTable, Encode.
  destruct (createFails s fs (getTableFilePath s (TableName (TSchema table)))) eqn:Hd.
  - intros [= <- <-]. split; [done |]. by left.
  - destruct (quota fs !! _) as [[| [| n]] |] eqn:Hq; simpl; try discriminate.
    + intros [= <- <-]. split; [done |]. right. split; [done |].
      exists 0%nat. split; [done |]. split; [lia | done].
    + intros [= <- <-]. split; [done |]. right. split; [done |].
      exists 1%nat. split; [done |]. split; [lia | done].
Qed.

Lemma getTableFilePath_dataDir (s s' : Storage) (tn : string) :
  dataDir s' = dataDir s -> getTableFilePath s' tn = getTableFilePath s tn.
Proof. unfold getTableFilePath. by intros ->. Qed.

Lemma createFails_dataDir (s s' : Storage) (fs : FS) (p : Path) :
  dataDir s' = dataDir s -> createFails s' fs p = createFails s fs p.
Proof. unfold createFails, isDir. by intros ->. Qed.

Lemma createFails_denied (s : Storage) (fs : FS) (p : Path) :
  createFails s fs p = false -> p ∉ denied fs.
Proof.
  unfold createFails. intros H. apply orb_false_elim in H as [H _].
  apply orb_false_elim in H as [H _]. by apply bool_decide_eq_false in H.
Qed.

Lemma keyNames_cons (col : Column) (cols : list Column) :
  keyNames (col :: cols) = if isKey col then Name col :: keyNames cols else keyNames cols.
Proof. unfold keyNames. simpl. by destruct (isKey col). Qed.

Lemma createIndexes_other_tables (t t' : string) (cols : list Column) : forall m,
  t' <> t ->
  Manager.indexes (createIndexes m t cols).1 !! t' = Manager.indexes m !! t'.
Proof.
  intros m Hne. revert m. induction cols as [| col cols IH]; intros m; simpl; [done |].
  destruct (PrimaryKey col || Unique col); [| apply IH].
  pose proof (CreateIndex_other_tables m t (Name col) t' Hne) as Hc.
  destruct (Manager.CreateIndex m t (Name col)) as [m1 [e |]]; simpl in *; [done |].
  by rewrite IH.
Qed.

(** The index loop of [CreateTable]: it goes through when the key columns
    have pairwise different names none of which is indexed yet, and then
    adds one empty index per key column; otherwise it stops with
    [AlreadyExists]. *)
Lemma createIndexes_cases (t : string) (cols : list Column) : forall m,
  (NoDup (keyNames cols) /\
   (forall c, c ∈ keyNames cols -> Manager.HasIndex m t c = false) /\
   exists m', createIndexes m t cols = (m', None) /\
     (forall t' c', Manager.HasIndex m' t' c' =
        Manager.HasIndex m t' c' || (String.eqb t' t && bool_decide (c' ∈ keyNames cols))) /\
     (forall t' c' key, Manager.Search m' t' c' key =
        if String.eqb t' t && bool_decide (c' ∈ keyNames cols)
        then Some (-1, false) else Manager.Search m t' c' key)) \/
  (~ (NoDup (keyNames cols) /\
      forall c, c ∈ keyNames cols -> Manager.HasIndex m t c = false) /\
   exists m' c, createIndexes m t cols = (m', Some (AlreadyExists (t +:+ "." +:+ c))) /\
                c ∈ keyNames cols).
Proof.
  induction cols as [| col cols IH]; intros m.
  - left. split; [apply NoDup_nil_2 |]. split; [intros c Hc; by apply elem_of_nil in Hc |].
    exists m. split; [done |]. split.
    + intros t' c'. rewrite bool_decide_eq_false_2 by apply not_elem_of_nil.
      by rewrite andb_false_r, orb_false_r.
    + intros t' c' key. rewrite bool_decide_eq_false_2 by apply not_elem_of_nil.
      by rewrite andb_false_r.
  - rewrite keyNames_cons. simpl. fold (isKey col). destruct (isKey col); [| apply IH].
    destruct (CreateIndex_cases m t (Name col))
      as [[Hhas Hc] | (Hhas & m1 & Hc & Hnew & Hhas1 & Hsearch1)]; rewrite Hc.
    + right. split.
      * intros [_ Hfree]. rewrite Hfree in Hhas; [done | apply list_elem_of_here].
      * exists m, (Name col). split; [done | apply list_elem_of_here].
    + assert (Hm1 : forall c, Manager.HasIndex m1 t c = false <->
                Manager.HasIndex m t c = false /\ c <> Name col).
      { intros c. rewrite Hhas1, String.eqb_refl. simpl.
        destruct (String.eqb_spec c (Name col)) as [-> | Hne].
        - rewrite orb_true_r. split; [done | by intros [_ ?]].
        - rewrite orb_false_r. split; [done | by intros [? _]]. }
      destruct (IH m1) as [(Hnd & Hfree & m' & Hrun & Hhas' & Hsearch')
                          | (Hbad & m' & c & Hrun & Hin)].
      * left. split; [| split].
        -- apply NoDup_cons. split; [| done].
           intros Hin. apply Hfree, Hm1 in Hin as [_ Hne]. done.
        -- intros c Hin. apply elem_of_cons in Hin as [-> | Hin]; [done |].
           by apply Hfree, Hm1 in Hin as [? _].
        -- exists m'. split; [done |]. split.
           ++ intros t' c'. rewrite Hhas', Hhas1.
              destruct (String.eqb_spec t' t) as [-> | Ht']; simpl;
                [| by rewrite !orb_false_r].
              destruct (String.eqb_spec c' (Name col)) as [-> | Hc'].
              ** rewrite (bool_decide_eq_true_2 (_ ∈ _ :: _)) by apply list_elem_of_here.
                 by rewrite !orb_true_r.
              ** rewrite orb_false_r. f_equal. apply bool_decide_ext.
                 rewrite elem_of_cons. split; [by right | by intros [? | ?]].
           ++ intros t' c' key. rewrite Hsearch'.
              destruct (String.eqb_spec t' t) as [-> | Ht']; simpl.
              ** destruct (decide (c' = Name col)) as [-> | Hc'].
                 --- rewrite (bool_decide_eq_true_2 (_ ∈ _ :: _)) by apply list_elem_of_here.
                     rewrite Hnew. by destruct (bool_decide _).
                 --- rewrite (bool_decide_ext (c' ∈ Name col :: keyNames cols)
                                              (c' ∈ keyNames cols))
                       by (rewrite elem_of_cons; split; [by intros [? | ?] | by right]).
                     destruct (bool_decide _); [done |].
                     apply Hsearch1. intros [= ?]. done.
              ** apply Hsearch1. intros [= ? ?]. done.
      * right. split.
        -- intros [Hnd Hfree]. apply NoDup_cons in Hnd as [Hnotin Hnd]. apply Hbad.
           split; [done |]. intros c' Hc'. apply Hm1. split.
           ++ apply Hfree. by apply list_elem_of_further.
           ++ intros ->. done.
        -- exists m', c. split; [done |]. by apply list_elem_of_further.
Qed.

(** X16. [CreateTable] of a table whose name is free, whose key columns
    have pairwise different names with no index left over under the
    table's name, and whose file can be written, succeeds: the table is
    registered without rows, its file holds the schema and no rows, and
    one empty index exists for every PRIMARY KEY or UNIQUE column and for
    no other column of the table; other tables, files and indexes are as
    they were. *)
Theorem CreateTable_success (s : Storage) (fs : FS) (schema : Schema) :
  tables s !! TableName schema = None ->
  NoDup (keyNames (Columns schema)) ->
  (forall c, c ∈ keyNames (Columns schema) ->
     Manager.HasIndex (indexMgr s) (TableName schema) c = false) ->
  writable s fs (getTableFilePath s (TableName schema)) ->
  exists s' fs', CreateTable s fs schema = (s', fs', None) /\
    dataDir s' = dataDir s /\
    tables s' = <[TableName schema := mkTable schema []]> (tables s) /\
    files fs' = <[getTableFilePath s (TableName schema) := [GobSchema schema; GobRows []]]>
                  (files fs) /\
    denied fs' = denied fs /\ quota fs' = quota fs /\
    (forall t' c', Manager.HasIndex (indexMgr s') t' c' =
       Manager.HasIndex (indexMgr s) t' c'
       || (String.eqb t' (TableName schema) && bool_decide (c' ∈ keyNames (Columns schema)))) /\
    (forall t' c' key, Manager.Search (indexMgr s') t' c' key =
       if String.eqb t' (TableName schema) && bool_decide (c' ∈ keyNames (Columns schema))
       then Some (-1, false) else Manager.Search (indexMgr s) t' c' key).
Proof.
  intros Hfree Hnd Hnoidx Hw. unfold CreateTable. rewrite Hfree.
  destruct (createIndexes_cases (TableName schema) (Columns schema) (indexMgr s))
    as [(_ & _ & m' & Hrun & Hhas & Hsearch) | [Hbad _]]; [| exfalso; by apply Hbad].
  rewrite Hrun. rewrite (saveTable_writable s fs (mkTable schema []) Hw).
  eexists _, _. split; [done |]. simpl. done.
Qed.

Lemma CreateTable_success_witness :
  exists s' fs',
    CreateTable emptyStorage emptyFS (AddColumn (NewSchema "t") (pkColumn "id"))
      = (s', fs', None) /\
    dataDir s' = dataDir emptyStorage /\
    tables s' = <[TableName (AddColumn (NewSchema "t") (pkColumn "id")) :=
                    mkTable (AddColumn (NewSchema "t") (pkColumn "id")) []]>
                  (tables emptyStorage) /\
    files fs' = <[getTableFilePath emptyStorage
                    (TableName (AddColumn (NewSchema "t") (pkColumn "id"))) :=
                    [GobSchema (AddColumn (NewSchema "t") (pkColumn "id")); GobRows []]]>
                  (files emptyFS) /\
    denied fs' = denied emptyFS /\ quota fs' = quota emptyFS /\
    (forall t' c', Manager.HasIndex (indexMgr s') t' c' =
       Manager.HasIndex (indexMgr emptyStorage) t' c'
       || (String.eqb t' (TableName (AddColumn (NewSchema "t") (pkColumn "id")))
           && bool_decide (c' ∈ keyNames (Columns (AddColumn (NewSchema "t") (pkColumn "id")))))) /\
    (forall t' c' key, Manager.Search (indexMgr s') t' c' key =
       if String.eqb t' (TableName (AddColumn (NewSchema "t") (pkColumn "id")))
          && bool_decide (c' ∈ keyNames (Columns (AddColumn (NewSchema "t") (pkColumn "id"))))
       then Some (-1, false) else Manager.Search (indexMgr emptyStorage) t' c' key).
Proof.
  apply (CreateTable_success emptyStorage emptyFS (AddColumn (NewSchema "t") (pkColumn "id"))).
  - reflexivity.
  - apply (bool_decide_unpack _). vm_compute. reflexivity.
  - intros c _. reflexivity.
  - split; [vm_compute; reflexivity | intros n Hn; vm_compute in Hn; discriminate].
Defined.

(** X17. The ways [CreateTable] fails, and what a failure leaves. The
    name is taken ([AlreadyExists]); or an index of the table cannot be
    created because a key column name is repeated or already indexed; or
    the file cannot be created (the permissions refuse it, its directory
    is missing, or a directory is in its place): in these cases the file
    system is what it was. Or the file is created and writing to it
    fails: the file is then left with what was written before the
    failure, nothing or the schema alone. In each case the registered
    tables are what they were before the call. *)
Theorem CreateTable_failure_modes (s : Storage) (fs : FS) (schema : Schema)
    (s' : Storage) (fs' : FS) (e : error) :
  CreateTable s fs schema = (s', fs', Some e) ->
  tables s' = tables s /\ dataDir s' = dataDir s /\
  ((is_Some (tables s !! TableName schema) /\ e = AlreadyExists (TableName schema) /\
    s' = s /\ fs' = fs) \/
   (tables s !! TableName schema = None /\ fs' = fs /\
    ~ (NoDup (keyNames (Columns schema)) /\
       forall c, c ∈ keyNames (Columns schema) ->
                 Manager.HasIndex (indexMgr s) (TableName schema) c = false) /\
    exists c, c ∈ keyNames (Columns schema) /\
      e = Wrapped "failed to create index" (AlreadyExists (TableName schema +:+ "." +:+ c))) \/
   (tables s !! TableName schema = None /\ fs' = fs /\
    createFails s fs (getTableFilePath s (TableName schema)) = true /\
    e = Wrapped "failed to save table"
                (IOError (pathString (getTableFilePath s (TableName schema))))) \/
   (tables s !! TableName schema = None /\
    createFails s fs (getTableFilePath s (TableName schema)) = false /\
    (exists n, quota fs !! getTableFilePath s (TableName schema) = Some n /\ (n < 2)%nat /\
       fs' = mkFS (<[getTableFilePath s (TableName schema) :=
                       take n [GobSchema schema; GobRows []]]> (files fs))
                  (denied fs) (quota fs)) /\
    e = Wrapped "failed to save table"
                (IOError (pathString (getTableFilePath s (TableName schema)))))).
Proof.
  unfold CreateTable. destruct (tables s !! TableName schema) as [t0 |] eqn:Hfree.
  - intros [= <- <- <-]. split; [done |]. split; [done |]. left. by eauto.
  - destruct (createIndexes_cases (TableName schema) (Columns schema) (indexMgr s))
      as [(_ & _ & m' & Hrun & _) | (Hbad & m' & c & Hrun & Hin)]; rewrite Hrun.
    + destruct (saveTable s fs (mkTable schema [])) as [fs1 [e1 |]] eqn:Hsave;
        [| discriminate].
      intros [= <- <- <-]. simpl.
      split; [by apply delete_insert_id |]. split; [done |].
      apply saveTable_failure in Hsave as [-> [[Hd ->] | (Hd & n & Hq & Hn & ->)]];
        simpl in *.
      * right. right. left. done.
      * right. right. right. split; [done |]. split; [done |]. split; [| done].
        by exists n.
    + intros [= <- <- <-]. simpl.
      split; [by apply delete_insert_id |]. split; [done |]. right. left.
      split; [done |]. split; [done |]. split; [done |]. by exists c.
Qed.

Lemma CreateTable_failure_modes_witness :
  let schema := AddColumn (NewSchema "t") (pkColumn "id") in
  let e := Wrapped "failed to save table" (IOError "data/t.tbl") in
  let s' := (CreateTable emptyStorage shortFS schema).1.1 in
  let fs' := mkFS {[ tPath := [GobSchema schema] ]} ∅ {[ tPath := 1%nat ]} in
  tables s' = tables emptyStorage /\ dataDir s' = dataDir emptyStorage /\
  ((is_Some (tables emptyStorage !! TableName schema) /\
    e = AlreadyExists (TableName schema) /\ s' = emptyStorage /\ fs' = shortFS) \/
   (tables emptyStorage !! TableName schema = None /\ fs' = shortFS /\
    ~ (NoDup (keyNames (Columns schema)) /\
       forall c, c ∈ keyNames (Columns schema) ->
                 Manager.HasIndex (indexMgr emptyStorage) (TableName schema) c = false) /\
    exists c, c ∈ keyNames (Columns schema) /\
      e = Wrapped "failed to create index" (AlreadyExists (TableName schema +:+ "." +:+ c))) \/
   (tables emptyStorage !! TableName schema = None /\ fs' = shortFS /\
    createFails emptyStorage shortFS (getTableFilePath emptyStorage (TableName schema))
      = true /\
    e = Wrapped "failed to save table"
                (IOError (pathString (getTableFilePath emptyStorage (TableName schema))))) \/
   (tables emptyStorage !! TableName schema = None /\
    createFails emptyStorage shortFS (getTableFilePath emptyStorage (TableName schema))
      = false /\
    (exists n, quota shortFS !! getTableFilePath emptyStorage (TableName schema) = Some n /\
       (n < 2)%nat /\
       fs' = mkFS (<[getTableFilePath emptyStorage (TableName schema) :=
                       take n [GobSchema schema; GobRows []]]> (files shortFS))
                  (denied shortFS) (quota shortFS)) /\
    e = Wrapped "failed to save table"
                (IOError (pathString (getTableFilePath emptyStorage (TableName schema)))))).
Proof.
  apply (CreateTable_failure_modes emptyStorage shortFS
           (AddColumn (NewSchema "t") (pkColumn "id"))).
  reflexivity.
Defined.



(** X19. Creating a table and dropping it again undoes the creation: on
    a storage that has no table, no index and no file under the name, and
    in which the file can be written, [CreateTable] followed by
    [DropTable] succeeds and gives back the storage and the file system
    as they were. *)
Theorem CreateTable_then_DropTable (s : Storage) (fs : FS) (schema : Schema) :
  tables s !! TableName schema = None ->
  Manager.indexes (indexMgr s) !! TableName schema = None ->
  files fs !! getTableFilePath s (TableName schema) = None ->
  writable s fs (getTableFilePath s (TableName schema)) ->
  NoDup (keyNames (Columns schema)) ->
  exists s1 fs1, CreateTable s fs schema = (s1, fs1, None) /\
    TableExists s1 (TableName schema) = true /\
    DropTable s1 fs1 (TableName schema) = (s, fs, None).
Proof.
  intros Hfree Hnoidx Hnofile Hw Hnd. unfold CreateTable. rewrite Hfree.
  pose proof (createIndexes_other_tables (TableName schema)) as Hother.
  destruct (createIndexes_cases (TableName schema) (Columns schema) (indexMgr s))
    as [(_ & _ & m' & Hrun & _) | [Hbad _]].
  2: { exfalso. apply Hbad. split; [done |]. intros c _.
       unfold Manager.HasIndex. by rewrite Hnoidx. }
  rewrite Hrun. rewrite (saveTable_writable s fs (mkTable schema []) Hw).
  destruct Hw as [Hd Hq]. apply createFails_denied in Hd.
  eexists _, _. split; [done |]. split.
  - unfold TableExists. simpl. rewrite lookup_insert_eq. apply bool_decide_eq_true. by eexists.
  - unfold DropTable. simpl. rewrite lookup_insert_eq.
    rewrite !(getTableFilePath_dataDir s (mkStorage (dataDir s) _ _) _ eq_refl).
    rewrite lookup_insert_eq.
    rewrite bool_decide_eq_false_2 by done.
    rewrite !delete_insert_id by done.
    assert (Hm : Manager.DropTableIndexes m' (TableName schema) = indexMgr s).
    { unfold Manager.DropTableIndexes.
      assert (Hidx : delete (TableName schema) (Manager.indexes m')
                     = Manager.indexes (indexMgr s)).
      { apply map_eq. intros t'. destruct (decide (t' = TableName schema)) as [-> | Hne].
        - by rewrite lookup_delete_eq, Hnoidx.
        - rewrite lookup_delete_ne by done.
          specialize (Hother t' (Columns schema) (indexMgr s) Hne).
          by rewrite Hrun in Hother. }
      rewrite Hidx. by destruct (indexMgr s). }
    rewrite Hm. by destruct s, fs.
Qed.

Lemma CreateTable_then_DropTable_witness :
  exists s1 fs1,
    CreateTable emptyStorage emptyFS (AddColumn (NewSchema "t") (pkColumn "id"))
      = (s1, fs1, None) /\
    TableExists s1 (TableName (AddColumn (NewSchema "t") (pkColumn "id"))) = true /\
    DropTable s1 fs1 (TableName (AddColumn (NewSchema "t") (pkColumn "id")))
      = (emptyStorage, emptyFS, None).
Proof.
  apply (CreateTable_then_DropTable emptyStorage emptyFS
           (AddColumn (NewSchema "t") (pkColumn "id"))).
  - reflexivity.
  - reflexivity.
  - reflexivity.
  - split; [vm_compute; reflexivity | intros n Hn; vm_compute in Hn; discriminate].
  - apply (bool_decide_unpack _). vm_compute. reflexivity.
Defined.

(** X20. [ListTables] lists, each once, exactly the names [TableExists]
    accepts and [GetTable] finds. *)
Theorem ListTables_TableExists (s : Storage) :
  NoDup (ListTables s) /\
  forall n, (n ∈ ListTables s <-> TableExists s n = true) /\
            (n ∈ ListTables s <-> exists t, GetTable s n = Ok t).
Proof.
  unfold ListTables, TableExists, GetTable. split; [apply NoDup_fst_map_to_list |].
  intros n. rewrite bool_decide_eq_true, list_elem_of_fmap.
  assert (Hin : (exists y : string * Table, n = y.1 /\ y ∈ map_to_list (tables s))
                <-> is_Some (tables s !! n)).
  { split.
    - intros ([n' t] & -> & Hin). apply elem_of_map_to_list in Hin. by exists t.
    - intros [t Ht]. exists (n, t). split; [done |]. by apply elem_of_map_to_list. }
  split; [exact Hin |]. rewrite Hin. split.
  - intros [t Ht]. rewrite Ht. by exists t.
  - intros [t Ht]. destruct (tables s !! n); [by eexists | discriminate].
Qed.

End StorageFacts.

(* ================================================================== *)
(** * Saving every table, and starting on what was saved *)
(* ================================================================== *)

Section StartupFacts.

Lemma getTableFilePath_inj (s : Storage) (a b : string) :
  slashFree a = true -> slashFree b = true ->
  getTableFilePath s a = getTableFilePath s b -> a = b.
Proof.
  intros Ha Hb. unfold getTableFilePath.
  rewrite !Join_entry by by apply tbl_entryNameOk.
  intros [= H]. apply app_inj_tail in H as [_ H].
  rewrite <- (tableName_of_path a), <- (tableName_of_path b). simpl.
  by rewrite H.
Qed.

Lemma loadTable_Ok (s : Storage) (fs : FS) (tn : string) (table : Table) :
  loadTable s fs tn = Ok table <->
  exists rest, files fs !! getTableFilePath s tn
               = Some (GobSchema (TSchema table) :: GobRows (Rows table) :: rest).
Proof.
  unfold loadTable. destruct (files fs !! getTableFilePath s tn) as [f |].
  - destruct f as [| [schema | rows] f1]; try (split; [discriminate | by intros [? [=]]]).
    destruct f1 as [| [schema' | rows] f2]; try (split; [discriminate | by intros [? [=]]]).
    split.
    + intros [= <-]. by exists f2.
    + intros [rest [= -> -> _]]. by destruct table.
  - split; [discriminate | by intros [? [=]]].
Qed.

Lemma loadTable_decodable (s : Storage) (fs : FS) (tn : string) :
  (exists table, loadTable s fs tn = Ok table) <->
  exists f, files fs !! getTableFilePath s tn = Some f /\ decodable f.
Proof.
  split.
  - intros [table Hl]. apply loadTable_Ok in Hl as [rest Hf].
    eexists. split; [exact Hf |]. by eexists _, _, _.
  - intros (f & Hf & schema & rows & rest & ->). exists (mkTable schema rows).
    apply loadTable_Ok. by exists rest.
Qed.

(** The loop of [loadTables] goes through exactly when every listed name
    ending in [.tbl] is a file that can be decoded. *)
Lemma loadFiles_ok_iff (s : Storage) (fs : FS) (names : list string) : forall tbls,
  (exists tbls', loadFiles s fs names tbls = (tbls', None)) <->
  (forall name, name ∈ names -> hasTblExt name = true ->
     exists f, files fs !! Join (dataDir s) name = Some f /\ decodable f).
Proof.
  induction names as [| name rest IH]; intros tbls; simpl.
  - split; [| by eexists]. intros _ name Hin. by apply elem_of_nil in Hin.
  - destruct (hasTblExt name) eqn:Hext; simpl.
    + pose proof (path_of_tableName name Hext) as Hname.
      set (tableName := String.substring 0 (String.length name - 4) name) in *.
      assert (Hpath : getTableFilePath s tableName = Join (dataDir s) name)
        by (unfold getTableFilePath; by rewrite <- Hname).
      destruct (loadTable s fs tableName) as [table | e] eqn:Hload.
      * rewrite IH. split.
        -- intros Hrest n Hin Hn. apply elem_of_cons in Hin as [-> | Hin]; [| by apply Hrest].
           rewrite <- Hpath. apply loadTable_decodable. by exists table.
        -- intros Hall n Hin. apply Hall. by apply list_elem_of_further.
      * split; [by intros [? [=]] |]. intros Hall. exfalso.
        destruct (Hall name) as (f & Hf & Hdec); [apply list_elem_of_here | done |].
        assert (Hex : exists table, loadTable s fs tableName = Ok table).
        { apply loadTable_decodable. exists f. by rewrite Hpath. }
        destruct Hex as [table Ht]. congruence.
    + rewrite IH. split.
      * intros Hrest n Hin Hn. apply elem_of_cons in Hin as [-> | Hin]; [congruence |].
        by apply Hrest.
      * intros Hall n Hin. apply Hall. by apply list_elem_of_further.
Qed.

Lemma NewStorage_startup (dir : string) (fs : FS) :
  ((exists s, NewStorage dir fs = Ok s) <-> dir <> EmptyString /\ all_decodable dir fs) /\
  (forall s, NewStorage dir fs = Ok s ->
     dataDir s = dir /\ indexMgr s = Manager.NewManager /\
     forall tn table,
       tables s !! tn = Some table <->
       slashFree tn = true /\
       exists rest, files fs !! getTableFilePath s tn
                    = Some (GobSchema (TSchema table) :: GobRows (Rows table) :: rest)).
Proof.
  unfold NewStorage, loadTables.
  destruct (String.eqb_spec dir EmptyString) as [-> | Hdir].
  { split; [| discriminate]. split; [by intros [? [=]] | by intros [? _]]. }
  cbn [dataDir tables indexMgr].
  set (s0 := mkStorage dir ∅ Manager.NewManager).
  pose proof (loadFiles_ok_iff s0 fs (ReadDir fs dir) ∅) as Hiff.
  change (dataDir s0) with dir in Hiff. fold (all_decodable dir fs) in Hiff.
  destruct (loadFiles s0 fs (ReadDir fs dir) ∅) as [tbls [e |]] eqn:Hload.
  - split; [| discriminate].
    split; [by intros [? [=]] |]. intros [_ Hall]. exfalso.
    apply Hiff in Hall as [tbls' [=]].
  - split.
    + split; [| by eexists]. intros _. split; [done |]. apply Hiff. by eexists.
    + intros s [= <-]. cbn [dataDir tables indexMgr].
      split; [done |]. split; [done |]. intros tn table.
      rewrite (loadFiles_lookup _ _ _ _ _ Hload).
      change (getTableFilePath (mkStorage dir tbls Manager.NewManager) tn)
        with (getTableFilePath s0 tn).
      rewrite <- loadTable_Ok.
      destruct (decide ((tn +:+ ".tbl") ∈ ReadDir fs dir)) as [Hin | Hnin].
      * apply elem_of_ReadDir in Hin as [Hok _]. rewrite entryNameOk_tbl in Hok.
        destruct (loadTable s0 fs tn); split; try congruence.
        -- intros [= ->]. by split.
        -- by intros [_ [= ->]].
        -- by intros [_ ?].
      * rewrite lookup_empty. split; [discriminate |]. intros [Hfree Hl]. exfalso.
        apply Hnin. apply loadTable_Ok in Hl as [rest Hf].
        apply ReadDir_file; [by apply tbl_entryNameOk | by eexists].
Qed.


(** [SaveAllTables] goes through when the file of every table can be
    written; and when it went through, the file of every table holds the
    table, and every other file is as it was. *)
Lemma saveAll_writable (s : Storage) (ts : list (string * Table)) : forall fs,
  (forall nt, nt ∈ ts -> slashFree (TableName (TSchema nt.2)) = true) ->
  (forall nt, nt ∈ ts -> writable s fs (getTableFilePath s (TableName (TSchema nt.2)))) ->
  exists fs', saveAll s fs ts = (fs', None).
Proof.
  induction ts as [| [n0 t0] rest IH]; intros fs Hfree Hw; simpl; [by eexists |].
  rewrite saveTable_writable by (apply (Hw (n0, t0)); apply list_elem_of_here).
  apply IH.
  - intros nt Hin. apply Hfree. by apply list_elem_of_further.
  - intros nt Hin. apply writable_saved.
    + apply (Hfree (n0, t0)). apply list_elem_of_here.
    + apply Hfree. by apply list_elem_of_further.
    + apply (Hw nt). by apply list_elem_of_further.
Qed.

Lemma saveAll_files (s : Storage) (ts : list (string * Table)) : forall fs fs',
  (forall nt, nt ∈ ts -> slashFree (TableName (TSchema nt.2)) = true) ->
  NoDup (map (fun nt : string * Table => TableName (TSchema nt.2)) ts) ->
  saveAll s fs ts = (fs', None) ->
  denied fs' = denied fs /\ quota fs' = quota fs /\
  (forall nt, nt ∈ ts ->
     files fs' !! getTableFilePath s (TableName (TSchema nt.2))
     = Some [GobSchema (TSchema nt.2); GobRows (Rows nt.2)]) /\
  (forall p, (forall nt, nt ∈ ts -> getTableFilePath s (TableName (TSchema nt.2)) <> p) ->
             files fs' !! p = files fs !! p).
Proof.
  induction ts as [| [n0 t0] rest IH]; intros fs fs' Hfree Hnd Hrun; simpl in Hrun.
  - inversion Hrun; subst. repeat split; try done.
    intros nt Hin. by apply elem_of_nil in Hin.
  - destruct (saveTable s fs t0) as [fs1 [e |]] eqn:Hsave; [discriminate |].
    apply saveTable_files in Hsave as (Hfiles & Hden1 & Hq1).
    simpl in Hnd. apply NoDup_cons in Hnd as [Hnotin Hnd].
    destruct (IH fs1 fs') as (Hden & Hq & Hwritten & Hkept); [| done | done |].
    { intros nt Hin. apply Hfree. by apply list_elem_of_further. }
    split; [congruence |]. split; [congruence |]. split.
    + intros nt Hin. apply elem_of_cons in Hin as [-> | Hin]; [| by apply Hwritten].
      simpl. rewrite Hkept.
      * rewrite Hfiles. by rewrite lookup_insert_eq.
      * intros nt Hin Heq. apply getTableFilePath_inj in Heq.
        -- apply Hnotin. rewrite <- Heq. apply list_elem_of_fmap. by exists nt.
        -- apply Hfree. by apply list_elem_of_further.
        -- apply (Hfree (n0, t0)). apply list_elem_of_here.
    + intros p Hp. rewrite Hkept.
      * rewrite Hfiles. rewrite lookup_insert_ne; [done |].
        apply (Hp (n0, t0)). apply list_elem_of_here.
      * intros nt Hin. apply Hp. by apply list_elem_of_further.
Qed.

(** What startup finds after [SaveAllTables] went through. *)
Lemma save_reload (s : Storage) (fs fs' : FS) :
  names_match s -> plain_names s -> dataDir s <> EmptyString ->
  all_decodable (dataDir s) fs ->
  SaveAllTables s fs = (fs', None) ->
  exists s', NewStorage (dataDir s) fs' = Ok s' /\
    (forall n t, tables s !! n = Some t -> tables s' !! n = Some t) /\
    indexMgr s' = Manager.NewManager /\
    ((forall n, slashFree n = true -> is_Some (files fs !! getTableFilePath s n) ->
                is_Some (tables s !! n)) ->
     tables s' = tables s).
Proof.
  intros Hnames Hplain Hdir Hdec Hsave. unfold SaveAllTables in Hsave.
  assert (Hin : forall nt, nt ∈ map_to_list (tables s) ->
            tables s !! nt.1 = Some nt.2 /\ TableName (TSchema nt.2) = nt.1).
  { intros [n t] Hnt. apply elem_of_map_to_list in Hnt. split; [done |]. by apply Hnames. }
  destruct (saveAll_files s (map_to_list (tables s)) fs fs')
    as (Hden & Hq & Hwritten & Hkept); [| | done |].
  { intros nt Hnt. destruct (Hin nt Hnt) as [Hl ->]. apply Hplain. by eexists. }
  { assert (Heq : map (fun nt : string * Table => TableName (TSchema nt.2))
                      (map_to_list (tables s)) = (map_to_list (tables s)).*1).
    { apply map_ext_in. intros nt Hnt. apply list_elem_of_In in Hnt. by apply Hin. }
    rewrite Heq. apply NoDup_fst_map_to_list. }
  assert (Hfile : forall n t, tables s !! n = Some t ->
            files fs' !! getTableFilePath s n
            = Some [GobSchema (TSchema t); GobRows (Rows t)]).
  { intros n t Hnt. specialize (Hwritten (n, t)). simpl in Hwritten.
    rewrite (Hnames n t Hnt) in Hwritten. apply Hwritten. by apply elem_of_map_to_list. }
  assert (Hold : forall n, slashFree n = true -> tables s !! n = None ->
            files fs' !! getTableFilePath s n = files fs !! getTableFilePath s n).
  { intros n Hfree Hn. apply Hkept. intros nt Hnt Heq. destruct (Hin nt Hnt) as [Hl Hname].
    rewrite Hname in Heq. apply getTableFilePath_inj in Heq; [congruence | | done].
    apply Hplain. by eexists. }
  assert (Hdec' : all_decodable (dataDir s) fs').
  { intros name Hname Hext. rewrite (path_of_tableName name Hext) in Hname |- *.
    set (n := String.substring 0 (String.length name - 4) name) in *.
    fold (getTableFilePath s n).
    apply elem_of_ReadDir in Hname as [Hok [rest Hf]]. rewrite entryNameOk_tbl in Hok.
    destruct (tables s !! n) as [t |] eqn:Hn.
    - rewrite (Hfile n t Hn). eexists. split; [done |]. by eexists _, _, _.
    - rewrite (Hold n Hok Hn). rewrite Hkept in Hf.
      + destruct (Hdec (n +:+ ".tbl")) as (f & Hf' & Hd); [| apply hasTblExt_path | by exists f].
        apply elem_of_ReadDir. split; [by apply tbl_entryNameOk | by exists rest].
      + intros nt Hnt Heq. destruct (Hin nt Hnt) as [Hl Hname].
        rewrite Hname, tablePath_plain in Heq by (apply Hplain; by eexists).
        inversion Heq as [Hl']. apply app_inv_head in Hl'. inversion Hl' as [[Hn' Hrest]].
        assert (nt.1 = n); [| congruence].
        rewrite <- (tableName_of_path nt.1), <- (tableName_of_path n). simpl.
        by rewrite Hn'. }
  destruct (NewStorage_startup (dataDir s) fs') as [[_ Hstart] Hloaded].
  destruct (Hstart (conj Hdir Hdec')) as [s' Hs'].
  destruct (Hloaded s' Hs') as (Hdir' & Hmgr & Htables).
  assert (Hpath : forall n, getTableFilePath s' n = getTableFilePath s n)
    by (intros n; by apply getTableFilePath_dataDir).
  exists s'. split; [done |]. split; [| split; [done |]].
  - intros n t Hn. apply Htables. split; [apply Hplain; by eexists |].
    exists []. rewrite Hpath. by apply Hfile.
  - intros Honly. apply map_eq. intros n. destruct (tables s !! n) as [t |] eqn:Hn.
    + apply Htables. split; [apply Hplain; by eexists |].
      exists []. rewrite Hpath. by apply Hfile.
    + destruct (tables s' !! n) as [t' |] eqn:Hn'; [exfalso | done].
      apply Htables in Hn' as [Hfree [rest Hf]]. rewrite Hpath, (Hold n Hfree Hn) in Hf.
      destruct (Honly n Hfree) as [t Ht]; [by eexists | congruence].
Qed.

Lemma SaveAllTables_writable (s : Storage) (fs : FS) :
  names_match s -> plain_names s ->
  (forall n, is_Some (tables s !! n) -> writable s fs (getTableFilePath s n)) ->
  exists fs', SaveAllTables s fs = (fs', None).
Proof.
  intros Hnames Hplain Hw. unfold SaveAllTables.
  apply saveAll_writable; intros [n t] Hnt; apply elem_of_map_to_list in Hnt; simpl;
    rewrite (Hnames n t Hnt); [apply Hplain | apply Hw]; by eexists.
Qed.

(** X22. Saving and restarting gives back what was in memory. When every
    table is registered under its schema's name and no table name holds a
    path separator, the data directory is given by a path that is not
    empty, the file of every table can be written, and every [.tbl] entry
    of the data directory is a file that can be decoded, [SaveAllTables]
    succeeds, startup on the directory it leaves succeeds, and every table
    of the storage is registered again with the same schema and rows; when
    the directory held no [.tbl] file of some other table, the tables
    after the restart are exactly those of the storage. The index manager
    is empty after the restart. *)
Theorem SaveAllTables_then_NewStorage (s : Storage) (fs : FS) :
  names_match s -> plain_names s -> dataDir s <> EmptyString ->
  (forall n, is_Some (tables s !! n) -> writable s fs (getTableFilePath s n)) ->
  all_decodable (dataDir s) fs ->
  exists fs' s', SaveAllTables s fs = (fs', None) /\
    NewStorage (dataDir s) fs' = Ok s' /\
    (forall n t, tables s !! n = Some t -> tables s' !! n = Some t) /\
    indexMgr s' = Manager.NewManager /\
    ((forall n, slashFree n = true -> is_Some (files fs !! getTableFilePath s n) ->
                is_Some (tables s !! n)) ->
     tables s' = tables s).
Proof.
  intros Hnames Hplain Hdir Hw Hdec.
  destruct (SaveAllTables_writable s fs Hnames Hplain Hw) as [fs' Hsave].
  destruct (save_reload s fs fs' Hnames Hplain Hdir Hdec Hsave) as (s' & Hs' & H).
  by exists fs', s'.
Qed.

Lemma SaveAllTables_then_NewStorage_witness :
  exists fs' s', SaveAllTables idStorage emptyFS = (fs', None) /\
    NewStorage (dataDir idStorage) fs' = Ok s' /\
    (forall n t, tables idStorage !! n = Some t -> tables s' !! n = Some t) /\
    indexMgr s' = Manager.NewManager /\
    ((forall n, slashFree n = true ->
                is_Some (files emptyFS !! getTableFilePath idStorage n) ->
                is_Some (tables idStorage !! n)) ->
     tables s' = tables idStorage).
Proof.
  apply (SaveAllTables_then_NewStorage idStorage emptyFS).
  - intros n t Ht. unfold idStorage in Ht. simpl in Ht.
    apply lookup_singleton_Some in Ht as [<- <-]. reflexivity.
  - intros n [t Ht]. unfold idStorage in Ht. simpl in Ht.
    apply lookup_singleton_Some in Ht as [<- _]. reflexivity.
  - discriminate.
  - intros n [t Ht]. unfold idStorage in Ht. simpl in Ht.
    apply lookup_singleton_Some in Ht as [<- _].
    split; [vm_compute; reflexivity | intros k Hk; vm_compute in Hk; discriminate].
  - apply all_decodable_empty.
Defined.

End StartupFacts.

(* ================================================================== *)
(** * The executor: comparisons *)
(* ================================================================== *)

Section ComparisonFacts.

(** X23. On two integers the six operators of a predicate decide the
    order of the integers, [<=] and [>=] included although they are put
    together from [<], [>] and [==]. On two booleans [=] and [!=] decide
    equality, while [<] and [>] fail with [IncomparableTypes] although the
    types agree, and [<=] and [>=] nevertheless answer, with equality. Any
    other operator is an error when both operands are non-nil. *)
Theorem compareValues_same_type :
  (forall x y : Z,
     compareValues (VInt x) (VInt y) "=" = Ok (x =? y) /\
     compareValues (VInt x) (VInt y) "!=" = Ok (negb (x =? y)) /\
     compareValues (VInt x) (VInt y) "<" = Ok (x <? y) /\
     compareValues (VInt x) (VInt y) ">" = Ok (y <? x) /\
     compareValues (VInt x) (VInt y) "<=" = Ok (x <=? y) /\
     compareValues (VInt x) (VInt y) ">=" = Ok (y <=? x)) /\
  (forall a b : bool,
     compareValues (VBool a) (VBool b) "=" = Ok (Bool.eqb a b) /\
     compareValues (VBool a) (VBool b) "!=" = Ok (negb (Bool.eqb a b)) /\
     compareValues (VBool a) (VBool b) "<" = Err (IncomparableTypes KBool KBool) /\
     compareValues (VBool a) (VBool b) ">" = Err (IncomparableTypes KBool KBool) /\
     compareValues (VBool a) (VBool b) "<=" = Ok (Bool.eqb a b) /\
     compareValues (VBool a) (VBool b) ">=" = Ok (Bool.eqb a b)) /\
  (forall (l r : Value) (op : string),
     isNil l = false -> isNil r = false ->
     op ∉ ["="; "!="; "<"; ">"; "<="; ">="]%string ->
     compareValues l r op = Err (UnsupportedOperator op)).
Proof.
  split; [| split].
  - intros x y. unfold compareValues, lessThanOrEqual, greaterThanOrEqual. simpl.
    rewrite Z.gtb_ltb. repeat split.
    + destruct (Z.ltb_spec x y), (Z.eqb_spec x y), (Z.leb_spec x y); try reflexivity; lia.
    + destruct (Z.ltb_spec y x), (Z.eqb_spec x y), (Z.leb_spec y x); try reflexivity; lia.
  - intros a b. repeat split.
  - intros l r op Hl Hr Hop. unfold compareValues. rewrite Hl, Hr. simpl.
    repeat match goal with
    | |- context [String.eqb op ?o] =>
        destruct (String.eqb_spec op o) as [-> | _];
        [exfalso; apply Hop; repeat (apply list_elem_of_here || apply list_elem_of_further) |]
    end.
    reflexivity.
Qed.

End ComparisonFacts.

(* ================================================================== *)
(** * The executor: SELECT and DELETE on one table *)
(* ================================================================== *)

Section ExecutorFacts.

Lemma getColumnValue_total (e : Expression) (r : Row) (s : Schema) :
  length (Values r) = length (Columns s) -> is_Some (getColumnValue e r s).
Proof.
  intros Hlen. destruct e as [name | v | | l op rr]; simpl; try by eexists.
  unfold GetColumnIndex.
  destruct (indexFrom_first (Columns s) name 0) as [[_ ->] | (i & col & -> & Hcol & _)];
    simpl; [by eexists |].
  rewrite Z.add_0_l, of_nat_neq_minus_one, Nat2Z.id.
  destruct (lookup_lt_is_Some_2 (Values r) i) as [v Hv].
  { rewrite Hlen. eapply lookup_lt_Some; eauto. }
  rewrite Hv. by eexists.
Qed.

Lemma evaluateCondition_total (e : Expression) (r : Row) (s : Schema) :
  length (Values r) = length (Columns s) -> is_Some (evaluateCondition e r s).
Proof.
  intros Hlen. destruct e as [name | v | | l op rr]; simpl; try by eexists.
  destruct (getColumnValue_total l r s Hlen) as [[lv | le] ->]; simpl; [| by eexists].
  destruct (getColumnValue_total rr r s Hlen) as [[rv | re] ->]; simpl; by eexists.
Qed.

Lemma matches_buildCondition (w : option Expression) (s : Schema) (r : Row) :
  length (Values r) = length (Columns s) ->
  matches (buildCondition w s) r = Some (accepted w s r).
Proof.
  intros Hlen. destruct w as [e |]; simpl; [| done]. unfold whereClosure.
  destruct (evaluateCondition_total e r s Hlen) as [[[|] | err] ->]; done.
Qed.

Lemma deleteLoop_ext (g : Row -> option bool) (f : Row -> bool) (rows : list Row) :
  Forall (fun r => g r = Some (f r)) rows ->
  forall count, deleteLoop g rows count = deleteLoop (fun r => Some (f r)) rows count.
Proof.
  induction 1 as [| row rest Hrow _ IH]; intros count; simpl; [done |].
  rewrite Hrow. simpl. destruct (f row); by rewrite IH.
Qed.

(** X24. DELETE on a table whose rows have the schema's arity never
    panics: it keeps exactly the rows the WHERE clause does not accept, in
    their order, a row on which the predicate fails being kept; it then
    saves every table and reports the number of rows removed, or the error
    of the save. Without WHERE clause every row goes. *)
Theorem executeDelete_spec (s : Storage) (fs : FS) (tn : string) (t : Table)
    (w : option Expression) :
  tables s !! tn = Some t ->
  Forall (fun r => length (Values r) = length (Columns (TSchema t))) (Rows t) ->
  let kept := List.filter (fun r => negb (accepted w (TSchema t) r)) (Rows t) in
  let n := Z.of_nat (length (List.filter (accepted w (TSchema t)) (Rows t))) in
  let s' := mkStorage (dataDir s) (<[tn := mkTable (TSchema t) kept]> (tables s))
                      (indexMgr s) in
  executeDelete s fs (mkDeleteStmt tn w)
  = Some (s', (SaveAllTables s' fs).1,
          match (SaveAllTables s' fs).2 with
          | Some e => Err (Wrapped "failed to persist data" e)
          | None => Ok (mkResult [] [] (RowsDeleted n) n)
          end).
Proof.
  intros Ht Har kept n s'. subst kept n s'. unfold executeDelete, GetTable. simpl.
  rewrite Ht. simpl.
  assert (Hdel : DeleteRows t (buildCondition w (TSchema t))
            = Some (mkTable (TSchema t)
                      (List.filter (fun r => negb (accepted w (TSchema t) r)) (Rows t)),
                    Z.of_nat (length (List.filter (accepted w (TSchema t)) (Rows t))))).
  { unfold DeleteRows. destruct w as [e |]; simpl.
    - rewrite (deleteLoop_ext _ (accepted (Some e) (TSchema t))).
      + by rewrite deleteLoop_filter.
      + eapply Forall_impl; [exact Har |]. intros r Hr.
        apply (matches_buildCondition (Some e) (TSchema t) r Hr).
    - by rewrite filter_const_true, filter_const_false. }
  rewrite Hdel. simpl. by destruct (SaveAllTables _ fs) as [fs' [e |]].
Qed.

Lemma executeDelete_spec_witness :
  let w := Some (BinaryExpr (Identifier "id") "=" (Literal (VInt 1))) in
  let kept := List.filter (fun r => negb (accepted w (TSchema idTable) r)) (Rows idTable) in
  let n := Z.of_nat (length (List.filter (accepted w (TSchema idTable)) (Rows idTable))) in
  let s' := mkStorage (dataDir idStorage)
                      (<["t"%string := mkTable (TSchema idTable) kept]> (tables idStorage))
                      (indexMgr idStorage) in
  executeDelete idStorage emptyFS (mkDeleteStmt "t" w)
  = Some (s', (SaveAllTables s' emptyFS).1,
          match (SaveAllTables s' emptyFS).2 with
          | Some e => Err (Wrapped "failed to persist data" e)
          | None => Ok (mkResult [] [] (RowsDeleted n) n)
          end).
Proof.
  apply (executeDelete_spec idStorage emptyFS "t" idTable
           (Some (BinaryExpr (Identifier "id") "=" (Literal (VInt 1))))).
  - reflexivity.
  - repeat constructor.
Defined.

Lemma filterRows_filter (w : Expression) (s : Schema) (rows : list Row) :
  Forall (fun r => exists b, evaluateCondition w r s = Some (Ok b)) rows ->
  filterRows w s rows = Some (Ok (List.filter (accepted (Some w) s) rows)).
Proof.
  induction 1 as [| row rest [b Hrow] _ IH]; simpl; [done |].
  rewrite Hrow. simpl. rewrite IH. simpl. by destruct b.
Qed.

Lemma resolveColumns_names (s : Schema) (cs : list string) :
  Forall (fun c => c ∈ map Name (Columns s)) cs ->
  resolveColumns s cs = Ok (map (fun c => Z.to_nat (GetColumnIndex s c)) cs) /\
  Forall (fun c => (Z.to_nat (GetColumnIndex s c) < length (Columns s))%nat) cs.
Proof.
  induction 1 as [| c rest Hc _ [IH1 IH2]]; simpl; [done |].
  unfold GetColumnIndex in *.
  destruct (indexFrom_first (Columns s) c 0) as [[Hnot _] | (i & col & Hidx & Hcol & _)];
    [done |].
  rewrite Z.add_0_l in Hidx. rewrite !Hidx, of_nat_neq_minus_one, !Nat2Z.id. rewrite IH1.
  split; [done |]. constructor; [| done]. rewrite Hidx, Nat2Z.id.
  eapply lookup_lt_Some; eauto.
Qed.

Lemma mapM_map_Some {A B} (f : A -> option B) (g : A -> B) (l : list A) :
  Forall (fun x => f x = Some (g x)) l -> mapM f l = Some (map g l).
Proof.
  induction 1 as [| x l Hx _ IH]; simpl; [done |]. by rewrite Hx, IH.
Qed.

Lemma isStar_true (cols : list string) : isStar cols = true -> cols = ["*"%string].
Proof.
  destruct cols as [| c [| c' cols']]; simpl; try discriminate.
  intros Hc. apply String.eqb_eq in Hc. by subst.
Qed.

Lemma not_star_named {X} (cols : list string) (all named : X) :
  isStar cols = false ->
  match cols with
  | [star] => if String.eqb star "*" then all else named
  | _ => named
  end = named.
Proof.
  destruct cols as [| c [| c' cols']]; simpl; try done. by intros ->.
Qed.

Lemma mapM_map_map {A B C} (f : B -> option C) (h : A -> B) (g : A -> C) (l : list A) :
  Forall (fun x => f (h x) = Some (g x)) l -> mapM f (map h l) = Some (map g l).
Proof.
  induction 1 as [| x l Hx _ IH]; simpl; [done |]. by rewrite Hx, IH.
Qed.

Lemma mapM_lookup_seq {A} (vals : list A) : forall pre : list A,
  mapM (fun idx => (pre ++ vals) !! idx) (seq (length pre) (length vals)) = Some vals.
Proof.
  induction vals as [| v vals IH]; intros pre; simpl; [done |].
  rewrite list_lookup_middle by done. simpl.
  specialize (IH (pre ++ [v])). rewrite <- app_assoc, length_app in IH. simpl in IH.
  rewrite Nat.add_1_r in IH. by rewrite IH.
Qed.

(** X25. SELECT on a table whose rows have the schema's arity, when the
    WHERE predicate fails on no row, never panics: it returns the rows the
    predicate accepts, in table order, and the count of these rows; with
    the select list [*] each row comes with all its cells under the names
    of the columns, with a list of column names of the schema each row
    comes with the cells of these columns, in the order of the list. *)
Theorem executeSelect_spec (s : Storage) (tn : string) (t : Table)
    (cols : list string) (w : option Expression) :
  tables s !! tn = Some t ->
  Forall (fun r => length (Values r) = length (Columns (TSchema t))) (Rows t) ->
  (forall e, w = Some e ->
     Forall (fun r => exists b, evaluateCondition e r (TSchema t) = Some (Ok b)) (Rows t)) ->
  isStar cols = true \/ Forall (fun c => c ∈ map Name (Columns (TSchema t))) cols ->
  let rows := List.filter (accepted w (TSchema t)) (Rows t) in
  executeSelect s (mkSelectStmt cols tn w)
  = Some (Ok (mkResult
                (if isStar cols then map Name (Columns (TSchema t)) else cols)
                (map (fun r => if isStar cols then Values r
                               else map (cellOf (TSchema t) r) cols) rows)
                NoMessage (Z.of_nat (length rows)))).
Proof.
  intros Ht Har Hw Hcols rows0. subst rows0. unfold executeSelect, GetTable. simpl.
  rewrite Ht. simpl.
  assert (Hfilter :
    match w with
    | None => Some (Ok (SelectRows t))
    | Some e => filterRows e (TSchema t) (SelectRows t)
    end = Some (Ok (List.filter (accepted w (TSchema t)) (Rows t)))).
  { destruct w as [e |]; simpl.
    - by apply filterRows_filter, Hw.
    - by rewrite filter_const_true. }
  rewrite Hfilter. simpl.
  set (rows := List.filter (accepted w (TSchema t)) (Rows t)).
  assert (Hrows : Forall (fun r => length (Values r) = length (Columns (TSchema t))) rows)
    by (by apply Forall_filter_bool).
  assert (Hstar : mapM (projectRow (seq 0 (length (Columns (TSchema t))))) rows
                  = Some (map Values rows)).
  { apply mapM_map_Some. eapply Forall_impl; [exact Hrows |]. intros r Hr.
    unfold projectRow. rewrite <- Hr. apply (mapM_lookup_seq (Values r) []). }
  assert (Hnamed : Forall (fun c => c ∈ map Name (Columns (TSchema t))) cols ->
    resolveColumns (TSchema t) cols
      = Ok (map (fun c => Z.to_nat (GetColumnIndex (TSchema t) c)) cols) /\
    mapM (projectRow (map (fun c => Z.to_nat (GetColumnIndex (TSchema t) c)) cols)) rows
      = Some (map (fun r => map (cellOf (TSchema t) r) cols) rows)).
  { intros Hin. destruct (resolveColumns_names (TSchema t) cols Hin) as [Hres Hlt].
    split; [done |]. apply mapM_map_Some. eapply Forall_impl; [exact Hrows |].
    intros r Hr. unfold projectRow.
    apply mapM_map_map. eapply Forall_impl; [exact Hlt |]. intros c Hc. simpl.
    unfold cellOf. destruct (lookup_lt_is_Some_2 (Values r) _ ltac:(rewrite Hr; exact Hc))
      as [v ->]. done. }
  destruct (isStar cols) eqn:Hs.
  - apply isStar_true in Hs. subst cols. simpl. rewrite Hstar. simpl.
    by rewrite length_map.
  - destruct Hcols as [? | Hin]; [done |].
    destruct (Hnamed Hin) as [Hres Hproj].
    rewrite (not_star_named cols _ _ Hs), Hres, Hproj. simpl. by rewrite length_map.
Qed.

Lemma executeSelect_spec_witness :
  let w := Some (BinaryExpr (Identifier "id") "=" (Literal (VInt 1))) in
  let rows := List.filter (accepted w (TSchema idTable)) (Rows idTable) in
  executeSelect idStorage (mkSelectStmt ["id"%string; "id"%string] "t" w)
  = Some (Ok (mkResult
                (if isStar ["id"%string; "id"%string]
                 then map Name (Columns (TSchema idTable)) else ["id"%string; "id"%string])
                (map (fun r => if isStar ["id"%string; "id"%string] then Values r
                               else map (cellOf (TSchema idTable) r) ["id"%string; "id"%string])
                     rows)
                NoMessage (Z.of_nat (length rows)))).
Proof.
  apply (executeSelect_spec idStorage "t" idTable ["id"%string; "id"%string]
           (Some (BinaryExpr (Identifier "id") "=" (Literal (VInt 1))))).
  - reflexivity.
  - repeat constructor.
  - intros e [= <-]. repeat constructor. by exists true.
  - right. repeat constructor.
Defined.

End ExecutorFacts.

(* ================================================================== *)
(** * The executor: INSERT, CREATE TABLE, and what success leaves on disk *)
(* ================================================================== *)

Section ExecutorWriteFacts.

Lemma GetColumnIndex_present (s : Schema) (c : string) :
  c ∈ map Name (Columns s) ->
  exists i col, GetColumnIndex s c = Z.of_nat i /\ Columns s !! i = Some col /\ Name col = c.
Proof.
  intros Hin. unfold GetColumnIndex.
  destruct (indexFrom_first (Columns s) c 0) as [[Hnot _] | (i & col & Hidx & Hcol & Hn & _)];
    [done |].
  exists i, col. split; [lia | done].
Qed.

Lemma GetColumnIndex_inj (s : Schema) (c c' : string) :
  c ∈ map Name (Columns s) -> c' ∈ map Name (Columns s) ->
  Z.to_nat (GetColumnIndex s c) = Z.to_nat (GetColumnIndex s c') -> c = c'.
Proof.
  intros Hc Hc' Heq.
  destruct (GetColumnIndex_present s c Hc) as (i & col & Hi & Hcol & <-).
  destruct (GetColumnIndex_present s c' Hc') as (i' & col' & Hi' & Hcol' & <-).
  rewrite Hi, Hi', !Nat2Z.id in Heq. subst i'. congruence.
Qed.

Lemma setCells_spec (s : Schema) (ups : list (string * Value)) :
  Forall (fun u => u.1 ∈ map Name (Columns s)) ups -> NoDup (ups.*1) ->
  forall vals, length vals = length (Columns s) ->
    length (setCells s ups vals) = length (Columns s) /\
    (forall c v, (c, v) ∈ ups ->
       setCells s ups vals !! Z.to_nat (GetColumnIndex s c) = Some v) /\
    (forall j, (forall c v, (c, v) ∈ ups -> Z.to_nat (GetColumnIndex s c) <> j) ->
       setCells s ups vals !! j = vals !! j).
Proof.
  induction 1 as [| [c0 v0] rest Hc0 Hrest IH]; intros Hnd vals Hlen.
  - split; [done |]. split; [| done]. intros c v Hin. by apply elem_of_nil in Hin.
  - simpl in Hnd, Hc0. apply NoDup_cons in Hnd as [Hnotin Hnd]. rewrite setCells_cons.
    destruct (IH Hnd (<[Z.to_nat (GetColumnIndex s c0) := v0]> vals)) as (Hl & Hset & Hkeep);
      [by rewrite length_insert |].
    split; [done |]. split.
    + intros c v Hin. apply elem_of_cons in Hin as [[= -> ->] | Hin]; [| by apply Hset].
      rewrite Hkeep.
      * apply list_lookup_insert_eq. rewrite Hlen.
        destruct (GetColumnIndex_present s c0 Hc0) as (i & col & -> & Hcol & _).
        rewrite Nat2Z.id. eapply lookup_lt_Some; eauto.
      * intros c v Hin Heq. apply Hnotin.
        assert (c = c0) as ->; [| apply list_elem_of_fmap; by exists (c0, v)].
        apply (GetColumnIndex_inj s); [| done | done].
        rewrite Forall_forall in Hrest. apply (Hrest (c, v) Hin).
    + intros j Hj. rewrite Hkeep.
      * apply list_lookup_insert_ne. apply (Hj c0 v0). apply list_elem_of_here.
      * intros c v Hin. apply (Hj c v). by apply list_elem_of_further.
Qed.

Lemma fillRow_setCells (s : Schema) (es : list Expression) (vs : list Value) :
  Forall2 (fun e v => evaluateExpression e = Ok v) es vs ->
  forall cs vals,
    length cs = length es ->
    Forall (fun c => c ∈ map Name (Columns s)) cs ->
    length vals = length (Columns s) ->
    fillRow (map (fun c => Z.to_nat (GetColumnIndex s c)) cs) es vals
    = Some (Ok (setCells s (zip cs vs) vals)).
Proof.
  induction 1 as [| e v es vs He _ IH]; intros cs vals Hlen Hcs Hvals.
  - destruct cs; [done | discriminate].
  - destruct cs as [| c cs]; [discriminate |]. simpl in Hlen.
    apply Forall_cons in Hcs as [Hc Hcs]. simpl. rewrite He.
    destruct (GetColumnIndex_present s c Hc) as (i & col & Hi & Hcol & _).
    rewrite store_is_Some by (rewrite Hi, Nat2Z.id, Hvals; eapply lookup_lt_Some; eauto).
    simpl. rewrite IH; [| lia | done | by rewrite length_insert]. done.
Qed.

Lemma InsertRow_total (t : Table) (row : Row) :
  table_wf t ->
  exists t' err, InsertRow t row = Some (t', err) /\ table_wf t' /\
    match err with
    | None => t' = mkTable (TSchema t) (Rows t ++ [row])
    | Some _ => t' = t
    end.
Proof.
  intros Hwf. unfold InsertRow.
  destruct (Nat.eqb_spec (length (Values row)) (length (Columns (TSchema t)))) as [Hlen | Hlen];
    simpl; [| by eexists _, _].
  destruct (validateRow_total (Columns (TSchema t)) (Values row) 0 Hlen)
    as [[Hok Hcells] | (e & j & col & v & Hr & _)]; [| rewrite Hr; simpl; by eexists _, _].
  rewrite Hok. simpl.
  pose proof Hwf as [[Hnd [Hpk Huk]] Har]. rewrite Hpk, Huk.
  destruct (checkPrimaryKeys_spec t row Hwf Hlen (List.filter PrimaryKey (Columns (TSchema t))))
    as [[Hpok Hpnone] | (v & i & c & Hdup & _)].
  { intros c Hc. by apply elem_of_filter_bool in Hc as [? _]. }
  2: { rewrite Hdup. simpl. by eexists _, _. }
  rewrite Hpok. simpl.
  destruct (checkUniqueKeys_spec t row Hwf Hlen (List.filter Unique (Columns (TSchema t))))
    as [[Huok Hunone] | (v & i & c & Hdup & _)].
  { intros c Hc. by apply elem_of_filter_bool in Hc as [? _]. }
  2: { rewrite Hdup. simpl. by eexists _, _. }
  rewrite Huok. simpl. eexists _, _. split; [done |]. split; [| done].
  split; [by destruct Hwf |]. simpl. apply Forall_app. split; [done |]. by constructor.
Qed.

Lemma resolveColumns_schema_order (t : Table) :
  table_wf t ->
  Forall (fun c => c ∈ map Name (Columns (TSchema t))) (map Name (Columns (TSchema t))).
Proof. intros _. by apply Forall_forall. Qed.

(** X26. INSERT of one tuple of literals. The row handed to [InsertRow]
    is nil everywhere except at the columns of the column list (the
    columns of the schema, in order, when the statement has no list),
    where it holds the values of the tuple, in the order of the list; the
    statement then does what [InsertRow] does with that row, returning its
    error with nothing saved, or saving every table and reporting one row
    inserted. *)
Theorem executeInsert_one_row (s : Storage) (fs : FS) (tn : string) (t : Table)
    (cs : list string) (es : list Expression) (vs : list Value) :
  tables s !! tn = Some t -> table_wf t ->
  Forall (fun c => c ∈ map Name (Columns (TSchema t))) cs ->
  length es = length (insertColumns (TSchema t) cs) ->
  Forall2 (fun e v => evaluateExpression e = Ok v) es vs ->
  (NoDup (insertColumns (TSchema t) cs) ->
   (forall k c v, insertColumns (TSchema t) cs !! k = Some c -> vs !! k = Some v ->
                  cellOf (TSchema t) (insertedRow (TSchema t) cs vs) c = v) /\
   (forall c, c ∈ map Name (Columns (TSchema t)) -> c ∉ insertColumns (TSchema t) cs ->
              cellOf (TSchema t) (insertedRow (TSchema t) cs vs) c = VNil)) /\
  exists t' err, InsertRow t (insertedRow (TSchema t) cs vs) = Some (t', err) /\
    executeInsert s fs (mkInsertStmt tn cs [es])
    = Some (mkStorage (dataDir s) (<[tn := t']> (tables s)) (indexMgr s),
            match err with
            | Some _ => fs
            | None =>
                (SaveAllTables
                   (mkStorage (dataDir s) (<[tn := t']> (tables s)) (indexMgr s)) fs).1
            end,
            match err with
            | Some e => Err e
            | None =>
                match (SaveAllTables
                         (mkStorage (dataDir s) (<[tn := t']> (tables s)) (indexMgr s)) fs).2
                with
                | Some e => Err (Wrapped "failed to persist data" e)
                | None => Ok (RowsInserted 1)
                end
            end).
Proof.
  intros Ht Hwf Hcs Hlen Hvals.
  set (columns := insertColumns (TSchema t) cs) in *.
  set (row := insertedRow (TSchema t) cs vs).
  assert (Hcols : Forall (fun c => c ∈ map Name (Columns (TSchema t))) columns).
  { subst columns. unfold insertColumns.
    destruct (length cs =? 0)%nat; [by apply Forall_forall | done]. }
  assert (Hvs : length vs = length columns)
    by (rewrite <- Hlen; symmetry; by eapply Forall2_length).
  split.
  - intros Hnd.
    destruct (setCells_spec (TSchema t) (zip columns vs)) with
      (vals := replicate (length (Columns (TSchema t))) VNil) as (Hl & Hset & Hkeep).
    + apply Forall_forall. intros [c v] Hin. simpl. apply elem_of_zip_l in Hin.
      rewrite Forall_forall in Hcols. by apply Hcols.
    + rewrite fst_zip by lia. done.
    + apply length_replicate.
    + split.
      * intros k c v Hc Hv. unfold cellOf, row, insertedRow. simpl. fold columns.
        rewrite (Hset c v); [done |].
        apply list_elem_of_lookup. exists k. rewrite lookup_zip_with, Hc. simpl. by rewrite Hv.
      * intros c Hc Hnot. unfold cellOf, row, insertedRow. simpl. fold columns. rewrite Hkeep.
        -- destruct (GetColumnIndex_present _ c Hc) as (i & col & -> & Hcol & _).
           rewrite Nat2Z.id, lookup_replicate_2; [done |]. eapply lookup_lt_Some; eauto.
        -- intros c' v' Hin Heq. apply Hnot. apply elem_of_zip_l in Hin.
           assert (c' = c) as <-; [| done].
           apply (GetColumnIndex_inj (TSchema t)); [| done | done].
           rewrite Forall_forall in Hcols. by apply Hcols.
  - destruct (InsertRow_total t row Hwf) as (t' & err & Hins & _ & _).
    exists t', err. split; [done |].
    unfold executeInsert, GetTable. simpl. rewrite Ht.
    change (if (length cs =? 0)%nat then map Name (Columns (TSchema t)) else cs)
      with columns.
    destruct (resolveColumns_names (TSchema t) columns Hcols) as [-> _].
    cbn [insertValueSets]. rewrite Hlen, Nat.eqb_refl. cbn [negb].
    rewrite (fillRow_setCells (TSchema t) es vs Hvals columns);
      [| lia | done | apply length_replicate].
    cbn [mbind option_bind]. unfold NewRow.
    change (mkRow (setCells (TSchema t) (zip columns vs)
                            (replicate (length (Columns (TSchema t))) VNil))) with row.
    rewrite Hins. cbn [mbind option_bind].
    destruct err as [e |]; [done |]. cbn [mbind option_bind].
    by destruct (SaveAllTables _ fs) as [fs' [e |]].
Qed.

Lemma executeInsert_one_row_witness :
  (NoDup (insertColumns (TSchema pkTable) ["id"%string]) ->
   (forall k c v, insertColumns (TSchema pkTable) ["id"%string] !! k = Some c ->
                  [VInt 2] !! k = Some v ->
                  cellOf (TSchema pkTable)
                         (insertedRow (TSchema pkTable) ["id"%string] [VInt 2]) c = v) /\
   (forall c, c ∈ map Name (Columns (TSchema pkTable)) ->
              c ∉ insertColumns (TSchema pkTable) ["id"%string] ->
              cellOf (TSchema pkTable)
                     (insertedRow (TSchema pkTable) ["id"%string] [VInt 2]) c = VNil)) /\
  exists t' err,
    InsertRow pkTable (insertedRow (TSchema pkTable) ["id"%string] [VInt 2])
      = Some (t', err) /\
    executeInsert pkStorage emptyFS
                  (mkInsertStmt "t" ["id"%string] [[Literal (VInt 2)]])
    = Some (mkStorage (dataDir pkStorage) (<["t"%string := t']>
                         (tables pkStorage))
                      (indexMgr pkStorage),
            match err with
            | Some _ => emptyFS
            | None =>
                (SaveAllTables
                   (mkStorage (dataDir pkStorage) (<["t"%string := t']>
                      (tables pkStorage))
                      (indexMgr pkStorage))
                   emptyFS).1
            end,
            match err with
            | Some e => Err e
            | None =>
                match (SaveAllTables
                   (mkStorage (dataDir pkStorage) (<["t"%string := t']>
                      (tables pkStorage))
                      (indexMgr pkStorage))
                   emptyFS).2
                with
                | Some e => Err (Wrapped "failed to persist data" e)
                | None => Ok (RowsInserted 1)
                end
            end).
Proof.
  apply (executeInsert_one_row pkStorage
           emptyFS "t" pkTable ["id"%string] [Literal (VInt 2)] [VInt 2]).
  - reflexivity.
  - apply pkTable_wf.
  - repeat constructor.
  - reflexivity.
  - repeat constructor.
Defined.

Lemma fillRow_total (es : list Expression) : forall idxs vals,
  length idxs = length es -> Forall (fun i => (i < length vals)%nat) idxs ->
  exists r, fillRow idxs es vals = Some r.
Proof.
  induction es as [| e es IH]; intros idxs vals Hlen Hidx; simpl; [by eexists |].
  destruct (evaluateExpression e) as [v | err]; [| by eexists].
  destruct idxs as [| i idxs]; [discriminate |].
  apply Forall_cons in Hidx as [Hi Hidx]. rewrite store_is_Some by done. simpl.
  apply IH; [simpl in Hlen; lia |]. by rewrite length_insert.
Qed.

Lemma insertValueSets_appends (n : nat) (idxs : list nat) (vss : list (list Expression)) :
  length idxs = n ->
  forall t count, table_wf t ->
    Forall (fun i => (i < length (Columns (TSchema t)))%nat) idxs ->
    exists t' r added,
      insertValueSets t n idxs vss count = Some (t', r) /\
      t' = mkTable (TSchema t) (Rows t ++ added) /\
      (length added <= length vss)%nat /\
      match r with
      | Ok k => k = count + Z.of_nat (length added) /\ length added = length vss
      | Err _ => (length added < length vss)%nat
      end.
Proof.
  intros Hn. induction vss as [| es vss IH]; intros t count Hwf Hidx; simpl.
  - exists t, (Ok count), []. rewrite app_nil_r. split; [done |]. split; [by destruct t |].
    simpl. split; [lia |]. split; lia.
  - destruct (Nat.eqb_spec (length es) n) as [Hes | Hes]; simpl.
    2: { exists t, (Err (ArityMismatch (length es) n)), []. rewrite app_nil_r.
         split; [done |]. split; [by destruct t |]. simpl. split; lia. }
    destruct (fillRow_total es idxs (replicate (length (Columns (TSchema t))) VNil))
      as [filled Hfill]; [lia | by rewrite length_replicate |].
    rewrite Hfill. simpl. destruct filled as [vals | e].
    2: { exists t, (Err e), []. rewrite app_nil_r.
         split; [done |]. split; [by destruct t |]. simpl. split; lia. }
    destruct (InsertRow_total t (NewRow vals) Hwf) as (t1 & err & Hins & Hwf1 & Ht1).
    rewrite Hins. simpl. destruct err as [e |].
    { subst t1. exists t, (Err e), []. rewrite app_nil_r.
      split; [done |]. split; [by destruct t |]. simpl. split; lia. }
    destruct (IH t1 (count + 1) Hwf1) as (t' & r & added & Hrun & Ht' & Hle & Hr);
      [by subst t1 |].
    rewrite Hrun. exists t', r, (NewRow vals :: added). split; [done |].
    split; [subst t' t1; simpl; by rewrite <- app_assoc |].
    simpl. split; [lia |]. destruct r as [k | e]; [| lia].
    destruct Hr as [-> Hl]. split; lia.
Qed.

(** X27. INSERT on a well-formed table never panics, and whatever the
    statement it only appends rows to the table and leaves the index
    manager alone. On success the count is the number of rows appended,
    one per tuple, and every table has been saved. When a tuple is
    refused, the rows of the tuples before it stay in the table in memory,
    and nothing is written to the directory. *)
Theorem executeInsert_appends (s : Storage) (fs : FS) (stmt : InsertStmt) (t : Table) :
  tables s !! iTableName stmt = Some t -> table_wf t ->
  exists s' fs' r added,
    executeInsert s fs stmt = Some (s', fs', r) /\
    s' = mkStorage (dataDir s)
           (<[iTableName stmt := mkTable (TSchema t) (Rows t ++ added)]> (tables s))
                   (indexMgr s) /\
    (length added <= length (iValues stmt))%nat /\
    match r with
    | Ok st =>
        st = RowsInserted (Z.of_nat (length added)) /\
        length added = length (iValues stmt) /\ SaveAllTables s' fs = (fs', None)
    | Err e =>
        fs' = fs \/
        (length added = length (iValues stmt) /\
         exists e', e = Wrapped "failed to persist data" e' /\
                    SaveAllTables s' fs = (fs', Some e'))
    end.
Proof.
  intros Ht Hwf. unfold executeInsert, GetTable. rewrite Ht.
  set (columns := if (length (iColumns stmt) =? 0)%nat
                  then map Name (Columns (TSchema t)) else iColumns stmt).
  assert (Hsame : mkStorage (dataDir s) (<[iTableName stmt := mkTable (TSchema t) (Rows t ++ [])]>
                               (tables s)) (indexMgr s) = s).
  { rewrite app_nil_r. destruct t as [sch rows]. simpl.
    rewrite insert_id by done. by destruct s. }
  destruct (resolveColumns (TSchema t) columns) as [idxs | e] eqn:Hres.
  2: { exists s, fs, (Err e), []. split; [done |]. split; [done |]. split; [simpl; lia |].
       by left. }
  assert (Hidx : length idxs = length columns /\
                 Forall (fun i => (i < length (Columns (TSchema t)))%nat) idxs).
  { clear -Hres. revert idxs Hres. induction columns as [| c cs IH]; intros idxs; simpl.
    - by intros [= <-].
    - unfold GetColumnIndex.
      destruct (indexFrom_first (Columns (TSchema t)) c 0)
        as [[_ ->] | (i & col & -> & Hcol & _)]; simpl; [discriminate |].
      rewrite Z.add_0_l, of_nat_neq_minus_one, Nat2Z.id.
      destruct (resolveColumns (TSchema t) cs) as [idxs' | e]; [| discriminate].
      intros [= <-]. destruct (IH idxs' eq_refl) as [Hl Hf]. simpl.
      split; [by rewrite Hl |]. constructor; [| done]. eapply lookup_lt_Some; eauto. }
  destruct Hidx as [Hlen Hidx].
  destruct (insertValueSets_appends (length columns) idxs (iValues stmt) Hlen t 0 Hwf Hidx)
    as (t' & r & added & Hrun & Ht' & Hle & Hr).
  rewrite Hrun. cbn [mbind option_bind]. subst t'. destruct r as [k | e].
  - destruct Hr as [-> Hl]. rewrite Z.add_0_l.
    destruct (SaveAllTables _ fs) as [fs' [e |]] eqn:Hsave.
    + eexists _, _, _, added. split; [done |]. split; [done |]. split; [done |].
      right. split; [done |]. by exists e.
    + eexists _, _, _, added. split; [done |]. split; [done |]. split; [done |]. done.
  - eexists _, _, _, added. split; [done |]. split; [done |]. split; [done |]. by left.
Qed.

Lemma executeInsert_appends_witness :
  exists s' fs' r added,
    executeInsert pkStorage emptyFS
      (mkInsertStmt "t" [] [[Literal (VInt 2)]; [Literal (VInt 1)]; [Literal (VInt 3)]])
      = Some (s', fs', r) /\
    s' = mkStorage (dataDir pkStorage) (<[iTableName (mkInsertStmt "t" []
                        [[Literal (VInt 2)]; [Literal (VInt 1)]; [Literal (VInt 3)]]) :=
                        mkTable (TSchema pkTable) (Rows pkTable ++ added)]>
                      (tables pkStorage))
                   (indexMgr pkStorage) /\
    (length added <= length (iValues (mkInsertStmt "t" []
                        [[Literal (VInt 2)]; [Literal (VInt 1)]; [Literal (VInt 3)]])))%nat /\
    match r with
    | Ok st =>
        st = RowsInserted (Z.of_nat (length added)) /\
        length added = length (iValues (mkInsertStmt "t" []
                        [[Literal (VInt 2)]; [Literal (VInt 1)]; [Literal (VInt 3)]])) /\
        SaveAllTables s' emptyFS = (fs', None)
    | Err e =>
        fs' = emptyFS \/
        (length added = length (iValues (mkInsertStmt "t" []
                        [[Literal (VInt 2)]; [Literal (VInt 1)]; [Literal (VInt 3)]])) /\
         exists e', e = Wrapped "failed to persist data" e' /\
                    SaveAllTables s' emptyFS = (fs', Some e'))
    end.
Proof.
  apply (executeInsert_appends pkStorage
           emptyFS
           (mkInsertStmt "t" [] [[Literal (VInt 2)]; [Literal (VInt 1)]; [Literal (VInt 3)]])
           pkTable).
  - reflexivity.
  - apply pkTable_wf.
Defined.

Lemma InsertRow_schema (t : Table) (row : Row) (t' : Table) (err : option error) :
  InsertRow t row = Some (t', err) -> TSchema t' = TSchema t.
Proof.
  unfold InsertRow.
  destruct (negb _); [by intros [= <- _] |].
  destruct (validateRow _ _ _) as [[e1 |] |]; simpl; [by intros [= <- _] | | done].
  destruct (checkPrimaryKeys _ _ _ _) as [[e2 |] |]; simpl; [by intros [= <- _] | | done].
  destruct (checkUniqueKeys _ _ _ _) as [[e3 |] |]; simpl; [by intros [= <- _] | | done].
  by intros [= <- _].
Qed.

Lemma insertValueSets_schema (n : nat) (idxs : list nat) (vss : list (list Expression)) :
  forall t count t' r,
    insertValueSets t n idxs vss count = Some (t', r) -> TSchema t' = TSchema t.
Proof.
  induction vss as [| es vss IH]; intros t count t' r; simpl.
  - by intros [= <- _].
  - destruct (negb _); [by intros [= <- _] |].
    destruct (fillRow _ _ _) as [[vals | e] |]; simpl; [| by intros [= <- _] | done].
    destruct (InsertRow t (NewRow vals)) as [[t1 [e |]] |] eqn:Hins; simpl; [| | done].
    + intros [= <- _]. by apply InsertRow_schema in Hins.
    + intros Hrun. apply IH in Hrun. apply InsertRow_schema in Hins. congruence.
Qed.

Lemma names_match_insert (s : Storage) (tn : string) (t t' : Table) :
  names_match s -> tables s !! tn = Some t -> TSchema t' = TSchema t ->
  names_match (mkStorage (dataDir s) (<[tn := t']> (tables s)) (indexMgr s)).
Proof.
  intros Hnames Ht Hsch n t0. simpl. destruct (decide (n = tn)) as [-> | Hne].
  - rewrite lookup_insert_eq. intros [= <-]. rewrite Hsch. by apply Hnames.
  - rewrite lookup_insert_ne by done. apply Hnames.
Qed.

Lemma plain_names_insert (s : Storage) (tn : string) (t t' : Table) :
  plain_names s -> tables s !! tn = Some t ->
  plain_names (mkStorage (dataDir s) (<[tn := t']> (tables s)) (indexMgr s)).
Proof.
  intros Hplain Ht n. simpl. destruct (decide (n = tn)) as [-> | Hne].
  - intros _. apply Hplain. by eexists.
  - rewrite lookup_insert_ne by done. apply Hplain.
Qed.

(** X28. What an INSERT, UPDATE or DELETE that reports success leaves on
    disk is what it leaves in memory: when every table is registered under
    its schema's name, no table name holds a path separator, the data
    directory is given by a path that is not empty, and every [.tbl] entry
    of it is a file that can be decoded, startup on the directory after
    the statement succeeds and registers every table of the storage after
    the statement, with its schema and its rows. *)
Theorem success_is_persisted (s : Storage) (fs : FS) :
  names_match s -> plain_names s -> dataDir s <> EmptyString ->
  all_decodable (dataDir s) fs ->
  (forall stmt s' fs' r, executeInsert s fs stmt = Some (s', fs', Ok r) -> reloads s' fs') /\
  (forall stmt s' fs' r, executeUpdate s fs stmt = Some (s', fs', Ok r) -> reloads s' fs') /\
  (forall stmt s' fs' r, executeDelete s fs stmt = Some (s', fs', Ok r) -> reloads s' fs').
Proof.
  intros Hnames Hplain Hdir Hdec.
  assert (Hreload : forall s' fs',
            names_match s' -> plain_names s' -> dataDir s' = dataDir s ->
            SaveAllTables s' fs = (fs', None) -> reloads s' fs').
  { intros s' fs' Hn Hp Hd Hsave.
    destruct (save_reload s' fs fs' Hn Hp) as (s'' & Hs'' & Hall & _);
      [by rewrite Hd | by rewrite Hd | done |].
    by exists s''. }
  split; [| split].
  - intros stmt s' fs' r. unfold executeInsert, GetTable.
    destruct (tables s !! iTableName stmt) as [t |] eqn:Ht; [| discriminate].
    destruct (resolveColumns _ _) as [idxs | e]; [| discriminate].
    destruct (insertValueSets _ _ _ _ _) as [[t' [k | e]] |] eqn:Hrun; simpl; try discriminate.
    destruct (SaveAllTables _ fs) as [fs1 [e |]] eqn:Hsave; [discriminate |].
    intros [= <- <- _]. apply Hreload; [| by eapply plain_names_insert | done | done].
    apply (names_match_insert s _ t t' Hnames Ht). by eapply insertValueSets_schema.
  - intros stmt s' fs' r. unfold executeUpdate, GetTable.
    destruct (tables s !! uTableName stmt) as [t |] eqn:Ht; [| discriminate].
    destruct (evaluateUpdates _) as [updates | e]; [| discriminate].
    unfold UpdateRows.
    destruct (updateLoop _ _ _ _ _) as [[[rows' n] [e |]] |]; simpl; try discriminate.
    destruct (SaveAllTables _ fs) as [fs1 [e |]] eqn:Hsave; [discriminate |].
    intros [= <- <- _]. apply Hreload; [| by eapply plain_names_insert | done | done].
    by apply (names_match_insert s _ t _ Hnames Ht).
  - intros stmt s' fs' r. unfold executeDelete, GetTable.
    destruct (tables s !! dTableName stmt) as [t |] eqn:Ht; [| discriminate].
    destruct (DeleteRows _ _) as [[t' n] |] eqn:Hdel; simpl; [| discriminate].
    destruct (SaveAllTables _ fs) as [fs1 [e |]] eqn:Hsave; [discriminate |].
    intros [= <- <- _]. apply Hreload; [| by eapply plain_names_insert | done | done].
    apply (names_match_insert s _ t t' Hnames Ht).
    unfold DeleteRows in Hdel. destruct (buildCondition _ _).
    + destruct (deleteLoop _ _ _) as [[rows' n'] |]; simpl in Hdel; [| discriminate].
      by inversion Hdel.
    + by inversion Hdel.
Qed.

Lemma success_is_persisted_witness :
  reloads
    (mkStorage (dataDir idStorage)
          (<["t"%string := mkTable (TSchema idTable) []]> (tables idStorage))
               (indexMgr idStorage))
    (SaveAllTables
       (mkStorage (dataDir idStorage)
          (<["t"%string := mkTable (TSchema idTable) []]> (tables idStorage))
                  (indexMgr idStorage)) emptyFS).1.
Proof.
  assert (Hnames : names_match idStorage).
  { intros n t Ht. unfold idStorage in Ht. simpl in Ht.
    apply lookup_singleton_Some in Ht as [<- <-]. reflexivity. }
  assert (Hplain : plain_names idStorage).
  { intros n [t Ht]. unfold idStorage in Ht. simpl in Ht.
    apply lookup_singleton_Some in Ht as [<- _]. reflexivity. }
  assert (Hdir : dataDir idStorage <> EmptyString) by discriminate.
  assert (Hdec : all_decodable (dataDir idStorage) emptyFS)
    by apply all_decodable_empty.
  destruct (success_is_persisted idStorage emptyFS Hnames Hplain Hdir Hdec)
    as (_ & _ & Hdelete).
  apply (Hdelete (mkDeleteStmt "t" None) _ _ (mkResult [] [] (RowsDeleted 1) 1)).
  reflexivity.
Defined.




(** The type names are compared in upper case: the dotless i of
    [ınteger] (bytes 196 177) has the upper case I. *)
Lemma convertDataType_upper_case :
  convertDataType "Integer" = Ok TypeInteger /\
  convertDataType (String "196" (String "177" "nteger")) = Ok TypeInteger /\
  convertDataType "varchar" = Ok TypeVarchar /\
  convertDataType "INT" = Err (Wrapped "unsupported data type" (NotFound "INT")).
Proof. repeat split; reflexivity. Qed.



End ExecutorWriteFacts.

(* ================================================================== *)
(** * The executor: joins *)
(* ================================================================== *)

Section JoinFacts.

Lemma splitDot_dotFree (a : string) : dotFree a = true -> splitDot a = [a].
Proof.
  induction a as [| c a IH]; simpl; [done |].
  intros H. apply andb_prop in H as [Hc Ha]. apply negb_true_iff in Hc. rewrite Hc.
  by rewrite (IH Ha).
Qed.

Lemma splitDot_qualified (a b : string) :
  dotFree a = true -> dotFree b = true -> splitDot (a +:+ "." +:+ b) = [a; b].
Proof.
  intros Ha Hb. induction a as [| c a IH].
  - change (splitDot (String "."%char b) = [EmptyString; b]). simpl.
    by rewrite (splitDot_dotFree b Hb).
  - simpl in Ha. apply andb_prop in Ha as [Hc Ha]. apply negb_true_iff in Hc.
    change (splitDot (String c (a +:+ "." +:+ b)) = [String c a; b]). simpl.
    by rewrite Hc, (IH Ha).
Qed.

Lemma compareValues_eq (a b : Value) : compareValues a b "=" = Ok (iface_eq a b).
Proof. unfold compareValues. simpl. by destruct (isNil a || isNil b). Qed.

Lemma cell_lookup (sch : Schema) (r : Row) (col : string) :
  col ∈ map Name (Columns sch) -> length (Values r) = length (Columns sch) ->
  (GetColumnIndex sch col =? -1) = false /\
  Values r !! Z.to_nat (GetColumnIndex sch col) = Some (cellOf sch r col).
Proof.
  intros Hcol Hlen. destruct (GetColumnIndex_present sch col Hcol) as (i & c & Hi & Hc & _).
  unfold cellOf. rewrite Hi, of_nat_neq_minus_one, Nat2Z.id. split; [done |].
  destruct (lookup_lt_is_Some_2 (Values r) i) as [v ->]; [| done].
  rewrite Hlen. eapply lookup_lt_Some; eauto.
Qed.

Lemma joinRight_flat_map (pair : Row -> option (result bool)) (f : Row -> bool) (l : Row)
    (rights : list Row) :
  Forall (fun r => pair r = Some (Ok (f r))) rights ->
  joinRight pair l rights
  = Some (Ok (flat_map (fun r => if f r then [Values l ++ Values r] else []) rights)).
Proof.
  induction 1 as [| r rights Hr _ IH]; simpl; [done |].
  rewrite Hr. simpl. rewrite IH. simpl. by destruct (f r).
Qed.

Lemma joinRows_flat_map (pair : Row -> Row -> option (result bool)) (f : Row -> Row -> bool)
    (lefts rights : list Row) :
  Forall (fun l => Forall (fun r => pair l r = Some (Ok (f l r))) rights) lefts ->
  joinRows pair lefts rights
  = Some (Ok (flat_map (fun l =>
                flat_map (fun r => if f l r then [Values l ++ Values r] else []) rights)
                lefts)).
Proof.
  induction 1 as [| l lefts Hl _ IH]; simpl; [done |].
  rewrite (joinRight_flat_map (pair l) (f l) l rights Hl). simpl. by rewrite IH.
Qed.

Lemma project_all (row : list Value) (a b : nat) :
  length row = (a + b)%nat ->
  mapM (fun idx => row !! idx) (seq 0 a ++ seq a b) = Some row.
Proof.
  intros Hlen. rewrite <- (Nat.add_0_l a) at 2. rewrite <- seq_app, <- Hlen.
  apply (mapM_lookup_seq row []).
Qed.

(** X30. An inner join of two different tables on the equality of a
    column of each, both written [table.column], with the select list [*]
    and no WHERE clause: when the rows of both tables have their schemas'
    arity the statement never panics, and it returns, under the column
    names qualified by their tables, the pairs of a left and a right row
    whose cells in the two columns are [==] (two nil cells included), the
    cells of the left row first, in the order of the nested loop. More than
    one join is refused, whatever the joins are. *)
Theorem join_on_equal_columns (s : Storage) (ln rn lcol rcol jt : string) (lt rt : Table) :
  tables s !! ln = Some lt -> tables s !! rn = Some rt ->
  Forall (fun r => length (Values r) = length (Columns (TSchema lt))) (Rows lt) ->
  Forall (fun r => length (Values r) = length (Columns (TSchema rt))) (Rows rt) ->
  dotFree ln = true -> dotFree rn = true -> dotFree lcol = true -> dotFree rcol = true ->
  ln <> rn ->
  lcol ∈ map Name (Columns (TSchema lt)) -> rcol ∈ map Name (Columns (TSchema rt)) ->
  executeSelectJoins s (mkSelectStmt ["*"%string] ln None)
    [mkJoinClause jt rn
       (Some (BinaryExpr (Identifier (ln +:+ "." +:+ lcol)) "="
                         (Identifier (rn +:+ "." +:+ rcol))))]
  = Some (Ok (mkResult
                (map (fun col => ln +:+ "." +:+ Name col) (Columns (TSchema lt))
                 ++ map (fun col => rn +:+ "." +:+ Name col) (Columns (TSchema rt)))
                (equiJoin lt rt lcol rcol) NoMessage
                (Z.of_nat (length (equiJoin lt rt lcol rcol))))) /\
  (forall cols w j1 j2 js,
     executeSelectJoins s (mkSelectStmt cols ln w) (j1 :: j2 :: js)
     = Some (Err (Wrapped "multiple joins not yet supported" UnsupportedExpression))).
Proof.
  intros Hlt Hrt Harl Harr Hln Hrn Hlcol Hrcol Hne Hlin Hrin. split.
  2: { intros cols w j1 j2 js. unfold executeSelectJoins, GetTable. simpl. by rewrite Hlt. }
  unfold executeSelectJoins, GetTable. cbn [sTableName]. rewrite Hlt.
  unfold executeSelectWithJoin, GetTable.
  cbn [length Nat.ltb Nat.leb lookup list_lookup mbind option_bind jTableName jOn
       sTableName sWhere sColumns].
  rewrite Hrt. unfold SelectRows.
  rewrite (joinRows_flat_map _
             (fun l r => iface_eq (cellOf (TSchema lt) l lcol) (cellOf (TSchema rt) r rcol))).
  2: { eapply Forall_impl; [exact Harl |]. intros l Hl.
       eapply Forall_impl; [exact Harr |]. intros r Hr.
       unfold joinPair, evaluateJoinCondition, getJoinColumnValue.
       rewrite !splitDot_qualified by done.
       cbn [leftTableName rightTableName leftSchema rightSchema leftRow rightRow].
       rewrite String.eqb_refl.
       destruct (cell_lookup (TSchema lt) l lcol Hlin Hl) as [-> ->].
       cbn [mbind option_bind].
       rewrite (proj2 (String.eqb_neq rn ln)) by congruence. rewrite String.eqb_refl.
       destruct (cell_lookup (TSchema rt) r rcol Hrin Hr) as [-> ->].
       cbn [mbind option_bind]. rewrite compareValues_eq. cbn [mbind option_bind].
       by destruct (iface_eq _ _). }
  cbn [mbind option_bind]. change (String.eqb "*" "*") with true. cbn iota.
  fold (equiJoin lt rt lcol rcol).
  assert (Hproj : mapM (fun row : list Value =>
                    mapM (fun idx => row !! idx)
                         (seq 0 (length (Columns (TSchema lt)))
                          ++ seq (length (Columns (TSchema lt)))
                                 (length (Columns (TSchema rt)))))
                    (equiJoin lt rt lcol rcol)
                  = Some (equiJoin lt rt lcol rcol)).
  { rewrite <- (map_id (equiJoin lt rt lcol rcol)) at 2. apply mapM_map_Some.
    apply Forall_forall. intros row Hrow. apply project_all.
    unfold equiJoin in Hrow. apply list_elem_of_In, in_flat_map in Hrow as (l & Hl & Hrow).
    apply in_flat_map in Hrow as (r & Hr & Hrow).
    rewrite Forall_forall in Harl, Harr.
    destruct (iface_eq _ _); [| done]. destruct Hrow as [<- | []].
    rewrite length_app, (Harl l), (Harr r); [done | |]; by apply list_elem_of_In. }
  rewrite Hproj. done.
Qed.

Lemma join_on_equal_columns_witness :
  let users := mkTable (AddColumn (NewSchema "u") (intColumn "id"))
                       [mkRow [VInt 1]; mkRow [VInt 2]] in
  let orders := mkTable (AddColumn (AddColumn (NewSchema "o") (intColumn "oid"))
                                   (intColumn "uid"))
                        [mkRow [VInt 10; VInt 2]; mkRow [VInt 11; VInt 3]] in
  let s := mkStorage "./data" {[ "u"%string := users; "o"%string := orders ]}
                     Manager.NewManager in
  executeSelectJoins s (mkSelectStmt ["*"%string] "u" None)
    [mkJoinClause "INNER" "o"
       (Some (BinaryExpr (Identifier ("u" +:+ "." +:+ "id")) "="
                         (Identifier ("o" +:+ "." +:+ "uid"))))]
  = Some (Ok (mkResult
                (map (fun col => "u" +:+ "." +:+ Name col) (Columns (TSchema users))
                 ++ map (fun col => "o" +:+ "." +:+ Name col) (Columns (TSchema orders)))
                (equiJoin users orders "id" "uid") NoMessage
                (Z.of_nat (length (equiJoin users orders "id" "uid"))))) /\
  (forall cols w j1 j2 js,
     executeSelectJoins s (mkSelectStmt cols "u" w) (j1 :: j2 :: js)
     = Some (Err (Wrapped "multiple joins not yet supported" UnsupportedExpression))).
Proof.
  apply (join_on_equal_columns
           (mkStorage "./data" {[ "u"%string :=
                           mkTable (AddColumn (NewSchema "u") (intColumn "id"))
                                   [mkRow [VInt 1]; mkRow [VInt 2]];
                         "o"%string :=
                           mkTable (AddColumn (AddColumn (NewSchema "o") (intColumn "oid"))
                                              (intColumn "uid"))
                                   [mkRow [VInt 10; VInt 2]; mkRow [VInt 11; VInt 3]] ]}
                      Manager.NewManager)
           "u" "o" "id" "uid" "INNER").
  - reflexivity.
  - reflexivity.
  - repeat constructor.
  - repeat constructor.
  - reflexivity.
  - reflexivity.
  - reflexivity.
  - reflexivity.
  - discriminate.
  - repeat constructor.
  - simpl. apply list_elem_of_further, list_elem_of_here.
Defined.

End JoinFacts.
